(** * Cycle-Autocomplete (geany-plugins, cycleautocomplete.c)

    A shallow embedding of the candidate discovery, ranking and cycling code
    of the plugin, and the properties of its specification proved (or
    refuted) on that embedding.

    Conventions of the embedding.
    - A [gchar *] holding UTF-8 text is the list of its Unicode characters
      ([gunichar], an [N]); the terminating NUL is the end of the list.  With
      this reading [g_utf8_get_char] is the head, [g_utf8_next_char] the tail,
      and [strcmp]'s byte order is the lexicographic order of the characters.
    - A [gint] is a [Z]; the places where the C code adds, subtracts or
      multiplies are written with the 32-bit two's complement wrap-around.
    - A [GList *] is a [list]; a position inside it ([elem]) is kept as the
      elements before it (nearest first) and the elements from it on, which
      gives [elem->prev], [elem->next] and [g_list_last].
    - The Scintilla widget is an interface ([ScintillaObject]): the plugin only
      queries it during a scan, and the edits it issues are returned as a list
      of [Effect]s. *)

From Stdlib Require Import Ascii String.
From Stdlib Require DecimalString DecimalZ.
From stdpp Require Import base list numbers sorting strings gmap.

Local Open Scope Z_scope.

(** ** Strings *)

Abbreviation gunichar := N (only parsing).
Abbreviation gstring := (list N) (only parsing).

(** An ASCII literal as a [gchar *]. *)
Definition utf8 (s : string) : gstring :=
  Ascii.N_of_ascii <$> String.list_ascii_of_string s.

(** [utils_str_equal] on two non-NULL strings. *)
Definition utils_str_equal (a b : gstring) : bool := bool_decide (a = b).

(** [g_strcmp0] on two non-NULL strings: [strcmp], of which only the sign is
    used. *)
Fixpoint g_strcmp0 (s1 s2 : gstring) : Z :=
  match s1, s2 with
  | [], [] => 0
  | [], _ :: _ => -1
  | _ :: _, [] => 1
  | c1 :: r1, c2 :: r2 =>
      match (c1 ?= c2)%N with
      | Lt => -1
      | Gt => 1
      | Eq => g_strcmp0 r1 r2
      end
  end.

(** Number of bytes of the UTF-8 encoding of a character, and [strlen]. *)
Definition g_unichar_utf8_len (c : gunichar) : Z :=
  if (c <? 128)%N then 1
  else if (c <? 2048)%N then 2
  else if (c <? 65536)%N then 3
  else 4.

Definition strlen (s : gstring) : Z :=
  foldr (λ c n, g_unichar_utf8_len c + n) 0 s.

(** ** Machine integers *)

Definition G_MAXINT : Z := 2147483647.

Definition gint_wrap (z : Z) : Z := (z + 2147483648) `mod` 4294967296 - 2147483648.
Definition gint_add (a b : Z) : Z := gint_wrap (a + b).
Definition gint_sub (a b : Z) : Z := gint_wrap (a - b).
Definition gint_mul (a b : Z) : Z := gint_wrap (a * b).

(** The macros [MAX], [MIN] and [ABS] of GLib. *)
Definition MAX (a b : Z) : Z := if a >? b then a else b.
Definition MIN (a b : Z) : Z := if a <? b then a else b.
Definition ABS (a : Z) : Z := if a <? 0 then gint_wrap (- a) else a.

Definition is_gint (z : Z) : Prop := - 2147483648 ≤ z ≤ G_MAXINT.

(** ** Data model *)

(** [SORT_ALPHABETICALLY] and [SORT_BY_DISTANCE]; the configuration keeps the
    sort order as a plain [gint]. *)
Definition SORT_ALPHABETICALLY : Z := 0.
Definition SORT_BY_DISTANCE : Z := 1.

(** The enumerators [MATCH_COUNT] and [CYCLE_COUNT] only count the entries of
    their enumerations and are never stored. *)
Inductive MatchType := MATCH_EXACT | MATCH_FUZZY_FORWARD.
Inductive CycleDirection := CYCLE_FORWARD | CYCLE_BACKWARD.

Global Instance MatchType_eq_dec : EqDecision MatchType.
Proof. solve_decision. Defined.
Global Instance CycleDirection_eq_dec : EqDecision CycleDirection.
Proof. solve_decision. Defined.

Definition match_type_value (m : MatchType) : Z :=
  match m with MATCH_EXACT => 0 | MATCH_FUZZY_FORWARD => 1 end.

Record Candidate := mkCandidate {
  dist : Z;
  text : gstring;
  match_type : MatchType
}.

Global Instance Candidate_eq_dec : EqDecision Candidate.
Proof. solve_decision. Defined.

(** The fields of [PluginConfig] the completion code reads. *)
Record PluginConfig := mkPluginConfig {
  candidates_limit : Z;
  distance_limit : Z;
  sort_order : Z;
  skip_fuzzy_if_exact : bool;
  remove_trailing_word_part : bool
}.

(** ** Comparison functions *)

Definition compare_candidate_str (c : Candidate) (s : gstring) : Z :=
  g_strcmp0 (text c) s.

Definition compare_candidates_alpha (c0 c1 : Candidate) : Z :=
  g_strcmp0 (text c0) (text c1).

Definition compare_candidates_dist (c0 c1 : Candidate) : Z :=
  Z.b2z (dist c0 >? dist c1) - Z.b2z (dist c0 <? dist c1).

Definition compare_candidates_match_type (c0 c1 : Candidate) : Z :=
  Z.b2z (match_type_value (match_type c0) >? match_type_value (match_type c1))
  - Z.b2z (match_type_value (match_type c0) <? match_type_value (match_type c1)).

(** ** Fuzzy matcher *)

Section fuzzy.
(** [g_utf8_casefold] folds a string character by character: each character
    is replaced by the entry of GLib's case folding table, or by its lower
    case.  The table is the parameter [casefold_char]. *)
Variable casefold_char : gunichar → gstring.

Definition g_utf8_casefold (s : gstring) : gstring :=
  s ≫= casefold_char.

(** [g_utf8_strchr p (-1) c]: the rest of [p] from the first occurrence of
    [c] on, or NULL. *)
Fixpoint g_utf8_strchr (p : gstring) (c : gunichar) : option gstring :=
  match p with
  | [] => None
  | x :: p' => if (x =? c)%N then Some p else g_utf8_strchr p' c
  end.

Definition g_utf8_next_char (p : gstring) : gstring := tail p.

(** The [while (remaining && *remaining)] loop of [match_fuzzy_forward]. *)
Fixpoint match_fuzzy_forward_loop (baseline remaining : gstring) : bool :=
  match remaining with
  | [] => true
  | c :: remaining' =>
      match g_utf8_strchr baseline c with
      | None => false
      | Some found =>
          match_fuzzy_forward_loop (g_utf8_next_char found) remaining'
      end
  end.

Definition match_fuzzy_forward (pattern match_ : gstring) : bool :=
  match_fuzzy_forward_loop (g_utf8_casefold match_) (g_utf8_casefold pattern).
End fuzzy.

(** Case folding of the ASCII range, where it is lower-casing; used to run
    the matcher on concrete inputs. *)
Definition ascii_casefold_char (c : gunichar) : gstring :=
  if ((65 <=? c) && (c <=? 90))%N then [(c + 32)%N] else [c].

(** ** GList *)

Section g_list.
Context {A : Type}.

(** A [GCompareFunc]: negative, zero or positive. *)
Variable compare_func : A → A → Z.

(** [g_list_sort_merge]: the head of the first list is taken as long as it
    does not compare greater than the head of the second. *)
Fixpoint g_list_sort_merge (l1 : list A) : list A → list A :=
  fix merge_into (l2 : list A) : list A :=
    match l1, l2 with
    | [], _ => l2
    | _, [] => l1
    | x1 :: l1', x2 :: l2' =>
        if compare_func x1 x2 <=? 0
        then x1 :: g_list_sort_merge l1' l2
        else x2 :: merge_into l2'
    end.

(** [g_list_sort_real]: lists of fewer than two elements are returned as they
    are; otherwise the list is cut after its first [length / 2] elements, both
    halves are sorted and then merged.  The recursion is bounded by [fuel],
    which [g_list_sort] sets to the length of the list. *)
Fixpoint g_list_sort_real (fuel : nat) (glist : list A) : list A :=
  match fuel with
  | O => glist
  | S fuel' =>
      match glist with
      | [] => []
      | [x] => [x]
      | _ =>
          let half := (length glist `div` 2)%nat in
          g_list_sort_merge (g_list_sort_real fuel' (take half glist))
                            (g_list_sort_real fuel' (drop half glist))
      end
  end.

Definition g_list_sort (glist : list A) : list A :=
  g_list_sort_real (length glist) glist.

(** The order a comparison function sorts by. *)
Definition sorts_before (x y : A) : Prop := compare_func x y ≤ 0.
End g_list.

(** [g_list_find_custom glist data func]: the first element (with its index)
    for which [func] returns 0. *)
Definition g_list_find_custom {A B} (glist : list A) (data : B)
    (func : A → B → Z) : option (nat * A) :=
  list_find (λ x, func x data = 0) glist.

Definition g_list_prepend {A} (glist : list A) (data : A) : list A := data :: glist.
Definition g_list_append {A} (glist : list A) (data : A) : list A := glist ++ [data].

(** ** The Scintilla widget *)

Definition SCFIND_WORDSTART : Z := 1048576.

(** The fields of [struct Sci_TextToFind] the search reads. *)
Record Sci_TextToFind := mkTextToFind {
  cpMin : Z;
  cpMax : Z;
  lpstrText : gstring
}.

(** The queries the plugin sends to the widget.  [sci_find_text] returns -1
    or the start position of the matching text. *)
Record ScintillaObject := mkScintilla {
  sci_get_length : Z;
  sci_get_selection_start : Z;
  sci_word_start_position : Z → bool → Z;
  sci_word_end_position : Z → bool → Z;
  sci_get_contents_range : Z → Z → gstring;
  sci_find_text : Z → Sci_TextToFind → Z
}.

(** What the scan relies on: the document length is a non-negative [gint], the
    word at a position of the document never ends before that position, and a
    search reports nothing in front of its range. *)
Record sci_wf (sci : ScintillaObject) : Prop := {
  sci_length_range : 0 ≤ sci_get_length sci ≤ G_MAXINT;
  sci_word_end_ge : ∀ p only,
    0 ≤ p ≤ sci_get_length sci → p ≤ sci_word_end_position sci p only;
  sci_find_text_ge : ∀ flags ttf,
    sci_find_text sci flags ttf = -1 ∨
    cpMin ttf `min` cpMax ttf ≤ sci_find_text sci flags ttf
}.

(** ** Scanner and candidate collector: [find_words] *)

(** An occurrence that [find_words] merged into the candidate list, with the
    pass that saw it.  The log of occurrences is kept next to the list for the
    statements below; the code computes nothing from it. *)
Record Occurrence := mkOccurrence {
  occ_text : gstring;
  occ_start : Z;
  occ_pass : MatchType
}.

Global Instance Occurrence_eq_dec : EqDecision Occurrence.
Proof. solve_decision. Defined.

(** The state [find_words] works on: the global [candidates], the log, and the
    local [num_matches]. *)
Record Scan := mkScan {
  scan_candidates : list Candidate;
  scan_yielded : list Occurrence;
  scan_num_matches : Z
}.

Section find_words.
Variable sci : ScintillaObject.
Variable plugin_config : PluginConfig.
Variables prefix word : gstring.
Variable pos : Z.
Variable select_func : option (gstring → gstring → bool).

(** The search range [source_start, source_end). *)
Definition find_words_window : Z * Z :=
  if distance_limit plugin_config >? 0 then
    let radius := gint_mul (distance_limit plugin_config) 1024 in
    (MAX (gint_sub pos radius) 0, MIN (gint_add pos radius) (sci_get_length sci))
  else
    (0, sci_get_length sci).

(** [g_utf8_substring prefix 0 1] in the fuzzy pass, the prefix otherwise. *)
Definition find_words_pattern : gstring :=
  match select_func with
  | Some _ => take 1 prefix
  | None => prefix
  end.

Definition find_words_match_type : MatchType :=
  match select_func with
  | Some _ => MATCH_FUZZY_FORWARD
  | None => MATCH_EXACT
  end.

(** [!select_func || select_func(prefix, match)]. *)
Definition find_words_selected (match_ : gstring) : bool :=
  match select_func with
  | Some f => f prefix match_
  | None => true
  end.

(** The body of the [if] on a selected occurrence: the distance of a known
    text is lowered, a new text other than the word itself is prepended. *)
Definition find_words_collect (match_ : gstring) (match_start : Z) (st : Scan) : Scan :=
  let seen := mkOccurrence match_ match_start find_words_match_type in
  match g_list_find_custom (scan_candidates st) match_ compare_candidate_str with
  | Some (i, c) =>
      let c' := mkCandidate (MIN (ABS (gint_sub match_start pos)) (dist c))
                            (text c) (match_type c) in
      mkScan (<[i := c']> (scan_candidates st))
             (scan_yielded st ++ [seen])
             (scan_num_matches st)
  | None =>
      if negb (utils_str_equal word match_) then
        let c := mkCandidate (ABS (gint_sub match_start pos)) match_
                             find_words_match_type in
        mkScan (g_list_prepend (scan_candidates st) c)
               (scan_yielded st ++ [seen])
               (gint_add (scan_num_matches st) 1)
      else st
  end.

(** The [while] loop, entered with the result of the last search.  Running
    out of [fuel] is [None]. *)
Fixpoint find_words_loop (source_start source_end : Z) (fuel : nat)
    (st : Scan) (match_start : Z) : option Scan :=
  if (source_start <=? match_start) && (match_start <? source_end) then
    match fuel with
    | O => None
    | S fuel' =>
        let match_end := sci_word_end_position sci (gint_add match_start 1) true in
        let match_ := sci_get_contents_range sci match_start match_end in
        let st' :=
          if find_words_selected match_
          then find_words_collect match_ match_start st
          else st in
        if scan_num_matches st' =? candidates_limit plugin_config then Some st'
        else
          find_words_loop source_start source_end fuel' st'
            (sci_find_text sci SCFIND_WORDSTART
               (mkTextToFind match_end source_end find_words_pattern))
    end
  else Some st.

(** [find_words]: the result holds the new [candidates] and the returned
    [num_matches].  Every turn of the loop moves the search past one more
    position of the range, so its size bounds the number of turns. *)
Definition find_words (candidates : list Candidate) (yielded : list Occurrence)
    : option Scan :=
  let '(source_start, source_end) := find_words_window in
  find_words_loop source_start source_end
    (Z.to_nat (source_end - source_start))
    (mkScan candidates yielded 0)
    (sci_find_text sci SCFIND_WORDSTART
       (mkTextToFind source_start source_end find_words_pattern)).
End find_words.

(** ** Collector and ranker: [find_candidates] *)

Section find_candidates.
Variable casefold_char : gunichar → gstring.
Variable sci : ScintillaObject.
Variable plugin_config : PluginConfig.
Variables prefix word : gstring.
Variable pos : Z.

(** The two passes: the fuzzy one runs when the exact one found nothing new or
    when fuzzy matches are not to be skipped. *)
Definition find_candidates_collect (candidates : list Candidate)
    : option (list Candidate * list Occurrence) :=
  exact ← find_words sci plugin_config prefix word pos None candidates [];
  if (scan_num_matches exact =? 0) || negb (skip_fuzzy_if_exact plugin_config) then
    fuzzy ← find_words sci plugin_config prefix word pos
               (Some (match_fuzzy_forward casefold_char))
               (scan_candidates exact) (scan_yielded exact);
    Some (scan_candidates fuzzy, scan_yielded fuzzy)
  else
    Some (scan_candidates exact, scan_yielded exact).

(** The entry appended behind the sorted candidates ([g_new0] zeroes the
    distance and the match type). *)
Definition sentinel : Candidate :=
  mkCandidate 0
    (if remove_trailing_word_part plugin_config then word else prefix)
    MATCH_EXACT.

Definition candidate_sort_func : Candidate → Candidate → Z :=
  if sort_order plugin_config =? SORT_ALPHABETICALLY
  then compare_candidates_alpha
  else compare_candidates_dist.

(** The [if (candidates)] block that sorts the list and appends the typed
    text. *)
Definition find_candidates_sort (candidates : list Candidate) : list Candidate :=
  match candidates with
  | [] => []
  | _ :: _ =>
      let sorted := g_list_sort candidate_sort_func candidates in
      let sorted :=
        if negb (skip_fuzzy_if_exact plugin_config)
        then g_list_sort compare_candidates_match_type sorted
        else sorted in
      g_list_append sorted sentinel
  end.

Definition find_candidates (candidates : list Candidate) : option (list Candidate) :=
  collected ← find_candidates_collect candidates;
  Some (find_candidates_sort collected.1).
End find_candidates.

(** ** Cycler *)

(** The [for (elem = candidates; elem; elem = elem->next)] loop of
    [cycle_candidates], entered with a non-NULL [prev_completion].  [before]
    holds the elements in front of [elem], nearest first, so that [elem->prev]
    is its head.  The result is [None] when the loop ends without returning;
    otherwise it is the returned text, itself [None] where the C code would
    dereference a NULL list. *)
Fixpoint cycle_candidates_loop (candidates : list Candidate)
    (direction : CycleDirection) (prev_completion : gstring)
    (before elem : list Candidate) : option (option gstring) :=
  match elem with
  | [] => None
  | c :: next =>
      if utils_str_equal (text c) prev_completion then
        Some match direction with
             | CYCLE_FORWARD =>
                 match next with
                 | c' :: _ => Some (text c')
                 | [] => text <$> head candidates
                 end
             | CYCLE_BACKWARD =>
                 match before with
                 | c' :: _ => Some (text c')
                 | [] => text <$> last elem
                 end
             end
      else
        cycle_candidates_loop candidates direction prev_completion
          (c :: before) next
  end.

(** [cycle_candidates direction prev_completion] over the global list
    [candidates]; [None] stands for the NULL dereference on an empty list. *)
Definition cycle_candidates (candidates : list Candidate)
    (direction : CycleDirection) (prev_completion : option gstring)
    : option gstring :=
  let pick_first := text <$> head candidates in
  match prev_completion with
  | Some prev =>
      match cycle_candidates_loop candidates direction prev [] candidates with
      | Some returned => returned
      | None => pick_first
      end
  | None => pick_first
  end.

(** Cycling several times in a row, every returned completion being accepted
    (stored as the next [prev_completion], as [insert_completion] does). *)
Fixpoint cycle_repeat (candidates : list Candidate) (direction : CycleDirection)
    (n : nat) (prev_completion : option gstring) : option (option gstring) :=
  match n with
  | O => Some prev_completion
  | S n' =>
      completion ← cycle_candidates candidates direction prev_completion;
      cycle_repeat candidates direction n' (Some completion)
  end.

(** The text the cycler hands back when the match sits at index [i]. *)
Definition neighbour_index (direction : CycleDirection) (len i : nat) : nat :=
  match direction with
  | CYCLE_FORWARD => (i + 1) `mod` len
  | CYCLE_BACKWARD => (i + len - 1) `mod` len
  end.


(** The stride of one step, as a number added modulo the length. *)
Definition stride (direction : CycleDirection) (len : nat) : nat :=
  match direction with
  | CYCLE_FORWARD => 1
  | CYCLE_BACKWARD => len - 1
  end.

(** ** The key binding handler: [insert_completion] *)

(** What outlives one invocation: the function's static [prev_completion] and
    the global [candidates]. *)
Record Session := mkSession {
  prev_completion : option gstring;
  candidates : list Candidate
}.

(** The commands sent to the widget and to the status bar, in order.
    [SetStatusbar prefix] is the message "No completions found" for
    [prefix]. *)
Inductive Effect :=
  | AutocCancel
  | StartUndoAction
  | SetTargetStart (p : Z)
  | SetTargetEnd (p : Z)
  | ReplaceTarget (completion : gstring)
  | SetCurrentPosition (p : Z)
  | EndUndoAction
  | SetStatusbar (prefix : gstring).

Section insert_completion.
Variable casefold_char : gunichar → gstring.
Variable plugin_config : PluginConfig.

(** The edit that puts [completion] in place of the word. *)
Definition replace_word (start end_ pos : Z) (completion : gstring) : list Effect :=
  [ AutocCancel;
    StartUndoAction;
    SetTargetStart start;
    SetTargetEnd (if remove_trailing_word_part plugin_config then end_ else pos);
    ReplaceTarget completion;
    SetCurrentPosition (gint_add start (strlen completion));
    EndUndoAction ].

(** [!prev_completion || !utils_str_equal(prefix, prev_completion)]. *)
Definition new_prefix (prefix : gstring) (prev : option gstring) : bool :=
  match prev with
  | None => true
  | Some p => negb (utils_str_equal prefix p)
  end.

(** The first half of [insert_completion]: with a new prefix or no previous
    completion both pieces of state are cleared and the candidates are
    searched again. *)
Definition insert_completion_find (sci : ScintillaObject)
    (prefix word : gstring) (pos : Z) (s : Session) : option Session :=
  if new_prefix prefix (prev_completion s) then
    found ← find_candidates casefold_char sci plugin_config prefix word pos [];
    Some (mkSession None found)
  else Some s.

(** The second half: cycle and replace, or report that nothing was found. *)
Definition insert_completion_cycle (direction : CycleDirection)
    (start end_ pos : Z) (prefix : gstring) (s : Session)
    : option (Session * list Effect) :=
  match candidates s with
  | _ :: _ =>
      completion ← cycle_candidates (candidates s) direction (prev_completion s);
      Some (mkSession (Some completion) (candidates s),
            replace_word start end_ pos completion)
  | [] => Some (s, [SetStatusbar prefix])
  end.

(** [insert_completion direction]; [doc] is the current document, if any.
    The two [g_return_if_fail] leave everything as it was. *)
Definition insert_completion (doc : option ScintillaObject)
    (direction : CycleDirection) (s : Session) : option (Session * list Effect) :=
  match doc with
  | None => Some (s, [])
  | Some sci =>
      let pos := sci_get_selection_start sci in
      let start := sci_word_start_position sci pos true in
      let end_ := sci_word_end_position sci pos true in
      if pos >? start then
        let prefix := sci_get_contents_range sci start pos in
        let word := sci_get_contents_range sci start end_ in
        s' ← insert_completion_find sci prefix word pos s;
        insert_completion_cycle direction start end_ pos prefix s'
      else Some (s, [])
  end.
End insert_completion.

(** ** A document to run the code on

    A widget over a buffer of one-byte characters, with the cursor at [sel]:
    words are runs of [GEANY_WORDCHARS], and a search walks forward through
    its range for a word start at which the pattern is found, case
    ignored (a range given backwards finds nothing). *)

Definition GEANY_WORDCHARS : gstring :=
  utf8 "_abcdefghijklmnopqrstuvwxyzABCDEFGHIJKLMNOPQRSTUVWXYZ0123456789".

Definition is_word_char (c : gunichar) : bool := bool_decide (c ∈ GEANY_WORDCHARS).

Section buffer.
Variable buf : gstring.
Variable sel : Z.

Definition buffer_char_at (p : Z) : option gunichar :=
  if p <? 0 then None else buf !! Z.to_nat p.

Definition buffer_is_word_at (p : Z) : bool :=
  match buffer_char_at p with
  | Some c => is_word_char c
  | None => false
  end.

Fixpoint buffer_extend_right (fuel : nat) (p : Z) : Z :=
  match fuel with
  | O => p
  | S fuel' => if buffer_is_word_at p then buffer_extend_right fuel' (p + 1) else p
  end.

Fixpoint buffer_extend_left (fuel : nat) (p : Z) : Z :=
  match fuel with
  | O => p
  | S fuel' => if buffer_is_word_at (p - 1) then buffer_extend_left fuel' (p - 1) else p
  end.

Definition buffer_contents_range (start end_ : Z) : gstring :=
  take (Z.to_nat (end_ - start)) (drop (Z.to_nat start) buf).

Definition buffer_matches_at (pattern : gstring) (p : Z) : bool :=
  negb (buffer_is_word_at (p - 1)) &&
  bool_decide (g_utf8_casefold ascii_casefold_char
                 (buffer_contents_range p (p + Z.of_nat (length pattern)))
               = g_utf8_casefold ascii_casefold_char pattern).

Definition buffer_find_text (flags : Z) (ttf : Sci_TextToFind) : Z :=
  let last_start := cpMax ttf - Z.of_nat (length (lpstrText ttf)) in
  match list_find (λ p, buffer_matches_at (lpstrText ttf) p = true)
                  (seqZ (cpMin ttf) (last_start - cpMin ttf + 1)) with
  | Some (_, p) => p
  | None => -1
  end.

Definition buffer_sci : ScintillaObject :=
  mkScintilla (Z.of_nat (length buf)) sel
    (λ p _, buffer_extend_left (length buf) p)
    (λ p _, buffer_extend_right (length buf) p)
    buffer_contents_range
    buffer_find_text.
End buffer.

(** The edits of an [Effect] list applied to a buffer and its cursor. *)
Fixpoint buffer_apply (effects : list Effect) (target : Z * Z)
    (doc : gstring * Z) : gstring * Z :=
  match effects with
  | [] => doc
  | SetTargetStart p :: rest => buffer_apply rest (p, target.2) doc
  | SetTargetEnd p :: rest => buffer_apply rest (target.1, p) doc
  | ReplaceTarget completion :: rest =>
      buffer_apply rest target
        (take (Z.to_nat target.1) doc.1 ++ completion
           ++ drop (Z.to_nat target.2) doc.1, doc.2)
  | SetCurrentPosition p :: rest => buffer_apply rest target (doc.1, p)
  | _ :: rest => buffer_apply rest target doc
  end.

(** One key press on a buffer: the handler runs and its edits are applied. *)
Definition press (plugin_config : PluginConfig) (direction : CycleDirection)
    (st : Session * (gstring * Z)) : option (Session * (gstring * Z)) :=
  let '(s, (buf, sel)) := st in
  r ← insert_completion ascii_casefold_char plugin_config
         (Some (buffer_sci buf sel)) direction s;
  Some (r.1, buffer_apply r.2 (0, 0) (buf, sel)).

(** [n] key presses in a row. *)
Fixpoint presses (plugin_config : PluginConfig) (direction : CycleDirection)
    (n : nat) (st : Session * (gstring * Z)) : option (Session * (gstring * Z)) :=
  match n with
  | O => Some st
  | S n' => st' ← press plugin_config direction st; presses plugin_config direction n' st'
  end.

(** ** Settings: [plugin_init] and [configure_response_cb]

    A [GKeyFile] is the finite map from group and key to the value as it is
    written in the file.  [g_key_file_set_integer] writes the decimal numeral
    of a [gint] and [g_key_file_set_boolean] writes "true" or "false"; the
    getters fail ([None], a [GError]) on a missing key and on a value that is
    not a decimal numeral in the [gint] range, respectively not one of "true",
    "1", "false", "0".  (Other spellings [strtol] reads, such as a leading
    "+", are taken as failures.) *)

Abbreviation GKeyFile := (gmap (string * string) string).

Definition g_key_file_set_integer (key_file : GKeyFile) (group key : string)
    (value : Z) : GKeyFile :=
  <[(group, key) := DecimalString.NilZero.string_of_int (Z.to_int value)]> key_file.

Definition g_key_file_set_boolean (key_file : GKeyFile) (group key : string)
    (value : bool) : GKeyFile :=
  <[(group, key) := if value then "true" else "false"]> key_file.

Definition g_key_file_get_integer (key_file : GKeyFile) (group key : string)
    : option Z :=
  value ← key_file !! (group, key);
  numeral ← DecimalString.NilZero.int_of_string value;
  if (-2147483648 <=? Z.of_int numeral) && (Z.of_int numeral <=? G_MAXINT)
  then Some (Z.of_int numeral) else None.

Definition g_key_file_get_boolean (key_file : GKeyFile) (group key : string)
    : option bool :=
  value ← key_file !! (group, key);
  if String.eqb value "true" || String.eqb value "1" then Some true
  else if String.eqb value "false" || String.eqb value "0" then Some false
  else None.

(** Geany's [utils_get_setting_integer] and [utils_get_setting_boolean]: the
    default on any error. *)
Definition utils_get_setting_integer (config : GKeyFile) (section key : string)
    (default_value : Z) : Z :=
  default default_value (g_key_file_get_integer config section key).

Definition utils_get_setting_boolean (config : GKeyFile) (section key : string)
    (default_value : bool) : bool :=
  default default_value (g_key_file_get_boolean config section key).

(** The configuration [plugin_init] reads from the key file loaded from the
    configuration file (empty when there is none). *)
Definition plugin_init (config_file : GKeyFile) : PluginConfig :=
  {| sort_order :=
       utils_get_setting_integer config_file
         "cycle_autocomplete" "sort_order" SORT_BY_DISTANCE;
     candidates_limit :=
       utils_get_setting_integer config_file
         "cycle_autocomplete" "candidates_limit" 12;
     distance_limit :=
       utils_get_setting_integer config_file
         "cycle_autocomplete" "distance_limit" 0;
     skip_fuzzy_if_exact :=
       utils_get_setting_boolean config_file
         "cycle_autocomplete" "skip_fuzzy_if_exact" false;
     remove_trailing_word_part :=
       utils_get_setting_boolean config_file
         "cycle_autocomplete" "remove_trailing_word_part" false |}.

Definition GTK_RESPONSE_OK : Z := -5.
Definition GTK_RESPONSE_APPLY : Z := -10.

(** The state of the widgets of the dialog when it is answered. *)
Record ConfigureDialog := mkConfigureDialog {
  combo_sort_order : Z;
  spin_candidates_limit : Z;
  spin_distance_limit : Z;
  check_skip_fuzzy_if_exact : bool;
  check_remove_trailing_word_part : bool
}.

(** [configure_response_cb]: [config_file] is the key file loaded from the
    configuration file, [config_dir_ready] tells whether its directory exists
    or could be made.  The result is the configuration in force afterwards and
    the key file written, if one is. *)
Definition configure_response_cb (dialog : ConfigureDialog) (response : Z)
    (plugin_config : PluginConfig) (config_file : GKeyFile)
    (config_dir_ready : bool) : PluginConfig * option GKeyFile :=
  if (response =? GTK_RESPONSE_OK) || (response =? GTK_RESPONSE_APPLY) then
    let plugin_config :=
      {| sort_order := combo_sort_order dialog;
         candidates_limit := spin_candidates_limit dialog;
         distance_limit := gint_mul 1024 (spin_distance_limit dialog);
         skip_fuzzy_if_exact := check_skip_fuzzy_if_exact dialog;
         remove_trailing_word_part := check_remove_trailing_word_part dialog |} in
    let config_file :=
      g_key_file_set_integer config_file "cycle_autocomplete" "sort_order"
        (sort_order plugin_config) in
    let config_file :=
      g_key_file_set_integer config_file "cycle_autocomplete" "candidates_limit"
        (candidates_limit plugin_config) in
    let config_file :=
      g_key_file_set_integer config_file "cycle_autocomplete" "distance_limit"
        (distance_limit plugin_config) in
    let config_file :=
      g_key_file_set_boolean config_file "cycle_autocomplete" "skip_fuzzy_if_exact"
        (skip_fuzzy_if_exact plugin_config) in
    let config_file :=
      g_key_file_set_boolean config_file "cycle_autocomplete"
        "remove_trailing_word_part" (remove_trailing_word_part plugin_config) in
    (plugin_config, if config_dir_ready then Some config_file else None)
  else (plugin_config, None).

(** The settings key names. *)
Definition settings_keys : list (string * string) :=
  [ ("cycle_autocomplete", "sort_order");
    ("cycle_autocomplete", "candidates_limit");
    ("cycle_autocomplete", "distance_limit");
    ("cycle_autocomplete", "skip_fuzzy_if_exact");
    ("cycle_autocomplete", "remove_trailing_word_part") ]%string.

(** ** Vocabulary of the statements *)

(** The distance of an occurrence from the cursor. *)
Definition occurrence_distance (pos : Z) (o : Occurrence) : Z :=
  Z.abs (occ_start o - pos).

(** The candidates are the texts of the log, each once and none of them the
    word being typed, and each has the match type of the pass that logged its
    text first. *)
Record collected_unique (word : gstring) (cands : list Candidate)
    (log : list Occurrence) : Prop := {
  unique_texts : NoDup (text <$> cands);
  unique_not_word : word ∉ text <$> cands;
  unique_logged : ∀ t, t ∈ text <$> cands ↔ t ∈ occ_text <$> log;
  unique_first_pass : ∀ c, c ∈ cands →
    ∃ o, head (filter (λ o, occ_text o = text c) log) = Some o ∧
         match_type c = occ_pass o
}.

(** The distance of a candidate is the least distance of the logged
    occurrences of its text. *)
Record collected_nearest (pos : Z) (cands : list Candidate)
    (log : list Occurrence) : Prop := {
  nearest_attained : ∀ c, c ∈ cands →
    ∃ o, o ∈ log ∧ occ_text o = text c ∧ dist c = occurrence_distance pos o;
  nearest_least : ∀ c o, c ∈ cands → o ∈ log → occ_text o = text c →
    dist c ≤ occurrence_distance pos o
}.

(** Every logged occurrence starts inside the search range. *)
Definition in_window (window : Z * Z) (log : list Occurrence) : Prop :=
  Forall (λ o, window.1 ≤ occ_start o < window.2) log.

(** The occurrences of the exact pass come before those of the fuzzy pass. *)
Definition exact_first (log : list Occurrence) : Prop :=
  ∃ exact fuzzy, log = exact ++ fuzzy ∧
    Forall (λ o, occ_pass o = MATCH_EXACT) exact ∧
    Forall (λ o, occ_pass o = MATCH_FUZZY_FORWARD) fuzzy.

(** [new] holds the candidates of [old], in their order, with the same text
    and match type and no greater distance. *)
Definition refreshed (old new : list Candidate) : Prop :=
  Forall2 (λ c c', text c' = text c ∧ match_type c' = match_type c ∧
                   dist c' ≤ dist c) old new.

(** A comparison function that orders candidates by a key: 0 exactly on equal
    keys, the sign swapped with the arguments, "not greater" transitive. *)
Definition consistent_comparison (compare_func : Candidate → Candidate → Z)
    (same_key : Candidate → Candidate → Prop) : Prop :=
  (∀ c0 c1, compare_func c0 c1 = 0 ↔ same_key c0 c1) ∧
  (∀ c0 c1, compare_func c0 c1 < 0 ↔ 0 < compare_func c1 c0) ∧
  (∀ c0 c1 c2, compare_func c0 c1 ≤ 0 → compare_func c1 c2 ≤ 0 →
               compare_func c0 c2 ≤ 0).

(** A candidate a pass of [find_words] may add: it has the match type of the
    pass, it was selected and it is not the word being typed. *)
Definition pass_candidate (prefix word : gstring)
    (select_func : option (gstring → gstring → bool)) (c : Candidate) : Prop :=
  match_type c = find_words_match_type select_func ∧
  find_words_selected prefix select_func (text c) = true ∧
  text c ≠ word.

(** The order of a built list: exact matches before fuzzy ones, and within a
    match type the order of the configured comparison function. *)
Definition ranked_before (plugin_config : PluginConfig) (c0 c1 : Candidate) : Prop :=
  match_type_value (match_type c0) < match_type_value (match_type c1) ∨
  (match_type c0 = match_type c1 ∧ candidate_sort_func plugin_config c0 c1 ≤ 0).

(** What [insert_completion] keeps true of the session between key presses:
    without a previous completion the list is empty; a previous completion is
    the text of an entry of the list, which is then made of a non-empty body of
    distinct texts and one more entry. *)
Definition session_ok (s : Session) : Prop :=
  match prev_completion s with
  | None => candidates s = []
  | Some t =>
      t ∈ text <$> candidates s ∧
      ∃ body last_entry, candidates s = body ++ [last_entry] ∧ body ≠ [] ∧
                         NoDup (text <$> body)
  end.

(** *** The occurrences a pass meets in the document

    The statements about what the passes observe are made against the
    document itself: the positions below are computed from the widget alone,
    by the searches of the [while] loop of [find_words], with neither the
    candidate list nor the limit taking part. *)

(** The positions the loop is entered with when nothing stops it early: the
    result of the first search and of every search that follows, each started
    behind the word found before, for as long as the result lies in the
    range. *)
Fixpoint find_words_hits (sci : ScintillaObject) (pattern : gstring)
    (source_start source_end : Z) (fuel : nat) (match_start : Z) : list Z :=
  if (source_start <=? match_start) && (match_start <? source_end) then
    match fuel with
    | O => []
    | S fuel' =>
        match_start ::
        find_words_hits sci pattern source_start source_end fuel'
          (sci_find_text sci SCFIND_WORDSTART
             (mkTextToFind
                (sci_word_end_position sci (gint_add match_start 1) true)
                source_end pattern))
    end
  else [].

(** The hits of one pass over the search range of the configuration. *)
Definition pass_hits (sci : ScintillaObject) (plugin_config : PluginConfig)
    (prefix : gstring) (pos : Z)
    (select_func : option (gstring → gstring → bool)) : list Z :=
  let '(source_start, source_end) := find_words_window sci plugin_config pos in
  find_words_hits sci (find_words_pattern prefix select_func)
    source_start source_end (Z.to_nat (source_end - source_start))
    (sci_find_text sci SCFIND_WORDSTART
       (mkTextToFind source_start source_end
          (find_words_pattern prefix select_func))).

(** The word that starts at a hit, as an occurrence seen by a pass. *)
Definition occurrence_at (sci : ScintillaObject) (pass : MatchType)
    (match_start : Z) : Occurrence :=
  mkOccurrence
    (sci_get_contents_range sci match_start
       (sci_word_end_position sci (gint_add match_start 1) true))
    match_start pass.

(** The occurrences at the given hits that a pass hands to the collector:
    those it selects and that are not the word being typed. *)
Definition observed (sci : ScintillaObject) (prefix word : gstring)
    (select_func : option (gstring → gstring → bool)) (hits : list Z)
    : list Occurrence :=
  filter (λ o, find_words_selected prefix select_func (occ_text o) = true ∧
               occ_text o ≠ word)
    (occurrence_at sci (find_words_match_type select_func) <$> hits).

(** A pass that added [found] candidates observed [seen]: the occurrences of
    the search range from its first one on, and all of them unless the limit
    stopped the pass. *)
Definition pass_observed (sci : ScintillaObject) (plugin_config : PluginConfig)
    (prefix word : gstring) (pos : Z)
    (select_func : option (gstring → gstring → bool))
    (found : Z) (seen : list Occurrence) : Prop :=
  ∃ rest,
    observed sci prefix word select_func
      (pass_hits sci plugin_config prefix pos select_func) = seen ++ rest ∧
    (rest ≠ [] → found = candidates_limit plugin_config).

(** The number of candidates of one match type. *)
Definition kind_count (kind : MatchType) (cands : list Candidate) : Z :=
  Z.of_nat (length (filter (λ c, match_type c = kind) cands)).

(** What the two passes of [find_candidates] observed when they leave the
    list [cands]: the exact pass its occurrences, and the fuzzy pass, which
    runs when the exact one added nothing or fuzzy matches are not skipped,
    its own behind them. *)
Definition passes_observed (casefold_char : gunichar → gstring)
    (sci : ScintillaObject) (plugin_config : PluginConfig)
    (prefix word : gstring) (pos : Z)
    (cands : list Candidate) (log : list Occurrence) : Prop :=
  ∃ exact fuzzy,
    log = exact ++ fuzzy ∧
    pass_observed sci plugin_config prefix word pos None
      (kind_count MATCH_EXACT cands) exact ∧
    if (kind_count MATCH_EXACT cands =? 0)
       || negb (skip_fuzzy_if_exact plugin_config)
    then pass_observed sci plugin_config prefix word pos
           (Some (match_fuzzy_forward casefold_char))
           (kind_count MATCH_FUZZY_FORWARD cands) fuzzy
    else fuzzy = [].

(** ** Concrete inputs *)

(** The configuration and document of the specification's worked example,
    the cursor behind the last "foo". *)
Definition nearest_config : PluginConfig :=
  mkPluginConfig 12 0 SORT_BY_DISTANCE true false.

Definition nearest_doc : gstring := utf8 "foobar foo food foobaz foo".

Definition nearest_list : list Candidate :=
  [ mkCandidate 10 (utf8 "foobaz") MATCH_EXACT;
    mkCandidate 15 (utf8 "food") MATCH_EXACT;
    mkCandidate 26 (utf8 "foobar") MATCH_EXACT;
    mkCandidate 0 (utf8 "foo") MATCH_EXACT ].

(** A document in which the typed prefix "foo" (the cursor sits inside
    "foox", at 23) is itself a word, sorted alphabetically with the fuzzy
    matches kept: the list built for it holds the text "foo" twice. *)
Definition reached_config : PluginConfig :=
  mkPluginConfig 12 0 SORT_ALPHABETICALLY false false.

Definition reached_doc : gstring := utf8 "foo fooa foob fxoxo foox".

Definition reached_list : list Candidate :=
  [ mkCandidate 23 (utf8 "foo") MATCH_EXACT;
    mkCandidate 19 (utf8 "fooa") MATCH_EXACT;
    mkCandidate 14 (utf8 "foob") MATCH_EXACT;
    mkCandidate 9 (utf8 "fxoxo") MATCH_FUZZY_FORWARD;
    mkCandidate 0 (utf8 "foo") MATCH_EXACT ].

Definition nearest_sci : ScintillaObject := buffer_sci nearest_doc 26.
Definition reached_sci : ScintillaObject := buffer_sci reached_doc 23.

(** What the two passes leave for [reached_doc], before sorting. *)
Definition reached_collected : list Candidate :=
  [ mkCandidate 9 (utf8 "fxoxo") MATCH_FUZZY_FORWARD;
    mkCandidate 14 (utf8 "foob") MATCH_EXACT;
    mkCandidate 19 (utf8 "fooa") MATCH_EXACT;
    mkCandidate 23 (utf8 "foo") MATCH_EXACT ].

(** The worked example with the search limited to one unit around the
    cursor. *)
Definition limited_config : PluginConfig :=
  mkPluginConfig 12 1 SORT_BY_DISTANCE true false.

(** A document in which nothing but the word being typed starts with "f". *)
Definition lonely_sci : ScintillaObject := buffer_sci (utf8 "bar foo") 7.

(** [reached_config] with the trailing word part removed on insertion: the
    list for [reached_doc] then ends with the whole word "foox". *)
Definition stripped_config : PluginConfig :=
  mkPluginConfig 12 0 SORT_ALPHABETICALLY false true.

Definition stripped_list : list Candidate :=
  [ mkCandidate 23 (utf8 "foo") MATCH_EXACT;
    mkCandidate 19 (utf8 "fooa") MATCH_EXACT;
    mkCandidate 14 (utf8 "foob") MATCH_EXACT;
    mkCandidate 9 (utf8 "fxoxo") MATCH_FUZZY_FORWARD;
    mkCandidate 0 (utf8 "foox") MATCH_EXACT ].

(** A document of 1074 characters with "foobar" at its start, "food" at 1066
    and the "foo" being typed at its end. *)
Definition far_doc : gstring :=
  utf8 "foobar" ++ replicate 1060 32%N ++ utf8 "food foo".

Definition far_sci : ScintillaObject := buffer_sci far_doc 1074.

(** A configuration file that asks for a distance limit of 2097152, and the
    configuration [plugin_init] reads from it. *)
Definition overflow_file : GKeyFile :=
  {[ ("cycle_autocomplete", "distance_limit")%string := "2097152"%string ]}.

Definition overflow_config : PluginConfig :=
  mkPluginConfig 12 2097152 SORT_BY_DISTANCE false false.

(** A candidate left by an earlier pass, with a distance that the next pass
    improves. *)
Definition stale_list : list Candidate :=
  [ mkCandidate 100 (utf8 "fooa") MATCH_EXACT ].

(** The preferences dialog set to sort by distance, 20 candidates, a search
    radius of 4 and both options ticked. *)
Definition sample_dialog : ConfigureDialog :=
  mkConfigureDialog SORT_BY_DISTANCE 20 4 true true.

(** A configuration file that holds an entry of its own but none of the
    plugin's settings. *)
Definition foreign_file : GKeyFile :=
  {[ ("cycle_autocomplete", "geometry")%string := "640x480"%string ]}.

(** * Properties *)

(** ** Properties of the fuzzy matcher *)

Lemma g_utf8_strchr_Some p c found :
  g_utf8_strchr p c = Some found →
  ∃ skipped rest, p = skipped ++ c :: rest ∧ found = c :: rest ∧ c ∉ skipped.
Proof.
  induction p as [|x p IH]; simpl; [done|].
  destruct (N.eqb_spec x c) as [->|Hne].
  - intros [= <-]. exists [], p. split_and!; [done..|]. apply not_elem_of_nil.
  - intros (skipped & rest & -> & -> & Hnot)%IH.
    exists (x :: skipped), rest. split_and!; [done..|].
    rewrite not_elem_of_cons. done.
Qed.

Lemma g_utf8_strchr_None p c : g_utf8_strchr p c = None ↔ c ∉ p.
Proof.
  induction p as [|x p IH]; simpl.
  - split; [intros _; apply not_elem_of_nil|done].
  - destruct (N.eqb_spec x c) as [->|Hne].
    + split; [done|]. intros Hnot. destruct Hnot. by left.
    + rewrite IH, not_elem_of_cons. split; [by intros ?; split; [congruence|]|tauto].
Qed.

(** The greedy scan decides the subsequence relation. *)
Lemma match_fuzzy_forward_loop_sublist baseline remaining :
  match_fuzzy_forward_loop baseline remaining = true ↔
  remaining `sublist_of` baseline.
Proof.
  revert baseline. induction remaining as [|c remaining IH]; intros baseline; simpl.
  - split; [intros _; apply sublist_nil_l|done].
  - destruct (g_utf8_strchr baseline c) as [found|] eqn:Hfind.
    + apply g_utf8_strchr_Some in Hfind as (skipped & rest & -> & -> & Hnot).
      simpl. rewrite IH. split.
      * intros Hsub. by apply sublist_inserts_l, sublist_skip.
      * intros (k1 & k2 & Heq & Hsub)%sublist_cons_l.
        assert (∃ extra, rest = extra ++ k2) as [extra ->].
        { clear -Heq Hnot. revert k1 Heq.
          induction skipped as [|y skipped IHs]; intros k1 Heq.
          - destruct k1 as [|z k1]; simplify_eq/=; [by exists []|].
            eexists (_ ++ [_]). by rewrite <-app_assoc.
          - apply not_elem_of_cons in Hnot as [Hne Hnot].
            destruct k1 as [|z k1]; simplify_eq/=. by eapply IHs. }
        by apply sublist_inserts_l.
    + apply g_utf8_strchr_None in Hfind. split; [done|].
      intros (k1 & k2 & -> & _)%sublist_cons_l. destruct Hfind.
      rewrite elem_of_app, elem_of_cons. auto.
Qed.

(** C4. [match_fuzzy_forward pattern match_] holds exactly when the case-folded
    pattern is a (not necessarily contiguous) subsequence of the case-folded
    token; the empty pattern matches every token; and, for a case folding that
    leaves the lower-case ASCII letters alone, "br" matches "bracket" while
    "rb" does not. *)
Theorem match_fuzzy_forward_spec (casefold_char : gunichar → gstring)
    (Hlower : ∀ c, (97 ≤ c ≤ 122)%N → casefold_char c = [c]) :
  (∀ pattern match_,
     match_fuzzy_forward casefold_char pattern match_ = true ↔
     g_utf8_casefold casefold_char pattern
       `sublist_of` g_utf8_casefold casefold_char match_) ∧
  (∀ match_, match_fuzzy_forward casefold_char [] match_ = true) ∧
  match_fuzzy_forward casefold_char (utf8 "br") (utf8 "bracket") = true ∧
  match_fuzzy_forward casefold_char (utf8 "rb") (utf8 "bracket") = false.
Proof.
  assert (Hspec : ∀ pattern match_,
     match_fuzzy_forward casefold_char pattern match_ = true ↔
     g_utf8_casefold casefold_char pattern
       `sublist_of` g_utf8_casefold casefold_char match_).
  { intros. apply match_fuzzy_forward_loop_sublist. }
  split_and!; [done|..].
  - intros match_. apply Hspec. apply sublist_nil_l.
  - unfold match_fuzzy_forward, g_utf8_casefold, utf8. simpl.
    rewrite !Hlower by lia. reflexivity.
  - unfold match_fuzzy_forward, g_utf8_casefold, utf8. simpl.
    rewrite !Hlower by lia. reflexivity.
Qed.

Lemma match_fuzzy_forward_spec_witness :
  (∀ c, (97 ≤ c ≤ 122)%N → ascii_casefold_char c = [c]) ∧
  match_fuzzy_forward ascii_casefold_char (utf8 "Br") (utf8 "bRacket") = true ∧
  match_fuzzy_forward ascii_casefold_char (utf8 "rb") (utf8 "bracket") = false.
Proof.
  assert (Hlower : ∀ c, (97 ≤ c ≤ 122)%N → ascii_casefold_char c = [c]).
  { intros c Hc. unfold ascii_casefold_char.
    destruct (N.leb_spec c 90); [lia|]. by rewrite andb_false_r. }
  split; [exact Hlower|].
  split; [vm_compute; reflexivity|].
  exact (proj2 (proj2 (proj2 (match_fuzzy_forward_spec ascii_casefold_char Hlower)))).
Defined.

(** ** Properties of the cycler *)

Section cycler_facts.
Implicit Types (L before elem : list Candidate) (p : gstring).

Lemma utils_str_equal_true a b : utils_str_equal a b = true ↔ a = b.
Proof. unfold utils_str_equal. apply bool_decide_eq_true. Qed.

Lemma utils_str_equal_false a b : utils_str_equal a b = false ↔ a ≠ b.
Proof. unfold utils_str_equal. apply bool_decide_eq_false. Qed.

Lemma cycle_candidates_loop_not_found L direction p before elem :
  Forall (λ c, text c ≠ p) elem →
  cycle_candidates_loop L direction p before elem = None.
Proof.
  revert before. induction elem as [|c next IH]; intros before Hall; [done|].
  apply Forall_cons in Hall as [Hc Hnext]. simpl.
  apply utils_str_equal_false in Hc as ->. by apply IH.
Qed.

(** The loop stops at the first element whose text is [p] and returns its
    neighbour, wrapping around at either end. *)
Lemma cycle_candidates_loop_found L direction p before elem j c :
  L = reverse before ++ elem →
  list_find (λ c, text c = p) elem = Some (j, c) →
  cycle_candidates_loop L direction p before elem =
    Some (text <$> L !! neighbour_index direction (length L) (length before + j)).
Proof.
  revert before j. induction elem as [|d next IH]; intros before j HL; [done|].
  simpl. destruct (decide (text d = p)) as [Hd|Hd].
  - intros [= <- <-]. apply utils_str_equal_true in Hd as ->.
    f_equal. subst L. rewrite Nat.add_0_r.
    assert (Hlen : length (reverse before ++ d :: next)
                   = (length before + S (length next))%nat).
    { by rewrite length_app, length_reverse. }
    clear IH. destruct direction; unfold neighbour_index; rewrite Hlen.
    + destruct next as [|c' next].
      * cbn [length]. by rewrite Nat.Div0.mod_same, head_lookup.
      * cbn [length]. rewrite Nat.mod_small by lia.
        rewrite lookup_app_r by (rewrite length_reverse; lia).
        rewrite length_reverse.
        by replace (length before + 1 - length before)%nat with 1%nat by lia.
    + destruct before as [|c' before].
      * rewrite reverse_nil, app_nil_l, last_lookup. do 2 f_equal.
        cbn [length]. rewrite Nat.mod_small; lia.
      * cbn [length].
        match goal with |- context [(?a `mod` ?b)%nat] =>
          replace a with (length before + 1 * b)%nat by lia
        end.
        rewrite Nat.Div0.mod_add, Nat.mod_small by lia.
        rewrite reverse_cons, <-app_assoc.
        rewrite lookup_app_r by (rewrite length_reverse; lia).
        by rewrite length_reverse, Nat.sub_diag.
  - apply utils_str_equal_false in Hd as Hd'. rewrite Hd'.
    destruct (list_find _ next) as [[j' c']|] eqn:Hfind; [|done].
    simpl. intros [= <- <-].
    rewrite (IH (d :: before) j').
    + simpl. do 4 f_equal. lia.
    + rewrite HL, reverse_cons, <-app_assoc. done.
    + done.
Qed.

Lemma cycle_candidates_found L direction p i c :
  list_find (λ c, text c = p) L = Some (i, c) →
  cycle_candidates L direction (Some p) =
    text <$> L !! neighbour_index direction (length L) i.
Proof.
  intros Hfind. unfold cycle_candidates.
  by rewrite (cycle_candidates_loop_found L direction p [] L i c).
Qed.

Lemma cycle_candidates_stale L direction p :
  p ∉ text <$> L →
  cycle_candidates L direction (Some p) = text <$> head L.
Proof.
  intros Hnot. unfold cycle_candidates.
  rewrite cycle_candidates_loop_not_found; [done|].
  apply Forall_forall. intros c Hc <-. apply Hnot.
  by apply list_elem_of_fmap_2.
Qed.

Lemma neighbour_index_lt direction len i :
  (0 < len)%nat → (neighbour_index direction len i < len)%nat.
Proof. intros. destruct direction; simpl; apply Nat.mod_upper_bound; lia. Qed.

(** With pairwise distinct texts the search finds the element itself. *)
Lemma list_find_text_NoDup L i c :
  NoDup (text <$> L) → L !! i = Some c →
  list_find (λ d, text d = text c) L = Some (i, c).
Proof.
  intros Hnd Hi. apply list_find_Some. split_and!; [done..|].
  intros j d Hj Hlt Heq.
  assert (j = i); [|lia].
  eapply NoDup_lookup; [exact Hnd|..].
  - by rewrite list_lookup_fmap, Hj.
  - by rewrite list_lookup_fmap, Hi, Heq.
Qed.
End cycler_facts.

Lemma cycle_candidates_NoDup (L : list Candidate) direction i c :
  NoDup (text <$> L) → L !! i = Some c →
  cycle_candidates L direction (Some (text c)) =
    text <$> L !! neighbour_index direction (length L) i.
Proof.
  intros Hnd Hi. eapply cycle_candidates_found. by apply list_find_text_NoDup.
Qed.

Lemma neighbour_index_stride direction len i :
  (0 < len)%nat →
  neighbour_index direction len i = ((i + stride direction len) `mod` len)%nat.
Proof. intros. destruct direction; simpl; f_equal; lia. Qed.

Lemma cycle_repeat_NoDup (L : list Candidate) direction k :
  NoDup (text <$> L) → ∀ i c, L !! i = Some c →
  cycle_repeat L direction k (Some (text c)) =
    Some (text <$> L !! ((i + k * stride direction (length L)) `mod` length L)%nat).
Proof.
  intros Hnd. induction k as [|k IH]; intros i c Hi.
  - simpl. apply lookup_lt_Some in Hi as Hlt.
    by rewrite Nat.add_0_r, Nat.mod_small, Hi.
  - assert (Hlen : (0 < length L)%nat) by (apply lookup_lt_Some in Hi; lia).
    cbn [cycle_repeat]. rewrite (cycle_candidates_NoDup L direction i c) by done.
    rewrite neighbour_index_stride by done.
    destruct (lookup_lt_is_Some_2 L ((i + stride direction (length L)) `mod` length L)%nat)
      as [c' Hc']; [by apply Nat.mod_upper_bound; lia|].
    rewrite Hc'. simpl. rewrite (IH _ c' Hc').
    by rewrite Nat.Div0.add_mod_idemp_l, Nat.add_assoc.
Qed.

(** The cycler looks the previous completion up by its text.  On a non-empty
    list: with no previous completion it returns the text of the first
    element; when the first element whose text equals the previous completion
    sits at index [i], it returns the text at index [(i + 1) mod |L|] going
    forward and [(i - 1 + |L|) mod |L|] going backward; and a previous
    completion found nowhere in the list gives the first element again. *)
Theorem cycle_candidates_by_text (L : list Candidate) :
  L ≠ [] →
  ∃ first, head L = Some first ∧
    (∀ direction, cycle_candidates L direction None = Some (text first)) ∧
    (∀ p i c,
       L !! i = Some c → text c = p →
       (∀ j d, L !! j = Some d → (j < i)%nat → text d ≠ p) →
       ∃ after before,
         L !! ((i + 1) `mod` length L)%nat = Some after ∧
         L !! ((i + length L - 1) `mod` length L)%nat = Some before ∧
         cycle_candidates L CYCLE_FORWARD (Some p) = Some (text after) ∧
         cycle_candidates L CYCLE_BACKWARD (Some p) = Some (text before)) ∧
    (∀ direction p, p ∉ text <$> L →
       cycle_candidates L direction (Some p) = Some (text first)).
Proof.
  intros Hne.
  assert (Hlen : (0 < length L)%nat) by (destruct L; [done|simpl; lia]).
  destruct (head L) as [first|] eqn:Hhead; [|by destruct L].
  exists first. split_and!; [done|..].
  - intros direction. unfold cycle_candidates. by rewrite Hhead.
  - intros p i c Hi Hc Hleast.
    assert (Hfind : list_find (λ d, text d = p) L = Some (i, c)).
    { apply list_find_Some. split_and!; [done..|]. intros j d Hj Hlt. by eapply Hleast. }
    destruct (lookup_lt_is_Some_2 L ((i + 1) `mod` length L)%nat)
      as [after Hafter]; [by apply Nat.mod_upper_bound; lia|].
    destruct (lookup_lt_is_Some_2 L ((i + length L - 1) `mod` length L)%nat)
      as [before Hbefore]; [by apply Nat.mod_upper_bound; lia|].
    exists after, before. split_and!; [done..| |].
    + rewrite (cycle_candidates_found L CYCLE_FORWARD p i c Hfind).
      unfold neighbour_index. by rewrite Hafter.
    + rewrite (cycle_candidates_found L CYCLE_BACKWARD p i c Hfind).
      unfold neighbour_index. by rewrite Hbefore.
  - intros direction p Hnot. by rewrite cycle_candidates_stale, Hhead.
Qed.

Lemma cycle_candidates_by_text_witness :
  reached_list ≠ [] ∧
  cycle_candidates reached_list CYCLE_FORWARD None = Some (utf8 "foo") ∧
  cycle_candidates reached_list CYCLE_FORWARD (Some (utf8 "fxoxo")) = Some (utf8 "foo") ∧
  cycle_candidates reached_list CYCLE_BACKWARD (Some (utf8 "fxoxo")) = Some (utf8 "foob") ∧
  cycle_candidates reached_list CYCLE_BACKWARD (Some (utf8 "bar")) = Some (utf8 "foo").
Proof.
  assert (Hne : reached_list ≠ []) by discriminate.
  split; [exact Hne|].
  destruct (cycle_candidates_by_text reached_list Hne)
    as (first & Hhead & Hfresh & Hcycling & Hstale).
  injection Hhead as <-.
  split; [exact (Hfresh CYCLE_FORWARD)|].
  destruct (Hcycling (utf8 "fxoxo") 3%nat
              (mkCandidate 9 (utf8 "fxoxo") MATCH_FUZZY_FORWARD) eq_refl eq_refl)
    as (after & before & Hafter & Hbefore & Hfwd & Hbwd).
  { intros j d Hj Hlt.
    destruct j as [|[|[|j]]]; [injection Hj as <-; discriminate..|lia]. }
  injection Hafter as <-. injection Hbefore as <-.
  split; [exact Hfwd|]. split; [exact Hbwd|].
  apply (Hstale CYCLE_BACKWARD (utf8 "bar")).
  vm_compute. intros Hin.
  repeat (apply elem_of_cons in Hin as [Hin|Hin]; [discriminate|]).
  by apply elem_of_nil in Hin.
Defined.

(** C1. The cycler steps from the element at index [i] only while no earlier
    element has the same text, and [find_candidates] builds lists in which the
    typed text stands twice.  For the document "foo fooa foob fxoxo foox" with
    the cursor behind the "foo" of "foox" the list is [reached_list]: "foo" is
    both the found word at index 0 and the closing entry at index 4
    ([find_words] leaves out the whole word "foox", [find_candidates] appends
    the prefix "foo").  From the closing entry the step forward should give
    the text at index 0 and the step backward the text at index 3, "fxoxo";
    the cycler gives "fooa" and "foo".  With the trailing word part removed
    the closing entry is "foox", no text stands twice, and both steps from it
    are the ones at its index. *)
Theorem cycle_candidates_typed_text_twice :
  find_candidates ascii_casefold_char reached_sci reached_config
    (utf8 "foo") (utf8 "foox") 23 [] = Some reached_list ∧
  text <$> reached_list !! 0%nat = Some (utf8 "foo") ∧
  text <$> reached_list !! 4%nat = Some (utf8 "foo") ∧
  text <$> reached_list !! ((4 + 1) `mod` length reached_list)%nat
    = Some (utf8 "foo") ∧
  text <$> reached_list !! ((4 + length reached_list - 1) `mod` length reached_list)%nat
    = Some (utf8 "fxoxo") ∧
  cycle_candidates reached_list CYCLE_FORWARD (Some (utf8 "foo"))
    = Some (utf8 "fooa") ∧
  cycle_candidates reached_list CYCLE_BACKWARD (Some (utf8 "foo"))
    = Some (utf8 "foo") ∧
  find_candidates ascii_casefold_char reached_sci stripped_config
    (utf8 "foo") (utf8 "foox") 23 [] = Some stripped_list ∧
  text <$> stripped_list !! 4%nat = Some (utf8 "foox") ∧
  cycle_candidates stripped_list CYCLE_FORWARD (Some (utf8 "foox"))
    = text <$> stripped_list !! ((4 + 1) `mod` length stripped_list)%nat ∧
  cycle_candidates stripped_list CYCLE_BACKWARD (Some (utf8 "foox"))
    = text <$> stripped_list !! ((4 + length stripped_list - 1) `mod` length stripped_list)%nat.
Proof. split_and!; vm_compute; reflexivity. Qed.

(** On a list whose texts are pairwise distinct the wrap-around closes the
    cycle.  Starting from any element: [|L|] forward steps lead back to it,
    [|L|] backward steps lead back to it, and a forward step followed by a
    backward step leads back to it. *)
Theorem cycle_repeat_closure (L : list Candidate) (i : nat) (c : Candidate) :
  NoDup (text <$> L) → L !! i = Some c →
  cycle_repeat L CYCLE_FORWARD (length L) (Some (text c)) = Some (Some (text c)) ∧
  cycle_repeat L CYCLE_BACKWARD (length L) (Some (text c)) = Some (Some (text c)) ∧
  (cycle_candidates L CYCLE_FORWARD (Some (text c)) ≫=
     λ completion, cycle_candidates L CYCLE_BACKWARD (Some completion))
    = Some (text c).
Proof.
  intros Hnd Hi. apply lookup_lt_Some in Hi as Hlt.
  split_and!.
  - rewrite (cycle_repeat_NoDup L CYCLE_FORWARD (length L) Hnd i c Hi).
    cbn [stride]. rewrite (Nat.mul_comm (length L)).
    by rewrite Nat.Div0.mod_add, Nat.mod_small, Hi.
  - rewrite (cycle_repeat_NoDup L CYCLE_BACKWARD (length L) Hnd i c Hi).
    cbn [stride]. rewrite (Nat.mul_comm (length L)).
    by rewrite Nat.Div0.mod_add, Nat.mod_small, Hi.
  - rewrite (cycle_candidates_NoDup L CYCLE_FORWARD i c Hnd Hi).
    destruct (lookup_lt_is_Some_2 L (neighbour_index CYCLE_FORWARD (length L) i))
      as [c' Hc']; [apply neighbour_index_lt; lia|].
    rewrite Hc'. cbn [fmap option_fmap option_map mbind option_bind].
    rewrite (cycle_candidates_NoDup L CYCLE_BACKWARD _ c' Hnd Hc').
    unfold neighbour_index.
    replace ((i + 1) `mod` length L + length L - 1)%nat
      with ((i + 1) `mod` length L + (length L - 1))%nat by lia.
    rewrite Nat.Div0.add_mod_idemp_l.
    replace (i + 1 + (length L - 1))%nat with (i + 1 * length L)%nat by lia.
    by rewrite Nat.Div0.mod_add, Nat.mod_small, Hi.
Qed.

Lemma cycle_repeat_closure_witness :
  NoDup (text <$> nearest_list) ∧
  nearest_list !! 1%nat = Some (mkCandidate 15 (utf8 "food") MATCH_EXACT) ∧
  cycle_repeat nearest_list CYCLE_FORWARD (length nearest_list) (Some (utf8 "food"))
    = Some (Some (utf8 "food")) ∧
  cycle_repeat nearest_list CYCLE_BACKWARD (length nearest_list) (Some (utf8 "food"))
    = Some (Some (utf8 "food")) ∧
  (cycle_candidates nearest_list CYCLE_FORWARD (Some (utf8 "food")) ≫=
     λ completion, cycle_candidates nearest_list CYCLE_BACKWARD (Some completion))
    = Some (utf8 "food").
Proof.
  assert (Hnd : NoDup (text <$> nearest_list))
    by (refine (bool_decide_unpack _ _); vm_compute; exact I).
  assert (Hi : nearest_list !! 1%nat = Some (mkCandidate 15 (utf8 "food") MATCH_EXACT))
    by reflexivity.
  split; [exact Hnd|]. split; [exact Hi|].
  exact (cycle_repeat_closure nearest_list 1
           (mkCandidate 15 (utf8 "food") MATCH_EXACT) Hnd Hi).
Defined.

(** A key press that changes neither the session nor the document is
    repeated by every further press. *)
Lemma presses_fixed (plugin_config : PluginConfig) (direction : CycleDirection)
    (st : Session * (gstring * Z)) (n : nat) :
  press plugin_config direction st = Some st →
  presses plugin_config direction n st = Some st.
Proof.
  intros Hpress. induction n as [|n IH]; [done|].
  cbn [presses]. rewrite Hpress. exact IH.
Qed.

(** C2. On the list built for "foo fooa foob fxoxo foox" (cursor behind the
    "foo" of "foox"), in which the typed text "foo" stands at index 0 and at
    index 4, the cycle does not close: [|L|] forward steps from "fooa" end on
    "foob"; backward steps from "fooa" reach "foo" and stay there, and so do
    the key presses, which insert "foo" at every press from the first on; a
    forward step from "fxoxo" followed by a backward step ends on "foo".  With
    the trailing word part removed the list for the same document holds no
    text twice and the cycle closes from each of its elements. *)
Theorem cycle_repeat_typed_text_twice :
  find_candidates ascii_casefold_char reached_sci reached_config
    (utf8 "foo") (utf8 "foox") 23 [] = Some reached_list ∧
  cycle_repeat reached_list CYCLE_FORWARD (length reached_list) (Some (utf8 "fooa"))
    = Some (Some (utf8 "foob")) ∧
  (∀ n, cycle_repeat reached_list CYCLE_BACKWARD (S n) (Some (utf8 "fooa"))
        = Some (Some (utf8 "foo"))) ∧
  (∀ n, presses reached_config CYCLE_BACKWARD (S n) (mkSession None [], (reached_doc, 23))
        = Some (mkSession (Some (utf8 "foo")) reached_list, (reached_doc, 23))) ∧
  (cycle_candidates reached_list CYCLE_FORWARD (Some (utf8 "fxoxo")) ≫=
     λ completion, cycle_candidates reached_list CYCLE_BACKWARD (Some completion))
    = Some (utf8 "foo") ∧
  find_candidates ascii_casefold_char reached_sci stripped_config
    (utf8 "foo") (utf8 "foox") 23 [] = Some stripped_list ∧
  ∀ i c, stripped_list !! i = Some c →
    cycle_repeat stripped_list CYCLE_FORWARD (length stripped_list) (Some (text c))
      = Some (Some (text c)) ∧
    cycle_repeat stripped_list CYCLE_BACKWARD (length stripped_list) (Some (text c))
      = Some (Some (text c)) ∧
    (cycle_candidates stripped_list CYCLE_FORWARD (Some (text c)) ≫=
       λ completion, cycle_candidates stripped_list CYCLE_BACKWARD (Some completion))
      = Some (text c).
Proof.
  assert (Hstay : ∀ n, cycle_repeat reached_list CYCLE_BACKWARD n (Some (utf8 "foo"))
                       = Some (Some (utf8 "foo"))).
  { induction n as [|n IH]; [done|]. cbn [cycle_repeat].
    replace (cycle_candidates reached_list CYCLE_BACKWARD (Some (utf8 "foo")))
      with (Some (utf8 "foo")) by (vm_compute; reflexivity).
    exact IH. }
  split_and!.
  - vm_compute. reflexivity.
  - vm_compute. reflexivity.
  - intros n. cbn [cycle_repeat].
    replace (cycle_candidates reached_list CYCLE_BACKWARD (Some (utf8 "fooa")))
      with (Some (utf8 "foo")) by (vm_compute; reflexivity).
    apply Hstay.
  - intros n. cbn [presses].
    replace (press reached_config CYCLE_BACKWARD (mkSession None [], (reached_doc, 23)))
      with (Some (mkSession (Some (utf8 "foo")) reached_list, (reached_doc, 23)))
      by (vm_compute; reflexivity).
    apply presses_fixed. vm_compute. reflexivity.
  - vm_compute. reflexivity.
  - vm_compute. reflexivity.
  - intros i c Hi. apply (cycle_repeat_closure stripped_list i c); [|exact Hi].
    refine (bool_decide_unpack _ _). vm_compute. exact I.
Qed.

(** ** Filtering *)

Lemma filter_none {A} (P : A → Prop) `{!∀ x, Decision (P x)} (l : list A) :
  Forall (λ x, ¬ P x) l → filter P l = [].
Proof.
  induction 1 as [|x l Hx _ IH]; [done|]. by rewrite filter_cons_False.
Qed.

Lemma filter_all {A} (P : A → Prop) `{!∀ x, Decision (P x)} (l : list A) :
  Forall P l → filter P l = l.
Proof.
  induction 1 as [|x l Hx _ IH]; [done|]. by rewrite filter_cons_True, IH.
Qed.

Lemma StronglySorted_mono {A} (R1 R2 : relation A) (l : list A) :
  (∀ x y, R1 x y → R2 x y) → StronglySorted R1 l → StronglySorted R2 l.
Proof.
  intros Himpl. induction 1 as [|x l Hl IH Hx]; constructor; [done|].
  eapply Forall_impl; [exact Hx|]. auto.
Qed.

(** ** Properties of [g_list_sort] *)

Section sort_facts.
Context {A : Type} (compare_func : A → A → Z).

Hypothesis compare_total : ∀ x y, 0 < compare_func x y → compare_func y x ≤ 0.
Hypothesis compare_trans : ∀ x y z,
  compare_func x y ≤ 0 → compare_func y z ≤ 0 → compare_func x z ≤ 0.

Lemma g_list_sort_merge_perm (l1 l2 : list A) :
  g_list_sort_merge compare_func l1 l2 ≡ₚ l1 ++ l2.
Proof.
  revert l2. induction l1 as [|x1 l1 IH1]; intros l2; [by destruct l2|].
  induction l2 as [|x2 l2 IH2]; [by rewrite app_nil_r|].
  simpl. destruct (compare_func x1 x2 <=? 0).
  - by rewrite IH1.
  - simpl in IH2. rewrite IH2. simpl. rewrite <-Permutation_middle. apply perm_swap.
Qed.

Lemma g_list_sort_merge_sorted (l1 l2 : list A) :
  StronglySorted (sorts_before compare_func) l1 → StronglySorted (sorts_before compare_func) l2 →
  StronglySorted (sorts_before compare_func) (g_list_sort_merge compare_func l1 l2).
Proof.
  revert l2. induction l1 as [|x1 l1 IH1]; intros l2 H1 H2; [by destruct l2|].
  induction l2 as [|x2 l2 IH2]; [done|].
  apply StronglySorted_cons in H1 as H1'. destruct H1' as [Hx1 Hl1].
  apply StronglySorted_cons in H2 as H2'. destruct H2' as [Hx2 Hl2].
  simpl. destruct (Z.leb_spec (compare_func x1 x2) 0) as [Hle|Hgt].
  - apply SSorted_cons; [by apply IH1|].
    rewrite g_list_sort_merge_perm. apply Forall_app. split; [done|].
    apply Forall_cons. split; [done|].
    eapply Forall_impl; [exact Hx2|]. intros y Hy. by eapply compare_trans.
  - apply SSorted_cons; [by apply IH2|].
    change (Forall (sorts_before compare_func x2) (g_list_sort_merge compare_func (x1 :: l1) l2)).
    rewrite g_list_sort_merge_perm. apply Forall_app. split; [|done].
    pose proof (compare_total _ _ Hgt) as Hx21.
    apply Forall_cons. split; [done|].
    eapply Forall_impl; [exact Hx1|]. intros y Hy. by eapply compare_trans.
Qed.

(** Merging keeps, among elements that do not sort apart, those of the first
    list in front of those of the second. *)
Lemma g_list_sort_merge_stable (P : A → Prop) `{!∀ x, Decision (P x)} (l1 l2 : list A) :
  (∀ x y, P x → P y → compare_func x y ≤ 0) →
  StronglySorted (sorts_before compare_func) l1 →
  filter P (g_list_sort_merge compare_func l1 l2) = filter P l1 ++ filter P l2.
Proof.
  intros HP. revert l2. induction l1 as [|x1 l1 IH1]; intros l2 H1; [by destruct l2|].
  induction l2 as [|x2 l2 IH2]; [by rewrite filter_nil, app_nil_r|].
  apply StronglySorted_cons in H1 as H1'. destruct H1' as [Hx1 Hl1].
  simpl. destruct (Z.leb_spec (compare_func x1 x2) 0) as [Hle|Hgt].
  - rewrite !filter_cons. rewrite IH1 by done. rewrite filter_cons.
    by destruct (decide (P x1)).
  - change (filter P (x2 :: g_list_sort_merge compare_func (x1 :: l1) l2)
            = filter P (x1 :: l1) ++ filter P (x2 :: l2)).
    rewrite (filter_cons _ x2), IH2, (filter_cons _ x2).
    destruct (decide (P x2)) as [Hx2|Hx2]; [|done].
    assert (Hnone : filter P (x1 :: l1) = []); [|by rewrite Hnone].
    apply filter_none. apply Forall_forall. intros y Hy HPy.
    assert (compare_func x1 y ≤ 0) as Hx1y.
    { apply elem_of_cons in Hy as [->|Hy].
      - by apply HP.
      - by eapply Forall_forall in Hx1. }
    pose proof (compare_trans _ _ _ Hx1y (HP _ _ HPy Hx2)). lia.
Qed.

Lemma g_list_sort_real_spec (fuel : nat) (l : list A) :
  (length l ≤ fuel)%nat →
  g_list_sort_real compare_func fuel l ≡ₚ l ∧
  StronglySorted (sorts_before compare_func) (g_list_sort_real compare_func fuel l) ∧
  ∀ (P : A → Prop) `{!∀ x, Decision (P x)},
    (∀ x y, P x → P y → compare_func x y ≤ 0) →
    filter P (g_list_sort_real compare_func fuel l) = filter P l.
Proof.
  revert l. induction fuel as [|fuel IH]; intros l Hlen.
  - destruct l; [|simpl in Hlen; lia]. simpl. split_and!; [done|constructor|done].
  - destruct l as [|x [|y l]].
    + simpl. split_and!; [done|constructor|done].
    + simpl. split_and!; [done|repeat constructor|done].
    + set (whole := x :: y :: l) in *.
      set (half := (length whole `div` 2)%nat).
      assert (Hhalf : (0 < half < length whole)%nat).
      { subst half whole. simpl length.
        pose proof (Nat.Div0.div_lt_upper_bound (S (S (length l))) 2 (S (S (length l)))).
        pose proof (Nat.div_le_lower_bound (S (S (length l))) 2 1). lia. }
      change (g_list_sort_real compare_func (S fuel) whole)
        with (g_list_sort_merge compare_func
                (g_list_sort_real compare_func fuel (take half whole))
                (g_list_sort_real compare_func fuel (drop half whole))).
      destruct (IH (take half whole)) as (Hp1 & Hs1 & Hst1).
      { rewrite length_take. lia. }
      destruct (IH (drop half whole)) as (Hp2 & Hs2 & Hst2).
      { rewrite length_drop. lia. }
      split_and!.
      * by rewrite g_list_sort_merge_perm, Hp1, Hp2, take_drop.
      * by apply g_list_sort_merge_sorted.
      * intros P HdecP HP.
        rewrite g_list_sort_merge_stable by done.
        rewrite Hst1, Hst2 by done.
        by rewrite <-filter_app, take_drop.
Qed.

Lemma g_list_sort_spec (l : list A) :
  g_list_sort compare_func l ≡ₚ l ∧
  StronglySorted (sorts_before compare_func) (g_list_sort compare_func l) ∧
  ∀ (P : A → Prop) `{!∀ x, Decision (P x)},
    (∀ x y, P x → P y → compare_func x y ≤ 0) →
    filter P (g_list_sort compare_func l) = filter P l.
Proof. by apply g_list_sort_real_spec. Qed.
End sort_facts.

(** ** Properties of the comparison functions *)

Lemma g_strcmp0_eq (a b : gstring) : g_strcmp0 a b = 0 ↔ a = b.
Proof.
  revert b. induction a as [|x a IH]; intros [|y b]; simpl; try done.
  destruct (N.compare_spec x y) as [->|Hlt|Hgt].
  - rewrite IH. split; [by intros ->|by intros [= ->]].
  - split; [done|]. intros [= -> _]. lia.
  - split; [done|]. intros [= -> _]. lia.
Qed.

Lemma g_strcmp0_refl (a : gstring) : g_strcmp0 a a = 0.
Proof. by apply g_strcmp0_eq. Qed.

Lemma g_strcmp0_total (a b : gstring) : 0 < g_strcmp0 a b → g_strcmp0 b a ≤ 0.
Proof.
  revert b. induction a as [|x a IH]; intros [|y b]; simpl; try lia.
  rewrite (N.compare_antisym x y).
  destruct (N.compare_spec x y); simpl; try lia. apply IH.
Qed.

Lemma g_strcmp0_trans (a b c : gstring) :
  g_strcmp0 a b ≤ 0 → g_strcmp0 b c ≤ 0 → g_strcmp0 a c ≤ 0.
Proof.
  revert b c. induction a as [|x a IH]; intros [|y b] [|z c]; simpl; try lia.
  destruct (N.compare_spec x y) as [->|Hxy|Hxy]; try lia.
  - destruct (N.compare_spec y z); try lia. apply IH.
  - destruct (N.compare_spec y z) as [->|Hyz|Hyz]; try lia.
    + intros _ _. destruct (N.compare_spec x z); lia.
    + intros _ _. destruct (N.compare_spec x z); lia.
Qed.

Lemma compare_candidates_dist_le (c0 c1 : Candidate) :
  compare_candidates_dist c0 c1 ≤ 0 ↔ dist c0 ≤ dist c1.
Proof.
  unfold compare_candidates_dist.
  destruct (Z.gtb_spec (dist c0) (dist c1)), (Z.ltb_spec (dist c0) (dist c1));
    simpl; lia.
Qed.

Lemma compare_candidates_match_type_le (c0 c1 : Candidate) :
  compare_candidates_match_type c0 c1 ≤ 0 ↔
  match_type_value (match_type c0) ≤ match_type_value (match_type c1).
Proof.
  unfold compare_candidates_match_type.
  destruct (Z.gtb_spec (match_type_value (match_type c0))
                       (match_type_value (match_type c1))),
           (Z.ltb_spec (match_type_value (match_type c0))
                       (match_type_value (match_type c1)));
    simpl; lia.
Qed.

(** A list in the order of [compare_candidates_match_type] is its exact
    matches followed by its fuzzy matches. *)
Lemma sorted_by_match_type (l : list Candidate) :
  StronglySorted (sorts_before compare_candidates_match_type) l →
  l = filter (λ c, match_type c = MATCH_EXACT) l
      ++ filter (λ c, match_type c = MATCH_FUZZY_FORWARD) l.
Proof.
  induction 1 as [|c l Hl IH Hc]; [done|].
  destruct (match_type c) eqn:Hmt.
  - rewrite filter_cons_True, (filter_cons_False _ c) by congruence.
    simpl. by rewrite <-IH.
  - assert (Hall : Forall (λ d, match_type d = MATCH_FUZZY_FORWARD) l).
    { eapply Forall_impl; [exact Hc|]. intros d Hd.
      apply compare_candidates_match_type_le in Hd. rewrite Hmt in Hd.
      by destruct (match_type d). }
    rewrite (filter_cons_False _ c), filter_cons_True by congruence.
    rewrite filter_none, filter_all; [done..|].
    eapply Forall_impl; [exact Hall|]. intros d ->. done.
Qed.

(** What [g_list_sort] gives for each of the three comparison functions: a
    permutation, in order, that keeps apart no two elements it may not. *)
Lemma sort_alpha_spec (l : list Candidate) :
  g_list_sort compare_candidates_alpha l ≡ₚ l ∧
  StronglySorted (sorts_before compare_candidates_alpha)
    (g_list_sort compare_candidates_alpha l) ∧
  ∀ (P : Candidate → Prop) `{!∀ x, Decision (P x)},
    (∀ x y, P x → P y → compare_candidates_alpha x y ≤ 0) →
    filter P (g_list_sort compare_candidates_alpha l) = filter P l.
Proof.
  apply g_list_sort_spec.
  - intros x y. apply g_strcmp0_total.
  - intros x y z. apply g_strcmp0_trans.
Qed.

Lemma sort_dist_spec (l : list Candidate) :
  g_list_sort compare_candidates_dist l ≡ₚ l ∧
  StronglySorted (sorts_before compare_candidates_dist)
    (g_list_sort compare_candidates_dist l) ∧
  ∀ (P : Candidate → Prop) `{!∀ x, Decision (P x)},
    (∀ x y, P x → P y → compare_candidates_dist x y ≤ 0) →
    filter P (g_list_sort compare_candidates_dist l) = filter P l.
Proof.
  apply g_list_sort_spec.
  - intros x y. rewrite compare_candidates_dist_le.
    pose proof (compare_candidates_dist_le x y). lia.
  - intros x y z. rewrite !compare_candidates_dist_le. lia.
Qed.

Lemma sort_match_type_spec (l : list Candidate) :
  g_list_sort compare_candidates_match_type l ≡ₚ l ∧
  StronglySorted (sorts_before compare_candidates_match_type)
    (g_list_sort compare_candidates_match_type l) ∧
  ∀ (P : Candidate → Prop) `{!∀ x, Decision (P x)},
    (∀ x y, P x → P y → compare_candidates_match_type x y ≤ 0) →
    filter P (g_list_sort compare_candidates_match_type l) = filter P l.
Proof.
  apply g_list_sort_spec.
  - intros x y. rewrite compare_candidates_match_type_le.
    pose proof (compare_candidates_match_type_le x y). lia.
  - intros x y z. rewrite !compare_candidates_match_type_le. lia.
Qed.

(** The sorted list is the collected one rearranged, with the typed text
    behind it; nothing is appended to an empty list. *)
Lemma find_candidates_sort_shape (plugin_config : PluginConfig)
    (prefix word : gstring) (collected : list Candidate) :
  collected ≠ [] →
  ∃ body, body ≡ₚ collected ∧
    find_candidates_sort plugin_config prefix word collected
      = body ++ [sentinel plugin_config prefix word].
Proof.
  intros Hne. destruct collected as [|c0 rest]; [done|].
  unfold find_candidates_sort, g_list_append. eexists. split; [|done].
  assert (Hstep1 : g_list_sort (candidate_sort_func plugin_config) (c0 :: rest)
                   ≡ₚ c0 :: rest).
  { unfold candidate_sort_func.
    destruct (_ =? _); [apply sort_alpha_spec|apply sort_dist_spec]. }
  destruct (negb _); [|done].
  etrans; [apply sort_match_type_spec|done].
Qed.

(** ** The ranker *)

(** C3. For a non-empty collected set, [find_candidates] first sorts the
    candidates stably (by text when the sort order is alphabetical, by
    distance when it is by distance): the result [step1] is a permutation in
    ascending order in which candidates of equal key keep their order.  Then,
    exactly when fuzzy matches are not skipped, it sorts stably by match type:
    the exact matches of [step1], in their order, followed by its fuzzy
    matches, in their order.  The entry for the typed text is in neither sort
    and comes last. *)
Theorem find_candidates_sort_spec (plugin_config : PluginConfig)
    (prefix word : gstring) (collected : list Candidate) :
  collected ≠ [] →
  ∃ step1,
    step1 ≡ₚ collected ∧
    (sort_order plugin_config = SORT_ALPHABETICALLY →
       StronglySorted (λ c0 c1, g_strcmp0 (text c0) (text c1) ≤ 0) step1 ∧
       ∀ t, filter (λ c, text c = t) step1 = filter (λ c, text c = t) collected) ∧
    (sort_order plugin_config = SORT_BY_DISTANCE →
       StronglySorted (λ c0 c1, dist c0 ≤ dist c1) step1 ∧
       ∀ d, filter (λ c, dist c = d) step1 = filter (λ c, dist c = d) collected) ∧
    find_candidates_sort plugin_config prefix word collected =
      (if skip_fuzzy_if_exact plugin_config then step1
       else filter (λ c, match_type c = MATCH_EXACT) step1
            ++ filter (λ c, match_type c = MATCH_FUZZY_FORWARD) step1)
      ++ [sentinel plugin_config prefix word].
Proof.
  intros Hne.
  exists (g_list_sort (candidate_sort_func plugin_config) collected).
  pose proof (sort_alpha_spec collected) as Halpha.
  pose proof (sort_dist_spec collected) as Hdist.
  split_and!.
  - unfold candidate_sort_func. destruct (_ =? _); [apply Halpha|apply Hdist].
  - intros Horder. unfold candidate_sort_func. rewrite Horder. simpl.
    destruct Halpha as (_ & Hsorted & Hstable). split; [exact Hsorted|].
    intros t. apply Hstable. intros x y Hx Hy.
    unfold compare_candidates_alpha. by rewrite Hx, Hy, g_strcmp0_refl.
  - intros Horder. unfold candidate_sort_func. rewrite Horder. simpl.
    destruct Hdist as (_ & Hsorted & Hstable). split.
    + eapply StronglySorted_mono; [|exact Hsorted].
      intros x y. apply compare_candidates_dist_le.
    + intros d. apply Hstable. intros x y Hx Hy.
      apply compare_candidates_dist_le. lia.
  - unfold find_candidates_sort. destruct collected as [|c0 rest]; [done|].
    unfold g_list_append. f_equal.
    destruct (skip_fuzzy_if_exact plugin_config); [done|]. simpl negb. cbv iota.
    set (step1 := g_list_sort (candidate_sort_func plugin_config) (c0 :: rest)).
    destruct (sort_match_type_spec step1) as (_ & Hsorted & Hstable).
    rewrite (sorted_by_match_type _ Hsorted) at 1.
    rewrite !Hstable; [done|..].
    + intros x y Hx Hy. apply compare_candidates_match_type_le. by rewrite Hx, Hy.
    + intros x y Hx Hy. apply compare_candidates_match_type_le. by rewrite Hx, Hy.
Qed.

(** ** Machine integers in range *)

Lemma gint_wrap_id (z : Z) : is_gint z → gint_wrap z = z.
Proof.
  unfold is_gint, G_MAXINT, gint_wrap. intros Hz.
  rewrite Z.mod_small; lia.
Qed.

Lemma ABS_gint_sub (a b : Z) :
  0 ≤ a ≤ G_MAXINT → 0 ≤ b ≤ G_MAXINT → ABS (gint_sub a b) = Z.abs (a - b).
Proof.
  unfold G_MAXINT. intros Ha Hb. unfold ABS, gint_sub.
  rewrite (gint_wrap_id (a - b)) by (unfold is_gint, G_MAXINT; lia).
  destruct (Z.ltb_spec (a - b) 0).
  - rewrite gint_wrap_id by (unfold is_gint, G_MAXINT; lia). lia.
  - lia.
Qed.

Lemma MIN_min (a b : Z) : MIN a b = a `min` b.
Proof. unfold MIN. destruct (Z.ltb_spec a b); lia. Qed.

Lemma MAX_max (a b : Z) : MAX a b = a `max` b.
Proof. unfold MAX. destruct (Z.gtb_spec a b); lia. Qed.

(** ** Properties of the collector *)

Lemma g_list_find_custom_Some (cands : list Candidate) (m : gstring) i c :
  g_list_find_custom cands m compare_candidate_str = Some (i, c) →
  text c = m ∧
  ∃ l1 l2, cands = l1 ++ c :: l2 ∧
           ∀ c', <[i := c']> cands = l1 ++ c' :: l2.
Proof.
  unfold g_list_find_custom. intros (Hi & Hc & _)%list_find_Some.
  split; [by apply g_strcmp0_eq|].
  exists (take i cands), (drop (S i) cands). split.
  - by rewrite take_drop_middle.
  - intros c'. apply insert_take_drop. by eapply lookup_lt_Some.
Qed.

Lemma g_list_find_custom_None (cands : list Candidate) (m : gstring) :
  g_list_find_custom cands m compare_candidate_str = None →
  m ∉ text <$> cands.
Proof.
  unfold g_list_find_custom. intros Hnone%list_find_None.
  intros (c & -> & Hc)%list_elem_of_fmap.
  eapply Forall_forall in Hnone; [|exact Hc].
  apply Hnone. apply g_strcmp0_refl.
Qed.

Section collector_facts.
Variable sci : ScintillaObject.
Variable plugin_config : PluginConfig.
Variables prefix word : gstring.
Variable pos : Z.
Variable select_func : option (gstring → gstring → bool).

(** What one merged occurrence does to the list and to the log. *)
Lemma find_words_collect_cases (m : gstring) (ms : Z) (st : Scan) :
  let seen := mkOccurrence m ms (find_words_match_type select_func) in
  let d := ABS (gint_sub ms pos) in
  (m = word ∧ (m ∉ text <$> scan_candidates st) ∧
   find_words_collect word pos select_func m ms st = st) ∨
  (m ≠ word ∧ (m ∉ text <$> scan_candidates st) ∧
   find_words_collect word pos select_func m ms st =
     mkScan (mkCandidate d m (find_words_match_type select_func)
               :: scan_candidates st)
            (scan_yielded st ++ [seen])
            (gint_add (scan_num_matches st) 1)) ∨
  (∃ c l1 l2, text c = m ∧ scan_candidates st = l1 ++ c :: l2 ∧
   find_words_collect word pos select_func m ms st =
     mkScan (l1 ++ mkCandidate (MIN d (dist c)) m (match_type c) :: l2)
            (scan_yielded st ++ [seen])
            (scan_num_matches st)).
Proof.
  intros seen d. unfold find_words_collect.
  destruct (g_list_find_custom _ _ _) as [[i c]|] eqn:Hfind.
  - right; right. apply g_list_find_custom_Some in Hfind
      as (Htext & l1 & l2 & Hsplit & Hins).
    exists c, l1, l2. split_and!; [done..|]. by rewrite Hins, Htext.
  - apply g_list_find_custom_None in Hfind.
    destruct (utils_str_equal word m) eqn:Hword.
    + left. apply utils_str_equal_true in Hword. by subst.
    + right; left. apply utils_str_equal_false in Hword. by split_and!.
Qed.

Lemma find_words_collect_unique (m : gstring) (ms : Z) (st : Scan) :
  collected_unique word (scan_candidates st) (scan_yielded st) →
  collected_unique word (scan_candidates (find_words_collect word pos select_func m ms st))
                        (scan_yielded (find_words_collect word pos select_func m ms st)).
Proof.
  intros [Hnd Hword Hlog Hpass].
  destruct (find_words_collect_cases m ms st)
    as [(_ & _ & ->)|[(Hne & Hfresh & ->)|(c & l1 & l2 & Hc & Hsplit & ->)]]; simpl.
  - done.
  - assert (Hunseen : filter (λ o, occ_text o = m) (scan_yielded st) = []).
    { apply filter_none, Forall_forall. intros o Ho Heq. apply Hfresh, Hlog.
      rewrite <-Heq. by apply list_elem_of_fmap_2. }
    split.
    + rewrite fmap_cons. by apply NoDup_cons.
    + rewrite fmap_cons, not_elem_of_cons. simpl. split; [congruence|done].
    + intros t. rewrite fmap_cons, fmap_app, elem_of_cons, elem_of_app, Hlog.
      simpl. rewrite list_elem_of_singleton. tauto.
    + intros c [->|Hc]%elem_of_cons; simpl.
      * eexists. rewrite filter_app, Hunseen, filter_cons_True by done. done.
      * destruct (Hpass c Hc) as (o & Ho & Hty). exists o. split; [|done].
        rewrite filter_app, head_app, Ho. done.
  - rewrite Hsplit in *. clear Hsplit.
    assert (Htexts : text <$> l1 ++ mkCandidate
              (MIN (ABS (gint_sub ms pos)) (dist c)) m (match_type c) :: l2
            = text <$> l1 ++ c :: l2).
    { rewrite !fmap_app, !fmap_cons. simpl. by rewrite Hc. }
    split.
    + by rewrite Htexts.
    + by rewrite Htexts.
    + intros t. rewrite Htexts, (fmap_app occ_text), elem_of_app, <-Hlog. simpl.
      rewrite list_elem_of_singleton. split; [tauto|]. intros [?| ->]; [done|].
      rewrite fmap_app, fmap_cons, Hc, elem_of_app, elem_of_cons. auto.
    + intros c' Hc'.
      assert (∃ c0, c0 ∈ l1 ++ c :: l2 ∧ text c0 = text c' ∧
                    match_type c0 = match_type c') as (c0 & Hc0 & Ht & Hm).
      { rewrite elem_of_app, elem_of_cons in Hc'.
        destruct Hc' as [?|[->|?]].
        - exists c'. rewrite elem_of_app. auto.
        - exists c. rewrite elem_of_app, elem_of_cons. auto.
        - exists c'. rewrite elem_of_app, elem_of_cons. auto. }
      destruct (Hpass c0 Hc0) as (o & Ho & Hty). exists o.
      rewrite <-Ht, <-Hm. split; [|done].
      rewrite filter_app, head_app, Ho. done.
Qed.

Lemma find_words_collect_nearest (m : gstring) (ms : Z) (st : Scan) :
  0 ≤ ms ≤ G_MAXINT → 0 ≤ pos ≤ G_MAXINT →
  collected_unique word (scan_candidates st) (scan_yielded st) →
  collected_nearest pos (scan_candidates st) (scan_yielded st) →
  collected_nearest pos (scan_candidates (find_words_collect word pos select_func m ms st))
                        (scan_yielded (find_words_collect word pos select_func m ms st)).
Proof.
  intros Hms Hpos [Hnd Hword Hlog Hpass] [Hatt Hleast].
  pose proof (ABS_gint_sub ms pos Hms Hpos) as Hd.
  destruct (find_words_collect_cases m ms st)
    as [(_ & _ & ->)|[(Hne & Hfresh & ->)|(c & l1 & l2 & Hc & Hsplit & ->)]]; simpl.
  - done.
  - split.
    + intros c [->|Hc]%elem_of_cons.
      * eexists. rewrite elem_of_app, list_elem_of_singleton.
        split_and!; [by right|done|]. simpl. by rewrite Hd.
      * destruct (Hatt c Hc) as (o & Ho & Heq & Hdist).
        exists o. rewrite elem_of_app. auto.
    + intros c o [->|Hc]%elem_of_cons [Ho| ->%list_elem_of_singleton]%elem_of_app;
        simpl.
      * intros Heq. destruct Hfresh. apply Hlog. rewrite <-Heq.
        by apply list_elem_of_fmap_2.
      * intros _. unfold occurrence_distance. simpl. lia.
      * by apply Hleast.
      * intros ->. destruct Hfresh. by apply list_elem_of_fmap_2.
  - rewrite Hsplit in *. clear Hsplit. rewrite fmap_app, fmap_cons in Hnd.
    apply NoDup_app in Hnd as (_ & Hl1 & [Hl2 _]%NoDup_cons).
    assert (Hin : c ∈ l1 ++ c :: l2) by (rewrite elem_of_app, elem_of_cons; auto).
    assert (Hleft : ∀ d, d ∈ l1 → d ∈ l1 ++ c :: l2) by (intros; rewrite elem_of_app; auto).
    assert (Hright : ∀ d, d ∈ l2 → d ∈ l1 ++ c :: l2)
      by (intros; rewrite elem_of_app, elem_of_cons; auto).
    split.
    + intros c' Hc'. rewrite elem_of_app, elem_of_cons in Hc'.
      destruct Hc' as [Hc'|[->|Hc']].
      * destruct (Hatt c') as (o & Ho & Heq & Hdist); [auto|].
        exists o. rewrite elem_of_app. auto.
      * simpl. rewrite MIN_min, Hd.
        destruct (Z.le_gt_cases (Z.abs (ms - pos)) (dist c)).
        -- eexists. rewrite elem_of_app, list_elem_of_singleton.
           split_and!; [by right|done|]. unfold occurrence_distance. simpl. lia.
        -- destruct (Hatt c Hin) as (o & Ho & Heq & Hdist).
           exists o. rewrite elem_of_app. split_and!; [auto|congruence|lia].
      * destruct (Hatt c') as (o & Ho & Heq & Hdist); [auto|].
        exists o. rewrite elem_of_app. auto.
    + intros c' o Hc' [Ho| ->%list_elem_of_singleton]%elem_of_app Heq.
      * rewrite elem_of_app, elem_of_cons in Hc'.
        destruct Hc' as [Hc'|[->|Hc']].
        -- apply Hleast; [auto|done..].
        -- simpl in *. rewrite MIN_min.
           pose proof (Hleast c o Hin Ho ltac:(congruence)). lia.
        -- apply Hleast; [auto|done..].
      * simpl in Heq. unfold occurrence_distance. simpl.
        rewrite elem_of_app, elem_of_cons in Hc'.
        destruct Hc' as [Hc'|[->|Hc']].
        -- destruct (Hl1 (text c')); [by apply list_elem_of_fmap_2|].
           rewrite <-Heq, <-Hc. by left.
        -- simpl. rewrite MIN_min. lia.
        -- destruct Hl2. rewrite Hc, Heq. by apply list_elem_of_fmap_2.
Qed.
End collector_facts.

(** ** Properties of the scan loop *)

Section loop_facts.
Variable sci : ScintillaObject.
Variable plugin_config : PluginConfig.
Variables prefix word : gstring.
Variable pos : Z.
Variable select_func : option (gstring → gstring → bool).
Variables source_start source_end : Z.

Hypothesis source_start_nonneg : 0 ≤ source_start.
Hypothesis source_end_inside : source_end ≤ sci_get_length sci.

Lemma find_words_collect_window (m : gstring) (ms : Z) (st : Scan) :
  source_start ≤ ms < source_end →
  in_window (source_start, source_end) (scan_yielded st) →
  in_window (source_start, source_end) (scan_yielded (find_words_collect word pos select_func m ms st)).
Proof.
  intros Hms Hwin. unfold in_window in *.
  destruct (find_words_collect_cases word pos select_func m ms st)
    as [(_ & _ & ->)|[(_ & _ & ->)|(c & l1 & l2 & _ & _ & ->)]]; simpl.
  - done.
  - apply Forall_app. split; [done|]. by apply Forall_singleton.
  - apply Forall_app. split; [done|]. by apply Forall_singleton.
Qed.

(** Whatever the loop returns keeps the invariants of the collector. *)
Lemma find_words_loop_invariant (fuel : nat) (st st' : Scan) (ms : Z) :
  sci_wf sci →
  find_words_loop sci plugin_config prefix word pos select_func
    source_start source_end fuel st ms = Some st' →
  collected_unique word (scan_candidates st) (scan_yielded st) →
  in_window (source_start, source_end) (scan_yielded st) →
  collected_unique word (scan_candidates st') (scan_yielded st') ∧
  in_window (source_start, source_end) (scan_yielded st') ∧
  (0 ≤ pos ≤ G_MAXINT →
   collected_nearest pos (scan_candidates st) (scan_yielded st) →
   collected_nearest pos (scan_candidates st') (scan_yielded st')).
Proof.
  intros Hwf. revert st ms. induction fuel as [|fuel IH]; intros st ms; simpl.
  - destruct (_ && _); [done|]. by intros [= <-].
  - destruct (_ && _) eqn:Hguard; [|by intros [= <-]].
    apply andb_true_iff in Hguard as [Hlo%Z.leb_le Hhi%Z.ltb_lt].
    set (match_ := sci_get_contents_range sci ms _).
    set (st1 := if find_words_selected prefix select_func match_
                then find_words_collect word pos select_func match_ ms st else st).
    intros Hloop Huniq Hwin.
    assert (Huniq1 : collected_unique word (scan_candidates st1) (scan_yielded st1)).
    { subst st1. destruct (find_words_selected _ _ _); [|done].
      by apply find_words_collect_unique. }
    assert (Hwin1 : in_window (source_start, source_end) (scan_yielded st1)).
    { subst st1. destruct (find_words_selected _ _ _); [|done].
      by apply find_words_collect_window. }
    assert (Hnear1 : 0 ≤ pos ≤ G_MAXINT →
      collected_nearest pos (scan_candidates st) (scan_yielded st) →
      collected_nearest pos (scan_candidates st1) (scan_yielded st1)).
    { intros Hpos Hnear. subst st1. destruct (find_words_selected _ _ _); [|done].
      pose proof (sci_length_range sci Hwf) as Hlen.
      apply find_words_collect_nearest; [lia|done..]. }
    destruct (scan_num_matches st1 =? candidates_limit plugin_config).
    + injection Hloop as <-. by split_and!.
    + destruct (IH _ _ Hloop Huniq1 Hwin1) as (? & ? & Hnear').
      split_and!; [done..|]. auto.
Qed.

(** The loop only adds to the end of the log, and what it adds carries the
    match type of the pass. *)
Lemma find_words_loop_appends (fuel : nat) (st st' : Scan) (ms : Z) :
  find_words_loop sci plugin_config prefix word pos select_func
    source_start source_end fuel st ms = Some st' →
  ∃ added, scan_yielded st' = scan_yielded st ++ added ∧
    Forall (λ o, occ_pass o = find_words_match_type select_func) added.
Proof.
  revert st ms. induction fuel as [|fuel IH]; intros st ms; simpl.
  - destruct (_ && _); [done|]. intros [= <-]. exists []. by rewrite app_nil_r.
  - destruct (_ && _); [|intros [= <-]; exists []; by rewrite app_nil_r].
    set (match_ := sci_get_contents_range sci ms _).
    set (st1 := if find_words_selected prefix select_func match_
                then find_words_collect word pos select_func match_ ms st else st).
    assert (∃ added, scan_yielded st1 = scan_yielded st ++ added ∧
              Forall (λ o, occ_pass o = find_words_match_type select_func) added)
      as (added1 & Hadded1 & Hpass1).
    { subst st1. destruct (find_words_selected _ _ _).
      - destruct (find_words_collect_cases word pos select_func match_ ms st)
          as [(_ & _ & ->)|[(_ & _ & ->)|(c & l1 & l2 & _ & _ & ->)]]; simpl.
        + exists []. by rewrite app_nil_r.
        + eexists. split; [done|]. by apply Forall_singleton.
        + eexists. split; [done|]. by apply Forall_singleton.
      - exists []. by rewrite app_nil_r. }
    destruct (_ =? _).
    + intros [= <-]. by exists added1.
    + intros (added & -> & Hpass)%IH. exists (added1 ++ added).
      rewrite Hadded1, app_assoc. split; [done|]. by apply Forall_app.
Qed.

(** The loop comes to an end: every turn moves the search position forward
    inside the range. *)
Lemma find_words_loop_total (fuel : nat) (st : Scan) (ms : Z) :
  sci_wf sci →
  (source_start ≤ ms → source_end - ms ≤ Z.of_nat fuel) →
  is_Some (find_words_loop sci plugin_config prefix word pos select_func
             source_start source_end fuel st ms).
Proof.
  intros Hwf. revert st ms. induction fuel as [|fuel IH]; intros st ms Hfuel; simpl.
  - destruct (_ && _) eqn:Hguard; [|done].
    apply andb_true_iff in Hguard as [Hlo%Z.leb_le Hhi%Z.ltb_lt]. lia.
  - destruct (_ && _) eqn:Hguard; [|done].
    apply andb_true_iff in Hguard as [Hlo%Z.leb_le Hhi%Z.ltb_lt].
    destruct (_ =? _); [done|].
    apply IH. intros Hnext.
    set (match_end := sci_word_end_position sci (gint_add ms 1) true) in *.
    assert (Hend : ms + 1 ≤ match_end).
    { subst match_end. unfold gint_add.
      pose proof (sci_length_range sci Hwf).
      rewrite gint_wrap_id by (unfold is_gint, G_MAXINT in *; lia).
      apply (sci_word_end_ge sci Hwf). lia. }
    destruct (sci_find_text_ge sci Hwf SCFIND_WORDSTART
                (mkTextToFind match_end source_end
                   (find_words_pattern prefix select_func))) as [Hnone|Hfound];
      simpl in *; lia.
Qed.
End loop_facts.

(** ** Properties of [find_words] and of the two passes *)

Lemma find_words_window_bounds (sci : ScintillaObject)
    (plugin_config : PluginConfig) (pos : Z) :
  sci_wf sci →
  0 ≤ (find_words_window sci plugin_config pos).1 ∧
  (find_words_window sci plugin_config pos).2 ≤ sci_get_length sci.
Proof.
  intros Hwf. pose proof (sci_length_range sci Hwf) as Hlen.
  unfold find_words_window. destruct (_ >? _); simpl.
  - rewrite MAX_max, MIN_min. lia.
  - lia.
Qed.

Lemma find_words_spec (sci : ScintillaObject) (plugin_config : PluginConfig)
    (prefix word : gstring) (pos : Z)
    (select_func : option (gstring → gstring → bool))
    (cands : list Candidate) (log : list Occurrence) :
  sci_wf sci →
  collected_unique word cands log →
  in_window (find_words_window sci plugin_config pos) log →
  ∃ st, find_words sci plugin_config prefix word pos select_func cands log = Some st ∧
    collected_unique word (scan_candidates st) (scan_yielded st) ∧
    in_window (find_words_window sci plugin_config pos) (scan_yielded st) ∧
    (0 ≤ pos ≤ G_MAXINT → collected_nearest pos cands log →
     collected_nearest pos (scan_candidates st) (scan_yielded st)) ∧
    ∃ added, scan_yielded st = log ++ added ∧
      Forall (λ o, occ_pass o = find_words_match_type select_func) added.
Proof.
  intros Hwf Huniq Hwin.
  destruct (find_words_window_bounds sci plugin_config pos Hwf) as [Hlo Hhi].
  pose proof (sci_length_range sci Hwf) as Hlen.
  unfold find_words.
  destruct (find_words_window sci plugin_config pos) as [source_start source_end].
  simpl in *.
  set (start := sci_find_text sci SCFIND_WORDSTART _).
  destruct (find_words_loop_total sci plugin_config prefix word pos select_func
              source_start source_end Hlo Hhi
              (Z.to_nat (source_end - source_start)) (mkScan cands log 0) start Hwf)
    as [st Hst].
  { subst start.
    destruct (sci_find_text_ge sci Hwf SCFIND_WORDSTART
                (mkTextToFind source_start source_end
                   (find_words_pattern prefix select_func))); simpl in *; lia. }
  exists st. split; [exact Hst|].
  destruct (find_words_loop_invariant sci plugin_config prefix word pos
              select_func source_start source_end Hlo Hhi _ _ _ _ Hwf Hst Huniq Hwin)
    as (? & ? & ?).
  split_and!; [done..|].
  exact (find_words_loop_appends sci plugin_config prefix word pos
           select_func source_start source_end _ _ _ _ Hst).
Qed.

Lemma collected_unique_nil (word : gstring) : collected_unique word [] [].
Proof.
  split; [constructor|apply not_elem_of_nil|done|].
  intros c Hc. by apply elem_of_nil in Hc.
Qed.

Lemma collected_nearest_nil (pos : Z) : collected_nearest pos [] [].
Proof. split; intros c; [|intros o]; intros Hc; by apply elem_of_nil in Hc. Qed.

(** The two passes, started on the empty list, end and leave a list that
    agrees with their log. *)
Lemma find_candidates_collect_spec (casefold_char : gunichar → gstring)
    (sci : ScintillaObject) (plugin_config : PluginConfig)
    (prefix word : gstring) (pos : Z) :
  sci_wf sci →
  ∃ cands log,
    find_candidates_collect casefold_char sci plugin_config prefix word pos []
      = Some (cands, log) ∧
    collected_unique word cands log ∧
    in_window (find_words_window sci plugin_config pos) log ∧
    (0 ≤ pos ≤ G_MAXINT → collected_nearest pos cands log) ∧
    exact_first log.
Proof.
  intros Hwf. unfold find_candidates_collect.
  destruct (find_words_spec sci plugin_config prefix word pos None [] [] Hwf
              (collected_unique_nil word) ltac:(by constructor))
    as (exact & -> & Huniq & Hwin & Hnear & added & Hadded & Hpass).
  simpl in Hadded, Hpass. simpl. destruct (_ || _).
  - destruct (find_words_spec sci plugin_config prefix word pos
                (Some (match_fuzzy_forward casefold_char))
                (scan_candidates exact) (scan_yielded exact) Hwf Huniq Hwin)
      as (fuzzy & -> & Huniq' & Hwin' & Hnear' & added' & Hadded' & Hpass').
    simpl in Hpass'. simpl. eexists _, _. split_and!; [done..| |].
    + intros Hpos. apply Hnear', Hnear; [done..|]. apply collected_nearest_nil.
    + exists added, added'. by rewrite Hadded', Hadded.
  - eexists _, _. split_and!; [done..| |].
    + intros Hpos. apply Hnear; [done|]. apply collected_nearest_nil.
    + exists added, []. by rewrite Hadded, app_nil_r.
Qed.

Lemma find_candidates_total (casefold_char : gunichar → gstring)
    (sci : ScintillaObject) (plugin_config : PluginConfig)
    (prefix word : gstring) (pos : Z) :
  sci_wf sci →
  is_Some (find_candidates casefold_char sci plugin_config prefix word pos []).
Proof.
  intros Hwf.
  destruct (find_candidates_collect_spec casefold_char sci plugin_config
              prefix word pos Hwf) as (cands & log & Hcollect & _).
  unfold find_candidates. by rewrite Hcollect.
Qed.

(** C5. On any document the list [find_candidates] builds is either empty or
    a non-empty body followed by the entry for the typed text: no two entries
    of the body have the same text, the entry for the typed text is last, and
    an entry of the body can only have the text of that last entry when the
    trailing word part is kept and the text is the typed prefix (it is never
    the whole word). *)
Theorem find_candidates_unique (casefold_char : gunichar → gstring)
    (sci : ScintillaObject) (plugin_config : PluginConfig)
    (prefix word : gstring) (pos : Z) :
  sci_wf sci →
  ∃ built,
    find_candidates casefold_char sci plugin_config prefix word pos [] = Some built ∧
    (built = [] ∨
     ∃ body,
       built = body ++ [sentinel plugin_config prefix word] ∧
       body ≠ [] ∧
       NoDup (text <$> body) ∧
       last built = Some (sentinel plugin_config prefix word) ∧
       ∀ c, c ∈ body → text c = text (sentinel plugin_config prefix word) →
         remove_trailing_word_part plugin_config = false ∧
         text c = prefix ∧ text c ≠ word).
Proof.
  intros Hwf.
  destruct (find_candidates_collect_spec casefold_char sci plugin_config
              prefix word pos Hwf) as (cands & log & Hcollect & Huniq & _).
  unfold find_candidates. rewrite Hcollect. simpl.
  eexists. split; [done|].
  destruct (decide (cands = [])) as [->|Hne]; [by left|right].
  destruct (find_candidates_sort_shape plugin_config prefix word cands Hne)
    as (body & Hperm & ->).
  destruct Huniq as [Hnd Hword _ _].
  exists body. split_and!.
  - done.
  - intros ->. by apply Permutation_nil_l in Hperm.
  - by rewrite Hperm.
  - by rewrite last_snoc.
  - intros c Hc Htext.
    assert (Hnot : text c ≠ word).
    { intros Heq. apply Hword. rewrite <-Heq, <-Hperm.
      by apply list_elem_of_fmap_2. }
    unfold sentinel in Htext. simpl in Htext.
    destruct (remove_trailing_word_part plugin_config); [done|]. done.
Qed.

(** ** Properties of [insert_completion] *)

(** On a non-empty list the cycler returns the text of one of its elements. *)
Lemma cycle_candidates_elem_of (L : list Candidate) direction prev :
  L ≠ [] → ∃ c, c ∈ L ∧ cycle_candidates L direction prev = Some (text c).
Proof.
  intros Hne.
  assert (Hfirst : ∃ c, c ∈ L ∧ text <$> head L = Some (text c)).
  { destruct L as [|c L]; [done|]. exists c. split; [by left|done]. }
  destruct prev as [p|]; [|done].
  destruct (list_find (λ d, text d = p) L) as [[i c]|] eqn:Hfind.
  - rewrite (cycle_candidates_found L direction p i c Hfind).
    destruct (lookup_lt_is_Some_2 L (neighbour_index direction (length L) i))
      as [c' Hc'].
    { apply neighbour_index_lt. destruct L; [done|simpl; lia]. }
    exists c'. rewrite Hc'. split; [|done]. by eapply list_elem_of_lookup_2.
  - rewrite cycle_candidates_stale; [done|].
    apply list_find_None in Hfind.
    intros (c & -> & Hc)%list_elem_of_fmap.
    by eapply Forall_forall in Hfind.
Qed.

Lemma insert_completion_cycle_candidates (plugin_config : PluginConfig)
    (direction : CycleDirection) (start end_ pos : Z) (prefix : gstring)
    (s : Session) :
  ∃ s' effects,
    insert_completion_cycle plugin_config direction start end_ pos prefix s
      = Some (s', effects) ∧
    candidates s' = candidates s.
Proof.
  unfold insert_completion_cycle.
  destruct (candidates s) as [|c0 rest] eqn:Hcands; [by eexists _, _|].
  destruct (cycle_candidates_elem_of (c0 :: rest) direction (prev_completion s))
    as (c & _ & ->); [done|].
  simpl. by eexists _, _.
Qed.

Lemma new_prefix_true (prefix : gstring) (prev : option gstring) :
  new_prefix prefix prev = true ↔ prev ≠ Some prefix.
Proof.
  destruct prev as [p|]; simpl; [|done].
  rewrite negb_true_iff, utils_str_equal_false. split; congruence.
Qed.

(** C7. In an invocation with a typed prefix: when there is no previous
    completion or the prefix differs from it, the outcome is that of cycling
    on a session without previous completion whose list is the one
    [find_candidates] builds from the empty list, whatever the old session
    held; when the prefix is the previous completion, the outcome is that of
    cycling on the session as it is, its list kept and no search made (this
    holds for any widget, even one on which a search would not end). *)
Theorem insert_completion_session (casefold_char : gunichar → gstring)
    (plugin_config : PluginConfig) (sci : ScintillaObject)
    (direction : CycleDirection) (s : Session) :
  let pos := sci_get_selection_start sci in
  let start := sci_word_start_position sci pos true in
  let end_ := sci_word_end_position sci pos true in
  let prefix := sci_get_contents_range sci start pos in
  let word := sci_get_contents_range sci start end_ in
  pos > start →
  (sci_wf sci → prev_completion s ≠ Some prefix →
   ∃ built s' effects,
     find_candidates casefold_char sci plugin_config prefix word pos [] = Some built ∧
     insert_completion_cycle plugin_config direction start end_ pos prefix
       (mkSession None built) = Some (s', effects) ∧
     insert_completion casefold_char plugin_config (Some sci) direction s
       = Some (s', effects) ∧
     candidates s' = built) ∧
  (prev_completion s = Some prefix →
   ∃ s' effects,
     insert_completion_cycle plugin_config direction start end_ pos prefix s
       = Some (s', effects) ∧
     insert_completion casefold_char plugin_config (Some sci) direction s
       = Some (s', effects) ∧
     candidates s' = candidates s).
Proof.
  intros pos start end_ prefix word Hprefix.
  assert (Hgt : (pos >? start) = true) by (apply Z.gtb_lt; lia).
  split.
  - intros Hwf Hnew. apply new_prefix_true in Hnew.
    destruct (find_candidates_total casefold_char sci plugin_config
                prefix word pos Hwf) as (built & Hbuilt).
    destruct (insert_completion_cycle_candidates plugin_config direction
                start end_ pos prefix (mkSession None built))
      as (s' & effects & Hcycle & Hkept).
    exists built, s', effects. split_and!; [done..| |done].
    unfold insert_completion. fold pos start end_ prefix word. rewrite Hgt.
    unfold insert_completion_find. rewrite Hnew, Hbuilt. done.
  - intros Hsame.
    destruct (insert_completion_cycle_candidates plugin_config direction
                start end_ pos prefix s) as (s' & effects & Hcycle & Hkept).
    exists s', effects. split_and!; [done| |done].
    unfold insert_completion. fold pos start end_ prefix word. rewrite Hgt.
    unfold insert_completion_find.
    assert (new_prefix prefix (prev_completion s) = false) as ->.
    { apply not_true_iff_false. rewrite new_prefix_true. by intros []. }
    done.
Qed.

(** C9. In an invocation with a typed prefix that searches (no previous
    completion, or a different one) and whose two passes leave no candidate,
    nothing is replaced: the invocation ends with the previous completion
    unset, the list empty, and the status bar message for the typed prefix as
    its only effect.  (The cycler has no result on an empty list, so it has
    not been called.) *)
Theorem insert_completion_no_candidates (casefold_char : gunichar → gstring)
    (plugin_config : PluginConfig) (sci : ScintillaObject)
    (direction : CycleDirection) (s : Session) (log : list Occurrence) :
  let pos := sci_get_selection_start sci in
  let start := sci_word_start_position sci pos true in
  let end_ := sci_word_end_position sci pos true in
  let prefix := sci_get_contents_range sci start pos in
  let word := sci_get_contents_range sci start end_ in
  pos > start →
  prev_completion s ≠ Some prefix →
  find_candidates_collect casefold_char sci plugin_config prefix word pos []
    = Some ([], log) →
  cycle_candidates [] direction None = None ∧
  insert_completion casefold_char plugin_config (Some sci) direction s
    = Some (mkSession None [], [SetStatusbar prefix]).
Proof.
  intros pos start end_ prefix word Hprefix Hnew Hnone. split; [done|].
  assert (Hgt : (pos >? start) = true) by (apply Z.gtb_lt; lia).
  apply new_prefix_true in Hnew.
  unfold insert_completion. fold pos start end_ prefix word. rewrite Hgt.
  unfold insert_completion_find, find_candidates. by rewrite Hnew, Hnone.
Qed.

(** C10. On a non-empty list and for any previous completion, the cycler
    returns the text of an element of the list; and the second half of
    [insert_completion] leaves the list as it is, element by element and field
    by field, storing that text as the previous completion and changing
    nothing else of the session. *)
Theorem insert_completion_cycle_frame (plugin_config : PluginConfig)
    (direction : CycleDirection) (start end_ pos : Z) (prefix : gstring)
    (s : Session) :
  candidates s ≠ [] →
  ∃ c, c ∈ candidates s ∧
    cycle_candidates (candidates s) direction (prev_completion s) = Some (text c) ∧
    insert_completion_cycle plugin_config direction start end_ pos prefix s
      = Some (mkSession (Some (text c)) (candidates s),
              replace_word plugin_config start end_ pos (text c)).
Proof.
  intros Hne.
  destruct (cycle_candidates_elem_of (candidates s) direction (prev_completion s) Hne)
    as (c & Hc & Hcycle).
  exists c. split_and!; [done..|].
  unfold insert_completion_cycle. rewrite Hcycle.
  by destruct (candidates s).
Qed.

(** ** The document model is a widget the scan can rely on *)

Lemma buffer_extend_right_ge (buf : gstring) (fuel : nat) (p : Z) :
  p ≤ buffer_extend_right buf fuel p.
Proof.
  revert p. induction fuel as [|fuel IH]; intros p; simpl; [lia|].
  destruct (buffer_is_word_at buf p); [|lia].
  specialize (IH (p + 1)). lia.
Qed.

Lemma buffer_find_text_ge (buf : gstring) (flags : Z) (ttf : Sci_TextToFind) :
  buffer_find_text buf flags ttf = -1 ∨ cpMin ttf ≤ buffer_find_text buf flags ttf.
Proof.
  unfold buffer_find_text.
  destruct (list_find _ _) as [[i p]|] eqn:Hfind; [right|by left].
  apply list_find_Some in Hfind as (Hp%list_elem_of_lookup_2 & _).
  apply elem_of_seqZ in Hp. lia.
Qed.

Lemma buffer_sci_wf (buf : gstring) (sel : Z) :
  Z.of_nat (length buf) ≤ G_MAXINT → sci_wf (buffer_sci buf sel).
Proof.
  intros Hlen. split; simpl.
  - lia.
  - intros p _ _. apply buffer_extend_right_ge.
  - intros flags ttf.
    destruct (buffer_find_text_ge buf flags ttf); [by left|right; lia].
Qed.

(** ** The statements on concrete documents *)

(** The model builds the lists used above from the two documents. *)
Example find_candidates_nearest :
  find_candidates ascii_casefold_char nearest_sci nearest_config
    (utf8 "foo") (utf8 "foo") 26 [] = Some nearest_list.
Proof. vm_compute. reflexivity. Qed.

Example find_candidates_reached :
  find_candidates_collect ascii_casefold_char reached_sci reached_config
    (utf8 "foo") (utf8 "foox") 23 [] =
    Some (reached_collected,
          [ mkOccurrence (utf8 "foo") 0 MATCH_EXACT;
            mkOccurrence (utf8 "fooa") 4 MATCH_EXACT;
            mkOccurrence (utf8 "foob") 9 MATCH_EXACT;
            mkOccurrence (utf8 "foo") 0 MATCH_FUZZY_FORWARD;
            mkOccurrence (utf8 "fooa") 4 MATCH_FUZZY_FORWARD;
            mkOccurrence (utf8 "foob") 9 MATCH_FUZZY_FORWARD;
            mkOccurrence (utf8 "fxoxo") 14 MATCH_FUZZY_FORWARD ]) ∧
  find_candidates ascii_casefold_char reached_sci reached_config
    (utf8 "foo") (utf8 "foox") 23 [] = Some reached_list.
Proof. split; vm_compute; reflexivity. Qed.

(** The worked example of the specification: two presses from a fresh session
    insert the nearest candidate and then the second nearest. *)
Example presses_nearest :
  presses nearest_config CYCLE_FORWARD 1 (mkSession None [], (nearest_doc, 26))
    = Some (mkSession (Some (utf8 "foobaz")) nearest_list,
            (utf8 "foobar foo food foobaz foobaz", 29)) ∧
  presses nearest_config CYCLE_FORWARD 2 (mkSession None [], (nearest_doc, 26))
    = Some (mkSession (Some (utf8 "food")) nearest_list,
            (utf8 "foobar foo food foobaz food", 27)).
Proof. split; vm_compute; reflexivity. Qed.

(** On [reached_doc] the fifth press inserts the typed text "foo", the last
    entry of the list, and the sixth goes on to "fooa". *)
Example presses_reached :
  presses reached_config CYCLE_FORWARD 5 (mkSession None [], (reached_doc, 23))
    = Some (mkSession (Some (utf8 "foo")) reached_list, (reached_doc, 23)) ∧
  presses reached_config CYCLE_FORWARD 6 (mkSession None [], (reached_doc, 23))
    = Some (mkSession (Some (utf8 "fooa")) reached_list,
            (utf8 "foo fooa foob fxoxo fooax", 24)).
Proof. split; vm_compute; reflexivity. Qed.

Lemma find_candidates_sort_spec_witness :
  reached_collected ≠ [] ∧
  ∃ step1,
    step1 ≡ₚ reached_collected ∧
    find_candidates_sort reached_config (utf8 "foo") (utf8 "foox") reached_collected =
      (filter (λ c, match_type c = MATCH_EXACT) step1
       ++ filter (λ c, match_type c = MATCH_FUZZY_FORWARD) step1)
      ++ [sentinel reached_config (utf8 "foo") (utf8 "foox")].
Proof.
  assert (Hne : reached_collected ≠ []) by discriminate.
  split; [exact Hne|].
  destruct (find_candidates_sort_spec reached_config (utf8 "foo") (utf8 "foox")
              reached_collected Hne) as (step1 & Hperm & _ & _ & Heq).
  exists step1. split; [exact Hperm|exact Heq].
Defined.

Lemma find_candidates_unique_witness :
  sci_wf reached_sci ∧
  ∃ built,
    find_candidates ascii_casefold_char reached_sci reached_config
      (utf8 "foo") (utf8 "foox") 23 [] = Some built ∧
    (built = [] ∨
     ∃ body,
       built = body ++ [sentinel reached_config (utf8 "foo") (utf8 "foox")] ∧
       body ≠ [] ∧
       NoDup (text <$> body) ∧
       last built = Some (sentinel reached_config (utf8 "foo") (utf8 "foox")) ∧
       ∀ c, c ∈ body →
         text c = text (sentinel reached_config (utf8 "foo") (utf8 "foox")) →
         remove_trailing_word_part reached_config = false ∧
         text c = utf8 "foo" ∧ text c ≠ utf8 "foox").
Proof.
  assert (Hwf : sci_wf reached_sci).
  { apply buffer_sci_wf. vm_compute. discriminate. }
  split; [exact Hwf|].
  exact (find_candidates_unique ascii_casefold_char reached_sci reached_config
           (utf8 "foo") (utf8 "foox") 23 Hwf).
Defined.

Lemma insert_completion_session_witness :
  sci_get_selection_start nearest_sci
    > sci_word_start_position nearest_sci (sci_get_selection_start nearest_sci) true ∧
  sci_wf nearest_sci ∧
  prev_completion (mkSession None []) ≠ Some (utf8 "foo") ∧
  ∃ built s' effects,
    find_candidates ascii_casefold_char nearest_sci nearest_config
      (utf8 "foo") (utf8 "foo") 26 [] = Some built ∧
    insert_completion ascii_casefold_char nearest_config (Some nearest_sci)
      CYCLE_FORWARD (mkSession None []) = Some (s', effects) ∧
    candidates s' = built.
Proof.
  assert (Hprefix : sci_get_selection_start nearest_sci
    > sci_word_start_position nearest_sci (sci_get_selection_start nearest_sci) true)
    by (vm_compute; reflexivity).
  assert (Hwf : sci_wf nearest_sci).
  { apply buffer_sci_wf. vm_compute. discriminate. }
  assert (Hnew : prev_completion (mkSession None []) ≠ Some (utf8 "foo"))
    by discriminate.
  split; [exact Hprefix|]. split; [exact Hwf|]. split; [exact Hnew|].
  destruct (insert_completion_session ascii_casefold_char nearest_config
              nearest_sci CYCLE_FORWARD (mkSession None []) Hprefix)
    as [Hsearch _].
  destruct (Hsearch Hwf Hnew) as (built & s' & effects & Hbuilt & _ & Hrun & Hkept).
  exists built, s', effects. split; [exact Hbuilt|]. split; [exact Hrun|exact Hkept].
Defined.

Lemma insert_completion_no_candidates_witness :
  sci_get_selection_start lonely_sci
    > sci_word_start_position lonely_sci (sci_get_selection_start lonely_sci) true ∧
  prev_completion (mkSession None []) ≠ Some (utf8 "foo") ∧
  find_candidates_collect ascii_casefold_char lonely_sci nearest_config
    (utf8 "foo") (utf8 "foo") 7 [] = Some ([], []) ∧
  insert_completion ascii_casefold_char nearest_config (Some lonely_sci)
    CYCLE_FORWARD (mkSession None [])
    = Some (mkSession None [], [SetStatusbar (utf8 "foo")]).
Proof.
  assert (Hprefix : sci_get_selection_start lonely_sci
    > sci_word_start_position lonely_sci (sci_get_selection_start lonely_sci) true)
    by (vm_compute; reflexivity).
  assert (Hnew : prev_completion (mkSession None []) ≠ Some (utf8 "foo"))
    by discriminate.
  assert (Hnone : find_candidates_collect ascii_casefold_char lonely_sci
            nearest_config (utf8 "foo") (utf8 "foo") 7 [] = Some ([], []))
    by (vm_compute; reflexivity).
  split; [exact Hprefix|]. split; [exact Hnew|]. split; [exact Hnone|].
  exact (proj2 (insert_completion_no_candidates ascii_casefold_char nearest_config
                  lonely_sci CYCLE_FORWARD (mkSession None []) [] Hprefix Hnew Hnone)).
Defined.

Lemma insert_completion_cycle_frame_witness :
  candidates (mkSession (Some (utf8 "foobaz")) nearest_list) ≠ [] ∧
  ∃ c, c ∈ nearest_list ∧
    insert_completion_cycle nearest_config CYCLE_FORWARD 23 29 29 (utf8 "foobaz")
      (mkSession (Some (utf8 "foobaz")) nearest_list)
      = Some (mkSession (Some (text c)) nearest_list,
              replace_word nearest_config 23 29 29 (text c)).
Proof.
  assert (Hne : candidates (mkSession (Some (utf8 "foobaz")) nearest_list) ≠ [])
    by discriminate.
  split; [exact Hne|].
  destruct (insert_completion_cycle_frame nearest_config CYCLE_FORWARD 23 29 29
              (utf8 "foobaz") (mkSession (Some (utf8 "foobaz")) nearest_list) Hne)
    as (c & Hc & _ & Hrun).
  exists c. split; [exact Hc|exact Hrun].
Defined.

(** * Further properties of the code *)

(** ** The fuzzy matcher as an order on strings *)

Lemma g_utf8_casefold_app (casefold_char : gunichar → gstring) (s1 s2 : gstring) :
  g_utf8_casefold casefold_char (s1 ++ s2)
  = g_utf8_casefold casefold_char s1 ++ g_utf8_casefold casefold_char s2.
Proof. unfold g_utf8_casefold. apply bind_app. Qed.

(** X1. A token that begins with the pattern, whatever the case of its
    letters, passes [match_fuzzy_forward]: the matcher accepts every token
    whose folded form begins with the folded pattern, in particular every
    [pattern ++ rest] and the pattern itself. *)
Theorem match_fuzzy_forward_prefix (casefold_char : gunichar → gstring)
    (pattern : gstring) :
  (∀ token,
     g_utf8_casefold casefold_char pattern
       `prefix_of` g_utf8_casefold casefold_char token →
     match_fuzzy_forward casefold_char pattern token = true) ∧
  (∀ rest, match_fuzzy_forward casefold_char pattern (pattern ++ rest) = true) ∧
  match_fuzzy_forward casefold_char pattern pattern = true.
Proof.
  assert (Hprefix : ∀ token,
     g_utf8_casefold casefold_char pattern
       `prefix_of` g_utf8_casefold casefold_char token →
     match_fuzzy_forward casefold_char pattern token = true).
  { intros token [rest Hrest]. apply match_fuzzy_forward_loop_sublist.
    rewrite Hrest. by apply sublist_inserts_r. }
  split_and!; [done|..].
  - intros rest. apply Hprefix. rewrite g_utf8_casefold_app. by eexists.
  - apply Hprefix. exists []. by rewrite app_nil_r.
Qed.

(** X2. Fuzzy matches compose and need room: a pattern that matches a token
    which in turn matches a longer token matches that one too, and a pattern
    whose folded form is longer than the folded token never matches. *)
Theorem match_fuzzy_forward_trans (casefold_char : gunichar → gstring)
    (pattern middle token : gstring) :
  (match_fuzzy_forward casefold_char pattern middle = true →
   match_fuzzy_forward casefold_char middle token = true →
   match_fuzzy_forward casefold_char pattern token = true) ∧
  ((length (g_utf8_casefold casefold_char token)
    < length (g_utf8_casefold casefold_char pattern))%nat →
   match_fuzzy_forward casefold_char pattern token = false).
Proof.
  split.
  - unfold match_fuzzy_forward. rewrite !match_fuzzy_forward_loop_sublist.
    intros H1 H2. by etrans.
  - intros Hlen. apply not_true_iff_false. unfold match_fuzzy_forward.
    rewrite match_fuzzy_forward_loop_sublist. intros Hsub%sublist_length. lia.
Qed.

(** ** The comparison functions as orders *)

Lemma g_strcmp0_swap (a b : gstring) : g_strcmp0 a b < 0 ↔ 0 < g_strcmp0 b a.
Proof.
  revert b. induction a as [|x a IH]; intros [|y b]; simpl; try lia.
  rewrite (N.compare_antisym x y).
  destruct (N.compare_spec x y); simpl; try lia. apply IH.
Qed.

(** X3. Each of the three comparison functions handed to [g_list_sort] is a
    consistent three-way comparison of its key (text, distance, match type):
    it returns 0 exactly on equal keys, swapping the arguments swaps the sign,
    and "not greater" is transitive. *)
Theorem compare_candidates_consistent :
  consistent_comparison compare_candidates_alpha (λ c0 c1, text c0 = text c1) ∧
  consistent_comparison compare_candidates_dist (λ c0 c1, dist c0 = dist c1) ∧
  consistent_comparison compare_candidates_match_type
    (λ c0 c1, match_type c0 = match_type c1).
Proof.
  unfold consistent_comparison. split_and!.
  - intros c0 c1. apply g_strcmp0_eq.
  - intros c0 c1. apply g_strcmp0_swap.
  - intros c0 c1 c2. apply g_strcmp0_trans.
  - intros c0 c1. unfold compare_candidates_dist.
    destruct (Z.gtb_spec (dist c0) (dist c1)), (Z.ltb_spec (dist c0) (dist c1));
      simpl; lia.
  - intros c0 c1. unfold compare_candidates_dist.
    destruct (Z.gtb_spec (dist c0) (dist c1)), (Z.ltb_spec (dist c0) (dist c1)),
             (Z.gtb_spec (dist c1) (dist c0)), (Z.ltb_spec (dist c1) (dist c0));
      simpl; lia.
  - intros c0 c1 c2. rewrite !compare_candidates_dist_le. lia.
  - intros c0 c1. unfold compare_candidates_match_type.
    destruct (match_type c0), (match_type c1); simpl; split; (done || lia).
  - intros c0 c1. unfold compare_candidates_match_type.
    destruct (match_type c0), (match_type c1); simpl; lia.
  - intros c0 c1 c2. rewrite !compare_candidates_match_type_le. lia.
Qed.

(** ** What a pass adds to the list *)

Lemma refreshed_refl (l : list Candidate) : refreshed l l.
Proof. apply Forall2_same_length_lookup_2; [done|]. intros i c c' ? ?. by simplify_eq. Qed.

Lemma refreshed_trans (l1 l2 l3 : list Candidate) :
  refreshed l1 l2 → refreshed l2 l3 → refreshed l1 l3.
Proof.
  unfold refreshed. intros H12. revert l3.
  induction H12 as [|c1 c2 l1 l2 (Ht & Hm & Hd) _ IH]; intros l3 H23.
  - by apply Forall2_nil_inv_l in H23 as ->.
  - apply Forall2_cons_inv_l in H23 as (c3 & l3' & (Ht' & Hm' & Hd') & H23 & ->).
    constructor; [|by apply IH]. split_and!; [congruence..|lia].
Qed.

Section pass_facts.
Variable sci : ScintillaObject.
Variable plugin_config : PluginConfig.
Variables prefix word : gstring.
Variable pos : Z.
Variable select_func : option (gstring → gstring → bool).

Lemma pass_candidate_refreshed (l l' : list Candidate) :
  refreshed l l' → Forall (pass_candidate prefix word select_func) l → Forall (pass_candidate prefix word select_func) l'.
Proof.
  unfold refreshed. induction 1 as [|c c' l l' (Ht & Hm & _) _ IH]; [done|].
  intros [Hc Hl]%Forall_cons. constructor; [|by apply IH].
  destruct Hc as (? & ? & ?). unfold pass_candidate. by rewrite Ht, Hm.
Qed.

Lemma find_words_collect_frame (m : gstring) (ms : Z) (st : Scan) :
  find_words_selected prefix select_func m = true →
  0 ≤ scan_num_matches st < G_MAXINT →
  ∃ added kept,
    scan_candidates (find_words_collect word pos select_func m ms st) = added ++ kept ∧
    refreshed (scan_candidates st) kept ∧
    Forall (pass_candidate prefix word select_func) added ∧
    scan_num_matches (find_words_collect word pos select_func m ms st)
      = scan_num_matches st + Z.of_nat (length added) ∧
    (length added ≤ 1)%nat.
Proof.
  intros Hsel Hnum.
  destruct (find_words_collect_cases word pos select_func m ms st)
    as [(_ & _ & ->)|[(Hne & Hfresh & ->)|(c & l1 & l2 & Hc & Hsplit & ->)]];
    cbn [scan_candidates scan_num_matches].
  - exists [], (scan_candidates st).
    split_and!; [done|apply refreshed_refl|done|simpl; lia|simpl; lia].
  - eexists [_], (scan_candidates st).
    split_and!; [done|apply refreshed_refl| |..].
    + apply Forall_singleton. by split_and!.
    + unfold gint_add. rewrite gint_wrap_id by (unfold is_gint, G_MAXINT in *; lia).
      simpl. lia.
    + simpl. lia.
  - eexists [], _. split_and!; [done| |done|simpl; lia|simpl; lia].
    rewrite Hsplit. apply Forall2_app; [apply refreshed_refl|].
    constructor; [|apply refreshed_refl]. simpl.
    split_and!; [done..|]. rewrite MIN_min. lia.
Qed.

Lemma find_words_loop_frame (source_start source_end : Z) (fuel : nat)
    (st st' : Scan) (ms : Z) :
  find_words_loop sci plugin_config prefix word pos select_func
    source_start source_end fuel st ms = Some st' →
  0 ≤ scan_num_matches st →
  scan_num_matches st + Z.of_nat fuel ≤ G_MAXINT →
  ∃ added kept,
    scan_candidates st' = added ++ kept ∧
    refreshed (scan_candidates st) kept ∧
    Forall (pass_candidate prefix word select_func) added ∧
    scan_num_matches st' = scan_num_matches st + Z.of_nat (length added).
Proof.
  revert st ms. induction fuel as [|fuel IH]; intros st ms; simpl.
  - destruct (_ && _); [done|]. intros [= <-] _ _.
    exists [], (scan_candidates st). split_and!; [done|apply refreshed_refl|done|simpl; lia].
  - destruct (_ && _).
    2: { intros [= <-] _ _. exists [], (scan_candidates st).
         split_and!; [done|apply refreshed_refl|done|simpl; lia]. }
    set (match_ := sci_get_contents_range sci ms _).
    set (st1 := if find_words_selected prefix select_func match_
                then find_words_collect word pos select_func match_ ms st else st).
    intros Hloop Hnum Hfuel.
    assert (∃ added1 kept1,
      scan_candidates st1 = added1 ++ kept1 ∧
      refreshed (scan_candidates st) kept1 ∧
      Forall (pass_candidate prefix word select_func) added1 ∧
      scan_num_matches st1 = scan_num_matches st + Z.of_nat (length added1) ∧
      (length added1 ≤ 1)%nat)
      as (added1 & kept1 & Hst1 & Hkept1 & Hadded1 & Hnum1 & Hlen1).
    { subst st1. destruct (find_words_selected _ _ _) eqn:Hsel.
      - apply find_words_collect_frame; [done|lia].
      - exists [], (scan_candidates st).
        split_and!; [done|apply refreshed_refl|done|simpl; lia|simpl; lia]. }
    destruct (_ =? _).
    + injection Hloop as <-. by exists added1, kept1.
    + apply IH in Hloop as (added & kept & Hst' & Hkept & Hadded & Hnum'); [|lia..].
      rewrite Hst1 in Hkept.
      apply Forall2_app_inv_l in Hkept as (k1 & k2 & Hk1 & Hk2 & ->).
      exists (added ++ k1), k2. split_and!.
      * by rewrite Hst', app_assoc.
      * by eapply refreshed_trans.
      * apply Forall_app. split; [done|]. by eapply pass_candidate_refreshed.
      * rewrite Hnum', Hnum1, length_app.
        apply Forall2_length in Hk1. lia.
Qed.

(** With a positive limit the count of a pass never goes beyond it. *)
Lemma find_words_loop_limit (source_start source_end : Z) (fuel : nat)
    (st st' : Scan) (ms : Z) :
  find_words_loop sci plugin_config prefix word pos select_func
    source_start source_end fuel st ms = Some st' →
  candidates_limit plugin_config ≤ G_MAXINT →
  0 ≤ scan_num_matches st < candidates_limit plugin_config →
  scan_num_matches st' ≤ candidates_limit plugin_config.
Proof.
  intros Hloop Hgint. revert st ms Hloop.
  induction fuel as [|fuel IH]; intros st ms; simpl.
  - destruct (_ && _); [done|]. intros [= <-]. lia.
  - destruct (_ && _); [|intros [= <-]; lia].
    set (match_ := sci_get_contents_range sci ms _).
    set (st1 := if find_words_selected prefix select_func match_
                then find_words_collect word pos select_func match_ ms st else st).
    intros Hloop Hnum.
    assert (scan_num_matches st ≤ scan_num_matches st1 ≤ scan_num_matches st + 1)
      as Hnum1.
    { subst st1. destruct (find_words_selected _ _ _) eqn:Hsel; [|lia].
      destruct (find_words_collect_frame match_ ms st Hsel)
        as (added & _ & _ & _ & _ & -> & Hlen); lia. }
    destruct (Z.eqb_spec (scan_num_matches st1) (candidates_limit plugin_config)).
    + injection Hloop as <-. lia.
    + eapply IH; [exact Hloop|lia].
Qed.
End pass_facts.

Lemma find_words_total (sci : ScintillaObject) (plugin_config : PluginConfig)
    (prefix word : gstring) (pos : Z)
    (select_func : option (gstring → gstring → bool))
    (cands : list Candidate) (log : list Occurrence) :
  sci_wf sci →
  let window := find_words_window sci plugin_config pos in
  ∃ st,
    find_words sci plugin_config prefix word pos select_func cands log = Some st ∧
    find_words_loop sci plugin_config prefix word pos select_func
      window.1 window.2 (Z.to_nat (window.2 - window.1)) (mkScan cands log 0)
      (sci_find_text sci SCFIND_WORDSTART
         (mkTextToFind window.1 window.2 (find_words_pattern prefix select_func)))
      = Some st.
Proof.
  intros Hwf window.
  destruct (find_words_window_bounds sci plugin_config pos Hwf) as [Hlo Hhi].
  unfold find_words. subst window.
  destruct (find_words_window sci plugin_config pos) as [source_start source_end].
  simpl in *.
  set (start := sci_find_text sci SCFIND_WORDSTART _).
  destruct (find_words_loop_total sci plugin_config prefix word pos select_func
              source_start source_end Hlo Hhi
              (Z.to_nat (source_end - source_start)) (mkScan cands log 0) start Hwf)
    as [st Hst]; [|by exists st].
  subst start.
  destruct (sci_find_text_ge sci Hwf SCFIND_WORDSTART
              (mkTextToFind source_start source_end
                 (find_words_pattern prefix select_func))); simpl in *; lia.
Qed.

(** What one pass does to the list it is given, in one statement. *)
Lemma find_words_added (sci : ScintillaObject) (plugin_config : PluginConfig)
    (prefix word : gstring) (pos : Z)
    (select_func : option (gstring → gstring → bool))
    (cands : list Candidate) (log : list Occurrence) :
  sci_wf sci →
  ∃ st added kept,
    find_words sci plugin_config prefix word pos select_func cands log = Some st ∧
    scan_candidates st = added ++ kept ∧
    refreshed cands kept ∧
    Forall (pass_candidate prefix word select_func) added ∧
    scan_num_matches st = Z.of_nat (length added) ∧
    (1 ≤ candidates_limit plugin_config ≤ G_MAXINT →
     Z.of_nat (length added) ≤ candidates_limit plugin_config).
Proof.
  intros Hwf.
  destruct (find_words_total sci plugin_config prefix word pos select_func
              cands log Hwf) as (st & Hst & Hloop).
  destruct (find_words_window_bounds sci plugin_config pos Hwf) as [Hlo Hhi].
  pose proof (sci_length_range sci Hwf) as Hlen.
  destruct (find_words_loop_frame sci plugin_config prefix word pos select_func
              _ _ _ _ _ _ Hloop) as (added & kept & Hsplit & Hkept & Hadded & Hnum);
    [simpl; lia..|].
  assert (Hnum' : scan_num_matches st = Z.of_nat (length added))
    by (simpl in Hnum; lia).
  exists st, added, kept. split_and!; [done..|].
  intros Hlimit. rewrite <-Hnum'.
  eapply (find_words_loop_limit sci plugin_config prefix word pos select_func);
    [exact Hloop|lia|simpl; lia].
Qed.

(** X4. A pass never drops, moves or renames a candidate: the list it leaves
    is the list it was given, entry by entry with the same text and match type
    and a distance that is the same or smaller, behind whatever the pass put
    in front. *)
Theorem find_words_keeps (sci : ScintillaObject) (plugin_config : PluginConfig)
    (prefix word : gstring) (pos : Z)
    (select_func : option (gstring → gstring → bool))
    (cands : list Candidate) (log : list Occurrence) :
  sci_wf sci →
  ∃ st added kept,
    find_words sci plugin_config prefix word pos select_func cands log = Some st ∧
    scan_candidates st = added ++ kept ∧
    length kept = length cands ∧
    ∀ i c, cands !! i = Some c →
      ∃ c', kept !! i = Some c' ∧
        text c' = text c ∧ match_type c' = match_type c ∧ dist c' ≤ dist c.
Proof.
  intros Hwf.
  destruct (find_words_added sci plugin_config prefix word pos select_func
              cands log Hwf) as (st & added & kept & Hst & Hsplit & Hkept & _).
  exists st, added, kept. split_and!; [done..| |].
  - symmetry. by eapply Forall2_length.
  - intros i c Hi.
    destruct (Forall2_lookup_l _ _ _ _ _ Hkept Hi) as (c' & Hc' & ?). by exists c'.
Qed.

(** X5. The number a pass returns is the number of candidates it put in
    front of the list; each of them has the match type of the pass, passed the
    selection function (if any) and is not the word being typed; and with a
    limit of at least 1 a pass adds no more than [candidates_limit]. *)
Theorem find_words_count (sci : ScintillaObject) (plugin_config : PluginConfig)
    (prefix word : gstring) (pos : Z)
    (select_func : option (gstring → gstring → bool))
    (cands : list Candidate) (log : list Occurrence) :
  sci_wf sci →
  ∃ st added,
    find_words sci plugin_config prefix word pos select_func cands log = Some st ∧
    length (scan_candidates st) = (length added + length cands)%nat ∧
    take (length added) (scan_candidates st) = added ∧
    scan_num_matches st = Z.of_nat (length added) ∧
    (∀ c, c ∈ added →
       match_type c = find_words_match_type select_func ∧
       find_words_selected prefix select_func (text c) = true ∧
       text c ≠ word) ∧
    (1 ≤ candidates_limit plugin_config ≤ G_MAXINT →
     Z.of_nat (length added) ≤ candidates_limit plugin_config).
Proof.
  intros Hwf.
  destruct (find_words_added sci plugin_config prefix word pos select_func
              cands log Hwf)
    as (st & added & kept & Hst & Hsplit & Hkept & Hadded & Hnum & Hlimit).
  exists st, added. split_and!; [done| | |done| |done].
  - rewrite Hsplit, length_app. apply Forall2_length in Hkept. lia.
  - by rewrite Hsplit, take_app_length.
  - intros c Hc. by eapply Forall_forall in Hadded.
Qed.

(** ** What the two passes leave, by match type *)

Lemma refreshed_nil_l (l : list Candidate) : refreshed [] l → l = [].
Proof. apply Forall2_nil_inv_l. Qed.

Lemma refreshed_match_type (m : MatchType) (l l' : list Candidate) :
  refreshed l l' →
  Forall (λ c, match_type c = m) l → Forall (λ c, match_type c = m) l'.
Proof.
  unfold refreshed. induction 1 as [|c c' l l' (_ & Hm & _) _ IH]; [done|].
  intros [Hc Hl]%Forall_cons. constructor; [congruence|by apply IH].
Qed.

Lemma find_candidates_collect_kinds (casefold_char : gunichar → gstring)
    (sci : ScintillaObject) (plugin_config : PluginConfig)
    (prefix word : gstring) (pos : Z) :
  sci_wf sci →
  ∃ cands log exact fuzzy,
    find_candidates_collect casefold_char sci plugin_config prefix word pos []
      = Some (cands, log) ∧
    cands = fuzzy ++ exact ∧
    Forall (λ c, match_type c = MATCH_EXACT) exact ∧
    Forall (λ c, match_type c = MATCH_FUZZY_FORWARD ∧
                 match_fuzzy_forward casefold_char prefix (text c) = true) fuzzy ∧
    (skip_fuzzy_if_exact plugin_config = true → exact = [] ∨ fuzzy = []) ∧
    (1 ≤ candidates_limit plugin_config ≤ G_MAXINT →
     Z.of_nat (length exact) ≤ candidates_limit plugin_config ∧
     Z.of_nat (length fuzzy) ≤ candidates_limit plugin_config).
Proof.
  intros Hwf. unfold find_candidates_collect.
  destruct (find_words_added sci plugin_config prefix word pos None [] [] Hwf)
    as (st1 & added1 & kept1 & -> & Hsplit1 & ->%refreshed_nil_l & Hadded1
        & Hnum1 & Hlimit1).
  rewrite app_nil_r in Hsplit1. simpl.
  assert (Hexact1 : Forall (λ c, match_type c = MATCH_EXACT) added1).
  { eapply Forall_impl; [exact Hadded1|]. by intros c (? & _). }
  destruct (_ || _) eqn:Hrun.
  - destruct (find_words_added sci plugin_config prefix word pos
                (Some (match_fuzzy_forward casefold_char))
                (scan_candidates st1) (scan_yielded st1) Hwf)
      as (st2 & added2 & kept2 & -> & Hsplit2 & Hkept2 & Hadded2 & _ & Hlimit2).
    simpl. exists (scan_candidates st2), (scan_yielded st2), kept2, added2.
    rewrite Hsplit1 in Hkept2.
    split_and!; [done..| | | |].
    + by eapply refreshed_match_type.
    + eapply Forall_impl; [exact Hadded2|]. by intros c (? & ? & _).
    + intros Hskip. rewrite Hskip, orb_false_r in Hrun.
      apply Z.eqb_eq in Hrun. left.
      assert (added1 = []) as -> by (apply length_zero_iff_nil; lia).
      by apply refreshed_nil_l.
    + intros Hlimit. split; [|by apply Hlimit2].
      apply Forall2_length in Hkept2. rewrite <-Hkept2. by apply Hlimit1.
  - simpl. exists (scan_candidates st1), (scan_yielded st1), added1, [].
    rewrite Hsplit1. split_and!; [done..| |].
    + intros _. by right.
    + intros Hlimit. split; [by apply Hlimit1|simpl; lia].
Qed.

(** X6. In the list [find_candidates] builds, every candidate marked as a
    fuzzy match is one, that is, it passes [match_fuzzy_forward] for the typed
    prefix; and when fuzzy matches are to be skipped the candidates are all of
    one match type: all exact, or, when no exact one was found, all fuzzy. *)
Theorem find_candidates_kinds (casefold_char : gunichar → gstring)
    (sci : ScintillaObject) (plugin_config : PluginConfig)
    (prefix word : gstring) (pos : Z) :
  sci_wf sci →
  ∃ built,
    find_candidates casefold_char sci plugin_config prefix word pos [] = Some built ∧
    (built = [] ∨
     ∃ body,
       built = body ++ [sentinel plugin_config prefix word] ∧
       (∀ c, c ∈ body → match_type c = MATCH_FUZZY_FORWARD →
          match_fuzzy_forward casefold_char prefix (text c) = true) ∧
       (skip_fuzzy_if_exact plugin_config = true →
          Forall (λ c, match_type c = MATCH_EXACT) body ∨
          Forall (λ c, match_type c = MATCH_FUZZY_FORWARD) body)).
Proof.
  intros Hwf.
  destruct (find_candidates_collect_kinds casefold_char sci plugin_config
              prefix word pos Hwf)
    as (cands & log & exact & fuzzy & Hcollect & -> & Hexact & Hfuzzy & Hskip & _).
  unfold find_candidates. rewrite Hcollect. simpl.
  eexists. split; [done|].
  destruct (decide (fuzzy ++ exact = [])) as [->|Hne]; [by left|right].
  destruct (find_candidates_sort_shape plugin_config prefix word _ Hne)
    as (body & Hperm & ->).
  exists body. split_and!; [done| |].
  - intros c Hc Hkind. rewrite Hperm, elem_of_app in Hc. destruct Hc as [Hc|Hc].
    + by eapply Forall_forall in Hfuzzy as [_ ?].
    + eapply Forall_forall in Hexact; [|exact Hc]. congruence.
  - intros [->| ->]%Hskip; rewrite Hperm.
    + right. rewrite app_nil_r. eapply Forall_impl; [exact Hfuzzy|]. by intros c [? _].
    + left. done.
Qed.

(** X7. With a limit of at least 1, each pass contributes at most
    [candidates_limit] candidates, so the built list, the typed text included,
    has at most [2 * candidates_limit + 1] entries, and at most
    [candidates_limit + 1] when fuzzy matches are skipped. *)
Theorem find_candidates_size (casefold_char : gunichar → gstring)
    (sci : ScintillaObject) (plugin_config : PluginConfig)
    (prefix word : gstring) (pos : Z) :
  sci_wf sci →
  1 ≤ candidates_limit plugin_config ≤ G_MAXINT →
  ∃ built,
    find_candidates casefold_char sci plugin_config prefix word pos [] = Some built ∧
    Z.of_nat (length built) ≤ 2 * candidates_limit plugin_config + 1 ∧
    (skip_fuzzy_if_exact plugin_config = true →
     Z.of_nat (length built) ≤ candidates_limit plugin_config + 1).
Proof.
  intros Hwf Hlimit.
  destruct (find_candidates_collect_kinds casefold_char sci plugin_config
              prefix word pos Hwf)
    as (cands & log & exact & fuzzy & Hcollect & -> & _ & _ & Hskip & Hlen).
  destruct (Hlen Hlimit) as [Hexact Hfuzzy].
  unfold find_candidates. rewrite Hcollect. simpl.
  eexists. split; [done|].
  destruct (decide (fuzzy ++ exact = [])) as [->|Hne]; [simpl; lia|].
  destruct (find_candidates_sort_shape plugin_config prefix word _ Hne)
    as (body & Hperm & ->).
  apply Permutation_length in Hperm.
  rewrite length_app, Hperm, length_app. simpl. split; [lia|].
  intros [->| ->]%Hskip; simpl in *; lia.
Qed.

(** ** The order of a built list *)

Lemma StronglySorted_filter {A} (R : relation A) (P : A → Prop)
    `{!∀ x, Decision (P x)} (l : list A) :
  StronglySorted R l → StronglySorted R (filter P l).
Proof.
  induction 1 as [|x l Hl IH Hx]; [constructor|].
  rewrite filter_cons. destruct (decide (P x)); [|done].
  constructor; [done|].
  apply Forall_forall. intros y [_ Hy]%list_elem_of_filter.
  by eapply Forall_forall in Hx.
Qed.

Lemma StronglySorted_mono_on {A} (R1 R2 : relation A) (l : list A) :
  (∀ x y, x ∈ l → y ∈ l → R1 x y → R2 x y) →
  StronglySorted R1 l → StronglySorted R2 l.
Proof.
  intros Himpl Hsorted. induction Hsorted as [|x l Hl IH Hx]; [constructor|].
  constructor.
  - apply IH. intros y z Hy Hz. apply Himpl; by right.
  - apply Forall_forall. intros y Hy. apply Himpl; [by left|by right|].
    by eapply Forall_forall in Hx.
Qed.

Lemma candidate_sort_func_sorted (plugin_config : PluginConfig)
    (l : list Candidate) :
  g_list_sort (candidate_sort_func plugin_config) l ≡ₚ l ∧
  StronglySorted (sorts_before (candidate_sort_func plugin_config))
    (g_list_sort (candidate_sort_func plugin_config) l).
Proof.
  unfold candidate_sort_func. destruct (_ =? _).
  - destruct (sort_alpha_spec l) as (? & ? & _). done.
  - destruct (sort_dist_spec l) as (? & ? & _). done.
Qed.

(** The list before the typed text is appended, for either setting of
    [skip_fuzzy_if_exact]. *)
Lemma find_candidates_sort_body (plugin_config : PluginConfig)
    (prefix word : gstring) (collected : list Candidate) :
  collected ≠ [] →
  ∃ step1,
    step1 ≡ₚ collected ∧
    StronglySorted (sorts_before (candidate_sort_func plugin_config)) step1 ∧
    find_candidates_sort plugin_config prefix word collected =
      (if skip_fuzzy_if_exact plugin_config then step1
       else filter (λ c, match_type c = MATCH_EXACT) step1
            ++ filter (λ c, match_type c = MATCH_FUZZY_FORWARD) step1)
      ++ [sentinel plugin_config prefix word].
Proof.
  intros Hne.
  destruct (candidate_sort_func_sorted plugin_config collected) as [Hperm Hsorted].
  eexists. split_and!; [exact Hperm|exact Hsorted|].
  unfold find_candidates_sort. destruct collected as [|c0 rest]; [done|].
  unfold g_list_append. f_equal.
  destruct (skip_fuzzy_if_exact plugin_config); [done|]. simpl negb. cbv iota.
  set (step1 := g_list_sort (candidate_sort_func plugin_config) (c0 :: rest)).
  destruct (sort_match_type_spec step1) as (_ & Hkinds & Hstable).
  rewrite (sorted_by_match_type _ Hkinds) at 1.
  rewrite !Hstable; [done|..];
    intros x y Hx Hy; apply compare_candidates_match_type_le; by rewrite Hx, Hy.
Qed.

(** X8. Whatever the settings, the list [find_candidates] builds has, before
    the typed text, every exact match in front of every fuzzy match, and the
    candidates of one match type in the order of the configured comparison
    (text or distance): the two sorts, or the single sort when fuzzy matches
    are skipped, amount to one sort by match type and then by key. *)
Theorem find_candidates_ranked (casefold_char : gunichar → gstring)
    (sci : ScintillaObject) (plugin_config : PluginConfig)
    (prefix word : gstring) (pos : Z) :
  sci_wf sci →
  ∃ built,
    find_candidates casefold_char sci plugin_config prefix word pos [] = Some built ∧
    (built = [] ∨
     ∃ body,
       built = body ++ [sentinel plugin_config prefix word] ∧
       StronglySorted (ranked_before plugin_config) body).
Proof.
  intros Hwf.
  destruct (find_candidates_collect_kinds casefold_char sci plugin_config
              prefix word pos Hwf)
    as (cands & log & exact & fuzzy & Hcollect & -> & Hexact & Hfuzzy & Hskip & _).
  unfold find_candidates. rewrite Hcollect. simpl.
  eexists. split; [done|].
  destruct (decide (fuzzy ++ exact = [])) as [->|Hne]; [by left|right].
  destruct (find_candidates_sort_body plugin_config prefix word _ Hne)
    as (step1 & Hperm & Hsorted & ->).
  eexists. split; [done|].
  destruct (skip_fuzzy_if_exact plugin_config) eqn:Hskipped.
  - assert (∃ m, Forall (λ c, match_type c = m) step1) as [m Hm].
    { destruct (Hskip eq_refl) as [->| ->].
      - exists MATCH_FUZZY_FORWARD. rewrite Hperm, app_nil_r.
        eapply Forall_impl; [exact Hfuzzy|]. by intros c [? _].
      - exists MATCH_EXACT. by rewrite Hperm. }
    eapply StronglySorted_mono_on; [|exact Hsorted].
    intros c0 c1 Hc0 Hc1 Hle. right. split; [|done].
    eapply Forall_forall in Hc0; [|exact Hm].
    eapply Forall_forall in Hc1; [|exact Hm]. simpl in *. congruence.
  - apply StronglySorted_app. split_and!.
    + intros c0 c1 [Hc0 _]%list_elem_of_filter [Hc1 _]%list_elem_of_filter.
      left. by rewrite Hc0, Hc1.
    + eapply StronglySorted_mono_on; [|apply StronglySorted_filter, Hsorted].
      intros c0 c1 [Hc0 _]%list_elem_of_filter [Hc1 _]%list_elem_of_filter Hle.
      right. split; [congruence|done].
    + eapply StronglySorted_mono_on; [|apply StronglySorted_filter, Hsorted].
      intros c0 c1 [Hc0 _]%list_elem_of_filter [Hc1 _]%list_elem_of_filter Hle.
      right. split; [congruence|done].
Qed.

(** ** Cycling through a built list *)

Lemma cycle_repeat_walk (body : list Candidate) (last_entry : Candidate) (k : nat) :
  NoDup (text <$> body) →
  ∀ i c, (body ++ [last_entry]) !! i = Some c →
    (i + k < length (body ++ [last_entry]))%nat →
    cycle_repeat (body ++ [last_entry]) CYCLE_FORWARD k (Some (text c))
      = Some (text <$> (body ++ [last_entry]) !! (i + k)%nat).
Proof.
  intros Hnd. set (L := body ++ [last_entry]).
  assert (Hlen : length L = S (length body)).
  { subst L. rewrite length_app. simpl. lia. }
  induction k as [|k IH]; intros i c Hi Hlt.
  - simpl. by rewrite Nat.add_0_r, Hi.
  - assert (Hbody : body !! i = Some c).
    { subst L. rewrite lookup_app_l in Hi by lia. done. }
    assert (Hfind : list_find (λ d, text d = text c) L = Some (i, c)).
    { apply list_find_Some. split_and!; [done..|].
      intros j d Hj Hji Heq.
      assert (body !! j = Some d) as Hbj.
      { subst L. rewrite lookup_app_l in Hj; [done|].
        apply lookup_lt_Some in Hbody. lia. }
      assert (j = i); [|lia].
      eapply NoDup_lookup; [exact Hnd|..].
      - by rewrite list_lookup_fmap, Hbj.
      - by rewrite list_lookup_fmap, Hbody, Heq. }
    cbn [cycle_repeat].
    rewrite (cycle_candidates_found L CYCLE_FORWARD (text c) i c Hfind).
    unfold neighbour_index. rewrite Nat.mod_small by lia.
    destruct (lookup_lt_is_Some_2 L (i + 1)%nat) as [c' Hc']; [lia|].
    rewrite Hc'. simpl. rewrite (IH (i + 1)%nat c' Hc') by lia.
    do 3 f_equal. lia.
Qed.

(** X9. On any list whose entries before the last have distinct texts (every
    list [find_candidates] builds is one), starting without a previous
    completion and cycling forward visits the entries once each in their
    order: the [k]-th step returns the text at index [k - 1], for every [k] up
    to the length of the list, the last step returning the typed text. *)
Theorem cycle_repeat_first_round (body : list Candidate) (last_entry : Candidate)
    (k : nat) :
  NoDup (text <$> body) →
  (k < length (body ++ [last_entry]))%nat →
  cycle_repeat (body ++ [last_entry]) CYCLE_FORWARD (S k) None
    = Some (text <$> (body ++ [last_entry]) !! k) ∧
  cycle_repeat (body ++ [last_entry]) CYCLE_FORWARD
    (length (body ++ [last_entry])) None = Some (Some (text last_entry)).
Proof.
  intros Hnd Hk.
  assert (Hwalk : ∀ k, (k < length (body ++ [last_entry]))%nat →
    cycle_repeat (body ++ [last_entry]) CYCLE_FORWARD (S k) None
      = Some (text <$> (body ++ [last_entry]) !! k)).
  { clear k Hk. intros k Hk.
    destruct (lookup_lt_is_Some_2 (body ++ [last_entry]) 0%nat) as [c0 Hc0]; [lia|].
    cbn [cycle_repeat]. unfold cycle_candidates at 1.
    rewrite head_lookup, Hc0. simpl.
    by rewrite (cycle_repeat_walk body last_entry k Hnd 0%nat c0 Hc0). }
  split; [by apply Hwalk|].
  rewrite length_app. simpl. rewrite Nat.add_1_r.
  rewrite Hwalk by (rewrite length_app; simpl; lia).
  by rewrite lookup_app_r, Nat.sub_diag.
Qed.

(** ** The session from key press to key press *)

Lemma find_candidates_built_shape (casefold_char : gunichar → gstring)
    (sci : ScintillaObject) (plugin_config : PluginConfig)
    (prefix word : gstring) (pos : Z) :
  sci_wf sci →
  ∃ built,
    find_candidates casefold_char sci plugin_config prefix word pos [] = Some built ∧
    (built = [] ∨
     ∃ body last_entry, built = body ++ [last_entry] ∧ body ≠ [] ∧
                        NoDup (text <$> body)).
Proof.
  intros Hwf.
  destruct (find_candidates_collect_spec casefold_char sci plugin_config
              prefix word pos Hwf) as (cands & log & Hcollect & Huniq & _).
  unfold find_candidates. rewrite Hcollect. simpl. eexists. split; [done|].
  destruct (decide (cands = [])) as [->|Hne]; [by left|right].
  destruct (find_candidates_sort_shape plugin_config prefix word cands Hne)
    as (body & Hperm & ->).
  exists body, (sentinel plugin_config prefix word). split_and!; [done| |].
  - intros ->. by apply Permutation_nil_l in Hperm.
  - rewrite Hperm. apply Huniq.
Qed.

(** X10. [insert_completion] always ends (on a widget the scan can rely on)
    and keeps the session consistent: there is a previous completion exactly
    when the list is not empty, it is the text of an entry of that list, so
    the cycler never meets a previous completion it cannot find, and the list
    is a body of distinct texts followed by one entry.  Without a document or
    without a typed prefix nothing is changed and nothing is sent to the
    widget. *)
Theorem insert_completion_session_ok (casefold_char : gunichar → gstring)
    (plugin_config : PluginConfig) (doc : option ScintillaObject)
    (direction : CycleDirection) (s : Session) :
  session_ok s →
  (∀ sci, doc = Some sci → sci_wf sci) →
  ∃ s' effects,
    insert_completion casefold_char plugin_config doc direction s
      = Some (s', effects) ∧
    session_ok s' ∧
    ((doc = None ∨
      ∃ sci, doc = Some sci ∧
        sci_get_selection_start sci
        ≤ sci_word_start_position sci (sci_get_selection_start sci) true) →
     s' = s ∧ effects = []).
Proof.
  intros Hok Hwf.
  destruct doc as [sci|]; [|by exists s, []].
  specialize (Hwf sci eq_refl).
  unfold insert_completion.
  set (pos := sci_get_selection_start sci).
  set (start := sci_word_start_position sci pos true).
  set (end_ := sci_word_end_position sci pos true).
  set (prefix := sci_get_contents_range sci start pos).
  set (word := sci_get_contents_range sci start end_).
  destruct (Z.gtb_spec pos start) as [Hgt|Hle]; [|by exists s, []].
  assert (∃ s1, insert_completion_find casefold_char plugin_config sci
                  prefix word pos s = Some s1 ∧
                (candidates s1 = [] ∧ prev_completion s1 = None ∨
                 (∃ body last_entry, candidates s1 = body ++ [last_entry] ∧
                    body ≠ [] ∧ NoDup (text <$> body)) ∧
                 ∀ t, prev_completion s1 = Some t → t ∈ text <$> candidates s1))
    as (s1 & -> & Hs1).
  { unfold insert_completion_find.
    destruct (new_prefix prefix (prev_completion s)) eqn:Hnew.
    - destruct (find_candidates_built_shape casefold_char sci plugin_config
                  prefix word pos Hwf) as (built & -> & Hshape).
      simpl. eexists. split; [done|]. simpl.
      destruct Hshape as [->|Hshape]; [by left|right]. by split.
    - exists s. split; [done|]. unfold session_ok in Hok.
      destruct (prev_completion s) as [t|]; [|done].
      destruct Hok as [Ht Hshape]. right. split; [done|]. by intros ? [= <-]. }
  simpl. unfold insert_completion_cycle.
  destruct Hs1 as [[Hempty Hprev]|[(body & last_entry & Hsplit & Hne & Hnd) Hprev]].
  - rewrite Hempty. exists s1, [SetStatusbar prefix]. split_and!; [done| |].
    + unfold session_ok. by rewrite Hprev.
    + intros [?|(sci' & [= <-] & Hle)]; [done|]. fold pos start in Hle. lia.
  - assert (Hne1 : candidates s1 ≠ []) by (rewrite Hsplit; by destruct body).
    destruct (cycle_candidates_elem_of (candidates s1) direction
                (prev_completion s1) Hne1) as (c & Hc & ->).
    destruct (candidates s1) as [|c0 rest] eqn:Hcands; [done|].
    simpl. eexists _, _. split_and!; [done| |].
    + unfold session_ok. cbn [prev_completion candidates].
      split; [by apply list_elem_of_fmap_2|]. by exists body, last_entry.
    + intros [?|(sci' & [= <-] & Hle)]; [done|]. fold pos start in Hle. lia.
Qed.

(** ** Settings saved and read back *)


Lemma numeral_print_parse (z : Z) :
  is_gint z →
  (numeral ← DecimalString.NilZero.int_of_string
               (DecimalString.NilZero.string_of_int (Z.to_int z));
   if (-2147483648 <=? Z.of_int numeral) && (Z.of_int numeral <=? G_MAXINT)
   then Some (Z.of_int numeral) else None) = Some z.
Proof.
  intros Hz. rewrite DecimalString.NilZero.isi.
  - simpl. rewrite DecimalZ.of_to.
    unfold is_gint in Hz.
    destruct (Z.leb_spec (-2147483648) z), (Z.leb_spec z G_MAXINT); simpl; (done || lia).
  - destruct z; simpl; [done| |done].
    intros [= Hnil]. by apply DecimalPos.Unsigned.to_uint_nonnil in Hnil.
  - destruct z; simpl; [done..|].
    intros [= Hnil]. by apply DecimalPos.Unsigned.to_uint_nonnil in Hnil.
Qed.

Lemma g_key_file_integer_set_get (key_file : GKeyFile) (group key : string) (z : Z) :
  is_gint z →
  g_key_file_get_integer (g_key_file_set_integer key_file group key z) group key
  = Some z.
Proof.
  intros Hz. unfold g_key_file_get_integer, g_key_file_set_integer.
  rewrite lookup_insert_eq. cbn [mbind option_bind]. by apply numeral_print_parse.
Qed.

Lemma g_key_file_boolean_set_get (key_file : GKeyFile) (group key : string) (b : bool) :
  g_key_file_get_boolean (g_key_file_set_boolean key_file group key b) group key
  = Some b.
Proof.
  unfold g_key_file_get_boolean, g_key_file_set_boolean.
  rewrite lookup_insert_eq. by destruct b.
Qed.


(** X12. The dialog stores 1024 times the number entered for the search
    radius, and [find_words] multiplies the stored value by 1024 again: after
    OK or Apply with the number [k] (and [pos + k * 1048576] a [gint]) the
    search range is [pos - k * 1048576 .. pos + k * 1048576] cut to the
    document, and the whole document for [k = 0]. *)
Theorem configure_response_cb_radius (dialog : ConfigureDialog) (response : Z)
    (plugin_config : PluginConfig) (config_file : GKeyFile)
    (config_dir_ready : bool) (sci : ScintillaObject) (pos : Z) :
  response = GTK_RESPONSE_OK ∨ response = GTK_RESPONSE_APPLY →
  0 ≤ spin_distance_limit dialog →
  0 ≤ pos →
  pos + spin_distance_limit dialog * 1048576 ≤ G_MAXINT →
  let k := spin_distance_limit dialog in
  let answered :=
    (configure_response_cb dialog response plugin_config config_file
       config_dir_ready).1 in
  distance_limit answered = 1024 * k ∧
  find_words_window sci answered pos =
    if k =? 0 then (0, sci_get_length sci)
    else ((pos - k * 1048576) `max` 0, (pos + k * 1048576) `min` sci_get_length sci).
Proof.
  intros Hresponse Hk Hpos Hfit k answered.
  assert (Hanswer : (response =? GTK_RESPONSE_OK) || (response =? GTK_RESPONSE_APPLY)
                    = true).
  { destruct Hresponse as [->| ->]; reflexivity. }
  unfold G_MAXINT in Hfit. fold k in Hk, Hfit.
  assert (Hlimit : distance_limit answered = 1024 * k).
  { subst answered. unfold configure_response_cb. rewrite Hanswer. cbn.
    fold k. unfold gint_mul.
    apply gint_wrap_id. unfold is_gint, G_MAXINT. lia. }
  split; [done|].
  unfold find_words_window. rewrite Hlimit.
  destruct (Z.eqb_spec k 0) as [->|Hne]; [done|].
  destruct (Z.gtb_spec (1024 * k) 0); [|lia].
  unfold gint_mul, gint_sub, gint_add.
  rewrite (gint_wrap_id (1024 * k * 1024)) by (unfold is_gint, G_MAXINT; lia).
  rewrite !gint_wrap_id by (unfold is_gint, G_MAXINT; lia).
  rewrite MAX_max, MIN_min. f_equal; lia.
Qed.

(** X13. A setting that is missing from the configuration file gets its
    default: with none of the five keys present, whatever else the file holds,
    [plugin_init] gives a limit of 12 candidates, no distance limit, sorting by
    distance, fuzzy matches kept and the trailing word part kept. *)
Theorem plugin_init_defaults (config_file : GKeyFile) :
  (∀ k, k ∈ settings_keys → config_file !! k = None) →
  plugin_init config_file = mkPluginConfig 12 0 SORT_BY_DISTANCE false false.
Proof.
  intros Hmissing.
  unfold plugin_init, utils_get_setting_integer, utils_get_setting_boolean,
    g_key_file_get_integer, g_key_file_get_boolean.
  rewrite !Hmissing; [done|unfold settings_keys; rewrite !elem_of_cons; auto 10..].
Qed.

(** ** The further properties on the concrete inputs *)

Lemma match_fuzzy_forward_prefix_witness :
  g_utf8_casefold ascii_casefold_char (utf8 "foo")
    `prefix_of` g_utf8_casefold ascii_casefold_char (utf8 "FOObar") ∧
  match_fuzzy_forward ascii_casefold_char (utf8 "foo") (utf8 "FOObar") = true.
Proof.
  assert (Hbegins : g_utf8_casefold ascii_casefold_char (utf8 "foo")
                    `prefix_of` g_utf8_casefold ascii_casefold_char (utf8 "FOObar")).
  { exists (utf8 "bar"). vm_compute. reflexivity. }
  split; [exact Hbegins|].
  exact (proj1 (match_fuzzy_forward_prefix ascii_casefold_char (utf8 "foo"))
           (utf8 "FOObar") Hbegins).
Defined.

Lemma match_fuzzy_forward_trans_witness :
  match_fuzzy_forward ascii_casefold_char (utf8 "fo") (utf8 "fxo") = true ∧
  match_fuzzy_forward ascii_casefold_char (utf8 "fxo") (utf8 "fxoxo") = true ∧
  match_fuzzy_forward ascii_casefold_char (utf8 "fo") (utf8 "fxoxo") = true ∧
  (length (g_utf8_casefold ascii_casefold_char (utf8 "fo"))
   < length (g_utf8_casefold ascii_casefold_char (utf8 "fxo")))%nat ∧
  match_fuzzy_forward ascii_casefold_char (utf8 "fxo") (utf8 "fo") = false.
Proof.
  assert (Hfirst : match_fuzzy_forward ascii_casefold_char (utf8 "fo") (utf8 "fxo")
                   = true) by (vm_compute; reflexivity).
  assert (Hsecond : match_fuzzy_forward ascii_casefold_char (utf8 "fxo")
                      (utf8 "fxoxo") = true) by (vm_compute; reflexivity).
  assert (Hshort : (length (g_utf8_casefold ascii_casefold_char (utf8 "fo"))
                    < length (g_utf8_casefold ascii_casefold_char (utf8 "fxo")))%nat)
    by (vm_compute; lia).
  split; [exact Hfirst|]. split; [exact Hsecond|].
  split.
  - exact (proj1 (match_fuzzy_forward_trans ascii_casefold_char (utf8 "fo")
                    (utf8 "fxo") (utf8 "fxoxo")) Hfirst Hsecond).
  - split; [exact Hshort|].
    exact (proj2 (match_fuzzy_forward_trans ascii_casefold_char (utf8 "fxo")
                    (utf8 "fxo") (utf8 "fo")) Hshort).
Defined.

Lemma find_words_keeps_witness :
  sci_wf reached_sci ∧
  ∃ st added kept,
    find_words reached_sci reached_config (utf8 "foo") (utf8 "foox") 23 None
      stale_list [] = Some st ∧
    scan_candidates st = added ++ kept ∧
    length kept = length stale_list ∧
    ∀ i c, stale_list !! i = Some c →
      ∃ c', kept !! i = Some c' ∧
        text c' = text c ∧ match_type c' = match_type c ∧ dist c' ≤ dist c.
Proof.
  assert (Hwf : sci_wf reached_sci).
  { apply buffer_sci_wf. vm_compute. discriminate. }
  split; [exact Hwf|].
  exact (find_words_keeps reached_sci reached_config (utf8 "foo") (utf8 "foox") 23
           None stale_list [] Hwf).
Defined.

Lemma find_words_count_witness :
  sci_wf reached_sci ∧
  ∃ st (added : list Candidate),
    find_words reached_sci reached_config (utf8 "foo") (utf8 "foox") 23 None
      stale_list [] = Some st ∧
    length (scan_candidates st) = (length added + length stale_list)%nat ∧
    scan_num_matches st = Z.of_nat (length added) ∧
    Z.of_nat (length added) ≤ candidates_limit reached_config.
Proof.
  assert (Hwf : sci_wf reached_sci).
  { apply buffer_sci_wf. vm_compute. discriminate. }
  split; [exact Hwf|].
  destruct (find_words_count reached_sci reached_config (utf8 "foo") (utf8 "foox")
              23 None stale_list [] Hwf)
    as (st & added & Hrun & Hlength & _ & Hnum & _ & Hlimit).
  exists st, added. split; [exact Hrun|]. split; [exact Hlength|].
  split; [exact Hnum|]. apply Hlimit. vm_compute. split; discriminate.
Defined.

Lemma find_candidates_kinds_witness :
  sci_wf reached_sci ∧
  ∃ built,
    find_candidates ascii_casefold_char reached_sci reached_config
      (utf8 "foo") (utf8 "foox") 23 [] = Some built ∧
    (built = [] ∨
     ∃ body,
       built = body ++ [sentinel reached_config (utf8 "foo") (utf8 "foox")] ∧
       ∀ c, c ∈ body → match_type c = MATCH_FUZZY_FORWARD →
         match_fuzzy_forward ascii_casefold_char (utf8 "foo") (text c) = true).
Proof.
  assert (Hwf : sci_wf reached_sci).
  { apply buffer_sci_wf. vm_compute. discriminate. }
  split; [exact Hwf|].
  destruct (find_candidates_kinds ascii_casefold_char reached_sci reached_config
              (utf8 "foo") (utf8 "foox") 23 Hwf) as (built & Hbuilt & Hshape).
  exists built. split; [exact Hbuilt|].
  destruct Hshape as [Hempty | (body & Hbody & Hfuzzy & _)].
  - left. exact Hempty.
  - right. exists body. split; [exact Hbody|exact Hfuzzy].
Defined.

Lemma find_candidates_size_witness :
  sci_wf nearest_sci ∧
  1 ≤ candidates_limit nearest_config ≤ G_MAXINT ∧
  ∃ built,
    find_candidates ascii_casefold_char nearest_sci nearest_config
      (utf8 "foo") (utf8 "foo") 26 [] = Some built ∧
    Z.of_nat (length built) ≤ 2 * candidates_limit nearest_config + 1 ∧
    Z.of_nat (length built) ≤ candidates_limit nearest_config + 1.
Proof.
  assert (Hwf : sci_wf nearest_sci).
  { apply buffer_sci_wf. vm_compute. discriminate. }
  assert (Hlimit : 1 ≤ candidates_limit nearest_config ≤ G_MAXINT)
    by (vm_compute; split; discriminate).
  split; [exact Hwf|]. split; [exact Hlimit|].
  destruct (find_candidates_size ascii_casefold_char nearest_sci nearest_config
              (utf8 "foo") (utf8 "foo") 26 Hwf Hlimit)
    as (built & Hbuilt & Hboth & Hskip).
  exists built. split; [exact Hbuilt|]. split; [exact Hboth|].
  apply Hskip. reflexivity.
Defined.

Lemma find_candidates_ranked_witness :
  sci_wf reached_sci ∧
  ∃ built,
    find_candidates ascii_casefold_char reached_sci reached_config
      (utf8 "foo") (utf8 "foox") 23 [] = Some built ∧
    (built = [] ∨
     ∃ body,
       built = body ++ [sentinel reached_config (utf8 "foo") (utf8 "foox")] ∧
       StronglySorted (ranked_before reached_config) body).
Proof.
  assert (Hwf : sci_wf reached_sci).
  { apply buffer_sci_wf. vm_compute. discriminate. }
  split; [exact Hwf|].
  exact (find_candidates_ranked ascii_casefold_char reached_sci reached_config
           (utf8 "foo") (utf8 "foox") 23 Hwf).
Defined.

Lemma cycle_repeat_first_round_witness :
  NoDup (text <$> take 3 nearest_list) ∧
  (1 < length (take 3 nearest_list ++ [mkCandidate 0 (utf8 "foo") MATCH_EXACT]))%nat ∧
  cycle_repeat nearest_list CYCLE_FORWARD 2 None = Some (Some (utf8 "food")) ∧
  cycle_repeat nearest_list CYCLE_FORWARD 4 None = Some (Some (utf8 "foo")).
Proof.
  assert (Hdistinct : NoDup (text <$> take 3 nearest_list)).
  { apply (bool_decide_unpack _). vm_compute. reflexivity. }
  assert (Hk : (1 < length (take 3 nearest_list
                            ++ [mkCandidate 0 (utf8 "foo") MATCH_EXACT]))%nat)
    by (vm_compute; lia).
  split; [exact Hdistinct|]. split; [exact Hk|].
  exact (cycle_repeat_first_round (take 3 nearest_list)
           (mkCandidate 0 (utf8 "foo") MATCH_EXACT) 1 Hdistinct Hk).
Defined.

Lemma insert_completion_session_ok_witness :
  session_ok (mkSession None []) ∧
  (∀ sci, Some nearest_sci = Some sci → sci_wf sci) ∧
  ∃ s' effects,
    insert_completion ascii_casefold_char nearest_config (Some nearest_sci)
      CYCLE_FORWARD (mkSession None []) = Some (s', effects) ∧
    session_ok s'.
Proof.
  assert (Hok : session_ok (mkSession None [])) by reflexivity.
  assert (Hwf : ∀ sci, Some nearest_sci = Some sci → sci_wf sci).
  { intros sci [= <-]. apply buffer_sci_wf. vm_compute. discriminate. }
  split; [exact Hok|]. split; [exact Hwf|].
  destruct (insert_completion_session_ok ascii_casefold_char nearest_config
              (Some nearest_sci) CYCLE_FORWARD (mkSession None []) Hok Hwf)
    as (s' & effects & Hrun & Hok' & _).
  exists s', effects. split; [exact Hrun|exact Hok'].
Defined.


Lemma configure_response_cb_radius_witness :
  (GTK_RESPONSE_APPLY = GTK_RESPONSE_OK ∨ GTK_RESPONSE_APPLY = GTK_RESPONSE_APPLY) ∧
  0 ≤ spin_distance_limit sample_dialog ∧
  0 ≤ 26 ∧
  26 + spin_distance_limit sample_dialog * 1048576 ≤ G_MAXINT ∧
  distance_limit
    (configure_response_cb sample_dialog GTK_RESPONSE_APPLY nearest_config
       foreign_file true).1 = 4096 ∧
  find_words_window nearest_sci
    (configure_response_cb sample_dialog GTK_RESPONSE_APPLY nearest_config
       foreign_file true).1 26 = (0, 26).
Proof.
  assert (Hresponse : GTK_RESPONSE_APPLY = GTK_RESPONSE_OK
                      ∨ GTK_RESPONSE_APPLY = GTK_RESPONSE_APPLY)
    by (right; reflexivity).
  assert (Hk : 0 ≤ spin_distance_limit sample_dialog) by (vm_compute; discriminate).
  assert (Hpos : 0 ≤ 26) by lia.
  assert (Hfit : 26 + spin_distance_limit sample_dialog * 1048576 ≤ G_MAXINT)
    by (vm_compute; discriminate).
  split; [exact Hresponse|]. split; [exact Hk|]. split; [exact Hpos|].
  split; [exact Hfit|].
  destruct (configure_response_cb_radius sample_dialog GTK_RESPONSE_APPLY
              nearest_config foreign_file true nearest_sci 26
              Hresponse Hk Hpos Hfit) as [Hstored Hwindow].
  split.
  - rewrite Hstored. reflexivity.
  - rewrite Hwindow. vm_compute. reflexivity.
Defined.

Lemma plugin_init_defaults_witness :
  (∀ k, k ∈ settings_keys → foreign_file !! k = None) ∧
  plugin_init foreign_file = mkPluginConfig 12 0 SORT_BY_DISTANCE false false.
Proof.
  assert (Hmissing : ∀ k, k ∈ settings_keys → foreign_file !! k = None).
  { intros k Hk. unfold settings_keys in Hk. rewrite !elem_of_cons in Hk.
    destruct Hk as [->|[->|[->|[->|[->|Hk]]]]];
      [vm_compute; reflexivity..|by apply elem_of_nil in Hk]. }
  split; [exact Hmissing|].
  exact (plugin_init_defaults foreign_file Hmissing).
Defined.

(** * The passes and the occurrences of the document *)

(** ** The loop observes the hits of the search *)

Lemma observed_app (sci : ScintillaObject) (prefix word : gstring)
    (select_func : option (gstring → gstring → bool)) (hits1 hits2 : list Z) :
  observed sci prefix word select_func (hits1 ++ hits2) =
    observed sci prefix word select_func hits1
    ++ observed sci prefix word select_func hits2.
Proof. unfold observed. by rewrite fmap_app, filter_app. Qed.

Lemma observed_elem_of (sci : ScintillaObject) (prefix word : gstring)
    (select_func : option (gstring → gstring → bool)) (hits : list Z)
    (o : Occurrence) :
  o ∈ observed sci prefix word select_func hits →
  occ_start o ∈ hits ∧
  o = occurrence_at sci (find_words_match_type select_func) (occ_start o).
Proof.
  unfold observed. intros [_ (h & -> & Hh)%list_elem_of_fmap]%list_elem_of_filter.
  by split.
Qed.

Lemma find_words_hits_window (sci : ScintillaObject) (pattern : gstring)
    (source_start source_end : Z) (fuel : nat) (match_start h : Z) :
  h ∈ find_words_hits sci pattern source_start source_end fuel match_start →
  source_start ≤ h < source_end.
Proof.
  revert match_start. induction fuel as [|fuel IH]; intros match_start; simpl.
  - destruct (_ && _); intros Hh; by apply elem_of_nil in Hh.
  - destruct (_ && _) eqn:Hguard; [|intros Hh; by apply elem_of_nil in Hh].
    apply andb_true_iff in Hguard as [Hlo%Z.leb_le Hhi%Z.ltb_lt].
    intros [->|Hh]%elem_of_cons; [done|]. by eapply IH.
Qed.

Lemma pass_hits_window (sci : ScintillaObject) (plugin_config : PluginConfig)
    (prefix : gstring) (pos : Z)
    (select_func : option (gstring → gstring → bool)) (h : Z) :
  h ∈ pass_hits sci plugin_config prefix pos select_func →
  (find_words_window sci plugin_config pos).1 ≤ h
  < (find_words_window sci plugin_config pos).2.
Proof.
  unfold pass_hits.
  destruct (find_words_window sci plugin_config pos) as [source_start source_end].
  apply find_words_hits_window.
Qed.

(** On a widget the scan can rely on, the hits come in increasing order and
    the turns allowed to the loop reach all of them: more turns find no
    more. *)
Lemma find_words_hits_next (sci : ScintillaObject) (pattern : gstring)
    (source_end match_start : Z) :
  sci_wf sci → 0 ≤ match_start → source_end ≤ sci_get_length sci →
  match_start < source_end →
  let next :=
    sci_find_text sci SCFIND_WORDSTART
      (mkTextToFind (sci_word_end_position sci (gint_add match_start 1) true)
         source_end pattern) in
  next < source_end → next = -1 ∨ match_start < next.
Proof.
  intros Hwf Hlo Hend Hhi next Hnext.
  pose proof (sci_length_range sci Hwf) as Hlen.
  assert (Hword : match_start + 1
                  ≤ sci_word_end_position sci (gint_add match_start 1) true).
  { unfold gint_add.
    rewrite gint_wrap_id by (unfold is_gint, G_MAXINT in *; lia).
    apply (sci_word_end_ge sci Hwf). lia. }
  destruct (sci_find_text_ge sci Hwf SCFIND_WORDSTART
              (mkTextToFind (sci_word_end_position sci (gint_add match_start 1) true)
                 source_end pattern)) as [Hnone|Hfound]; [by left|].
  right. subst next. simpl in Hfound. lia.
Qed.

Lemma find_words_hits_outside (sci : ScintillaObject) (pattern : gstring)
    (source_start source_end : Z) (fuel : nat) (match_start : Z) :
  match_start < source_start ∨ source_end ≤ match_start →
  find_words_hits sci pattern source_start source_end fuel match_start = [].
Proof.
  intros Hout. destruct fuel; simpl; destruct (_ && _) eqn:Hguard; try done;
    apply andb_true_iff in Hguard as [Hlo%Z.leb_le Hhi%Z.ltb_lt]; lia.
Qed.

Lemma find_words_hits_sorted (sci : ScintillaObject) (pattern : gstring)
    (source_start source_end : Z) (fuel : nat) (match_start : Z) :
  sci_wf sci → 0 ≤ source_start → source_end ≤ sci_get_length sci →
  StronglySorted Z.lt
    (find_words_hits sci pattern source_start source_end fuel match_start) ∧
  Forall (λ h, match_start ≤ h)
    (find_words_hits sci pattern source_start source_end fuel match_start).
Proof.
  intros Hwf Hstart Hend. revert match_start.
  induction fuel as [|fuel IH]; intros match_start; simpl.
  - destruct (_ && _); by split; constructor.
  - destruct (_ && _) eqn:Hguard; [|by split; constructor].
    apply andb_true_iff in Hguard as [Hlo%Z.leb_le Hhi%Z.ltb_lt].
    set (next := sci_find_text sci SCFIND_WORDSTART _).
    destruct (IH next) as [Hsorted Hfrom].
    assert (Hafter : Forall (λ h, match_start < h)
                       (find_words_hits sci pattern source_start source_end fuel next)).
    { apply Forall_forall. intros h Hh.
      pose proof (find_words_hits_window _ _ _ _ _ _ _ Hh) as Hwin.
      eapply Forall_forall in Hfrom; [|exact Hh]. simpl in Hfrom.
      destruct (Z.lt_ge_cases next source_end) as [Hnext|Hnext]; [|lia].
      pose proof (find_words_hits_next sci pattern source_end match_start
                    Hwf ltac:(lia) Hend Hhi) as Hcases.
      cbv zeta in Hcases. fold next in Hcases.
      destruct (Hcases Hnext) as [Hnone|Hlt]; [|lia].
      rewrite find_words_hits_outside in Hh by lia. by apply elem_of_nil in Hh. }
    split.
    + by constructor.
    + constructor; [lia|]. eapply Forall_impl; [exact Hafter|]. simpl. lia.
Qed.

Lemma find_words_hits_fuel (sci : ScintillaObject) (pattern : gstring)
    (source_start source_end : Z) (fuel extra : nat) (match_start : Z) :
  sci_wf sci → 0 ≤ source_start → source_end ≤ sci_get_length sci →
  (source_start ≤ match_start → source_end - match_start ≤ Z.of_nat fuel) →
  find_words_hits sci pattern source_start source_end (fuel + extra) match_start =
  find_words_hits sci pattern source_start source_end fuel match_start.
Proof.
  intros Hwf Hstart Hend. revert match_start.
  induction fuel as [|fuel IH]; intros match_start Hfuel.
  - destruct extra as [|extra]; [done|]. simpl.
    destruct (_ && _) eqn:Hguard; [|done].
    apply andb_true_iff in Hguard as [Hlo%Z.leb_le Hhi%Z.ltb_lt]. lia.
  - simpl. destruct (_ && _) eqn:Hguard; [|done].
    apply andb_true_iff in Hguard as [Hlo%Z.leb_le Hhi%Z.ltb_lt].
    f_equal. apply IH. intros Hnext.
    set (next := sci_find_text sci SCFIND_WORDSTART _) in *.
    destruct (Z.lt_ge_cases next source_end) as [Hin|Hout]; [|lia].
    pose proof (find_words_hits_next sci pattern source_end match_start
                  Hwf ltac:(lia) Hend Hhi) as Hcases.
    cbv zeta in Hcases. fold next in Hcases.
    destruct (Hcases Hin); lia.
Qed.

Lemma pass_hits_sorted (sci : ScintillaObject) (plugin_config : PluginConfig)
    (prefix : gstring) (pos : Z)
    (select_func : option (gstring → gstring → bool)) (extra : nat) :
  sci_wf sci →
  StronglySorted Z.lt (pass_hits sci plugin_config prefix pos select_func) ∧
  find_words_hits sci (find_words_pattern prefix select_func)
    (find_words_window sci plugin_config pos).1
    (find_words_window sci plugin_config pos).2
    (Z.to_nat ((find_words_window sci plugin_config pos).2
               - (find_words_window sci plugin_config pos).1) + extra)
    (sci_find_text sci SCFIND_WORDSTART
       (mkTextToFind (find_words_window sci plugin_config pos).1
          (find_words_window sci plugin_config pos).2
          (find_words_pattern prefix select_func)))
  = pass_hits sci plugin_config prefix pos select_func.
Proof.
  intros Hwf.
  destruct (find_words_window_bounds sci plugin_config pos Hwf) as [Hlo Hhi].
  unfold pass_hits.
  destruct (find_words_window sci plugin_config pos) as [source_start source_end].
  simpl in *. split.
  - by apply find_words_hits_sorted.
  - apply find_words_hits_fuel; [done..|]. intros Hfirst.
    destruct (sci_find_text_ge sci Hwf SCFIND_WORDSTART
                (mkTextToFind source_start source_end
                   (find_words_pattern prefix select_func))); simpl in *; lia.
Qed.

Section observed_facts.
Variable sci : ScintillaObject.
Variable plugin_config : PluginConfig.
Variables prefix word : gstring.
Variable pos : Z.
Variable select_func : option (gstring → gstring → bool).
Variables source_start source_end : Z.

(** One turn of the loop logs the occurrence at its hit exactly when the pass
    selects it and it is not the word being typed, which never becomes a
    candidate. *)
Lemma find_words_collect_observed (ms : Z) (st : Scan) :
  word ∉ text <$> scan_candidates st →
  let match_ :=
    sci_get_contents_range sci ms
      (sci_word_end_position sci (gint_add ms 1) true) in
  let st1 :=
    if find_words_selected prefix select_func match_
    then find_words_collect word pos select_func match_ ms st
    else st in
  scan_yielded st1 = scan_yielded st ++ observed sci prefix word select_func [ms] ∧
  (word ∉ text <$> scan_candidates st1).
Proof.
  intros Hword match_ st1. subst st1. unfold observed. cbn [fmap list_fmap].
  unfold occurrence_at at 1. fold match_.
  destruct (find_words_selected prefix select_func match_) eqn:Hselected.
  - destruct (find_words_collect_cases word pos select_func match_ ms st)
      as [(Heq & _ & ->)|[(Hne & _ & ->)|(c & l1 & l2 & Hc & Hsplit & ->)]].
    + rewrite filter_cons_False by (simpl; tauto).
      by rewrite filter_nil, app_nil_r.
    + rewrite filter_cons_True by (by simpl). rewrite filter_nil.
      cbn [scan_yielded scan_candidates]. split; [done|].
      rewrite fmap_cons, not_elem_of_cons. cbn [text]. by split.
    + assert (Hne : match_ ≠ word).
      { intros Heq. apply Hword. rewrite Hsplit, <-Heq, <-Hc.
        apply list_elem_of_fmap_2. rewrite elem_of_app, elem_of_cons. auto. }
      rewrite filter_cons_True by (by simpl). rewrite filter_nil.
      cbn [scan_yielded scan_candidates]. split; [done|].
      rewrite Hsplit in Hword. revert Hword.
      rewrite !fmap_app, !fmap_cons. cbn [text]. by rewrite Hc.
  - rewrite filter_cons_False by (simpl; rewrite Hselected; intros [? _]; done).
    by rewrite filter_nil, app_nil_r.
Qed.

(** The loop logs the observed occurrences of the hits in their order, and
    leaves some of them out only when it stopped at the limit. *)
Lemma find_words_loop_observed (fuel : nat) (st st' : Scan) (ms : Z) :
  find_words_loop sci plugin_config prefix word pos select_func
    source_start source_end fuel st ms = Some st' →
  word ∉ text <$> scan_candidates st →
  ∃ seen rest,
    observed sci prefix word select_func
      (find_words_hits sci (find_words_pattern prefix select_func)
         source_start source_end fuel ms) = seen ++ rest ∧
    scan_yielded st' = scan_yielded st ++ seen ∧
    (rest ≠ [] → scan_num_matches st' = candidates_limit plugin_config).
Proof.
  revert st ms. induction fuel as [|fuel IH]; intros st ms; simpl.
  - destruct (_ && _); [done|]. intros [= <-] _.
    exists [], []. by rewrite !app_nil_r.
  - destruct (_ && _);
      [|intros [= <-] _; exists [], []; by rewrite !app_nil_r].
    intros Hloop Hword.
    destruct (find_words_collect_observed ms st Hword) as [Hlog1 Hword1].
    cbv zeta in Hlog1, Hword1.
    set (match_ := sci_get_contents_range sci ms _) in *.
    set (st1 := if find_words_selected prefix select_func match_
                then find_words_collect word pos select_func match_ ms st
                else st) in *.
    set (next := sci_find_text sci SCFIND_WORDSTART _) in *.
    change (ms :: find_words_hits sci (find_words_pattern prefix select_func)
                    source_start source_end fuel next)
      with ([ms] ++ find_words_hits sci (find_words_pattern prefix select_func)
                      source_start source_end fuel next).
    rewrite observed_app.
    destruct (Z.eqb_spec (scan_num_matches st1) (candidates_limit plugin_config))
      as [Hlimit|_].
    + injection Hloop as <-. eexists _, _. split_and!; [done..|]. by intros _.
    + destruct (IH _ _ Hloop Hword1) as (seen & rest & Hhits & Hlog & Hrest).
      exists (observed sci prefix word select_func [ms] ++ seen), rest.
      rewrite Hhits, Hlog, Hlog1, !app_assoc. by split_and!.
Qed.
End observed_facts.

(** One pass logs what [pass_observed] describes. *)
Lemma find_words_observed (sci : ScintillaObject) (plugin_config : PluginConfig)
    (prefix word : gstring) (pos : Z)
    (select_func : option (gstring → gstring → bool))
    (cands : list Candidate) (log : list Occurrence) (st : Scan) :
  find_words sci plugin_config prefix word pos select_func cands log = Some st →
  word ∉ text <$> cands →
  ∃ seen,
    scan_yielded st = log ++ seen ∧
    pass_observed sci plugin_config prefix word pos select_func
      (scan_num_matches st) seen.
Proof.
  unfold find_words, pass_observed, pass_hits.
  destruct (find_words_window sci plugin_config pos) as [source_start source_end].
  intros Hloop Hword.
  destruct (find_words_loop_observed sci plugin_config prefix word pos select_func
              source_start source_end _ _ _ _ Hloop Hword)
    as (seen & rest & Hhits & Hlog & Hrest).
  exists seen. split; [done|]. by exists rest.
Qed.

(** ** The two passes *)

Lemma kind_count_app (kind : MatchType) (l1 l2 : list Candidate) :
  kind_count kind (l1 ++ l2) = kind_count kind l1 + kind_count kind l2.
Proof. unfold kind_count. rewrite filter_app, length_app. lia. Qed.

Lemma kind_count_all (kind : MatchType) (l : list Candidate) :
  Forall (λ c, match_type c = kind) l → kind_count kind l = Z.of_nat (length l).
Proof. intros Hall. unfold kind_count. by rewrite filter_all. Qed.

Lemma kind_count_none (kind other : MatchType) (l : list Candidate) :
  kind ≠ other → Forall (λ c, match_type c = other) l → kind_count kind l = 0.
Proof.
  intros Hne Hall. unfold kind_count. rewrite filter_none; [done|].
  eapply Forall_impl; [exact Hall|]. simpl. congruence.
Qed.

(** The two passes, started on the empty list, end; the list they leave
    agrees with their log, and the log is what the passes observe in the
    document. *)
Lemma find_candidates_collect_observed (casefold_char : gunichar → gstring)
    (sci : ScintillaObject) (plugin_config : PluginConfig)
    (prefix word : gstring) (pos : Z) :
  sci_wf sci →
  ∃ cands log,
    find_candidates_collect casefold_char sci plugin_config prefix word pos []
      = Some (cands, log) ∧
    passes_observed casefold_char sci plugin_config prefix word pos cands log ∧
    collected_unique word cands log ∧
    in_window (find_words_window sci plugin_config pos) log ∧
    (0 ≤ pos ≤ G_MAXINT → collected_nearest pos cands log) ∧
    exact_first log.
Proof.
  intros Hwf.
  destruct (find_candidates_collect_spec casefold_char sci plugin_config
              prefix word pos Hwf)
    as (cands & log & Hcollect & Huniq & Hwin & Hnear & Hfirst).
  exists cands, log. split_and!; [done| |done..].
  revert Hcollect. unfold find_candidates_collect, passes_observed.
  destruct (find_words_added sci plugin_config prefix word pos None [] [] Hwf)
    as (st1 & added1 & kept1 & Hpass1 & Hsplit1 & ->%refreshed_nil_l & Hadded1
        & Hnum1 & _).
  rewrite app_nil_r in Hsplit1. rewrite Hpass1. cbn [mbind option_bind].
  assert (Hexact1 : Forall (λ c, match_type c = MATCH_EXACT) added1).
  { eapply Forall_impl; [exact Hadded1|]. by intros c (? & _). }
  assert (Hword1 : word ∉ text <$> scan_candidates st1).
  { rewrite Hsplit1. intros (c & -> & Hc)%list_elem_of_fmap.
    eapply Forall_forall in Hadded1; [|exact Hc]. by destruct Hadded1 as (_ & _ & ?). }
  destruct (find_words_observed sci plugin_config prefix word pos None [] [] st1
              Hpass1 ltac:(apply not_elem_of_nil)) as (seen1 & Hlog1 & Hseen1).
  rewrite app_nil_l in Hlog1.
  destruct (_ || _) eqn:Hrun.
  - destruct (find_words_added sci plugin_config prefix word pos
                (Some (match_fuzzy_forward casefold_char))
                (scan_candidates st1) (scan_yielded st1) Hwf)
      as (st2 & added2 & kept2 & Hpass2 & Hsplit2 & Hkept2 & Hadded2 & Hnum2 & _).
    rewrite Hpass2. cbn [mbind option_bind]. intros [= <- <-].
    destruct (find_words_observed sci plugin_config prefix word pos
                (Some (match_fuzzy_forward casefold_char))
                (scan_candidates st1) (scan_yielded st1) st2 Hpass2 Hword1)
      as (seen2 & Hlog2 & Hseen2).
    rewrite Hsplit1 in Hkept2.
    assert (Hexact2 : Forall (λ c, match_type c = MATCH_EXACT) kept2)
      by (by eapply refreshed_match_type).
    assert (Hfuzzy2 : Forall (λ c, match_type c = MATCH_FUZZY_FORWARD) added2).
    { eapply Forall_impl; [exact Hadded2|]. by intros c (? & _). }
    assert (Hcount_exact : kind_count MATCH_EXACT (scan_candidates st2)
                           = scan_num_matches st1).
    { rewrite Hsplit2, kind_count_app.
      rewrite (kind_count_none MATCH_EXACT MATCH_FUZZY_FORWARD added2) by done.
      rewrite kind_count_all by done.
      apply Forall2_length in Hkept2. lia. }
    assert (Hcount_fuzzy : kind_count MATCH_FUZZY_FORWARD (scan_candidates st2)
                           = scan_num_matches st2).
    { rewrite Hsplit2, kind_count_app.
      rewrite (kind_count_none MATCH_FUZZY_FORWARD MATCH_EXACT kept2) by done.
      rewrite kind_count_all by done. lia. }
    exists seen1, seen2. rewrite Hcount_exact, Hcount_fuzzy, Hrun.
    split_and!; [by rewrite Hlog2, Hlog1|done..].
  - intros [= <- <-].
    assert (Hcount_exact : kind_count MATCH_EXACT (scan_candidates st1)
                           = scan_num_matches st1).
    { rewrite Hsplit1, kind_count_all by done. lia. }
    exists seen1, []. rewrite Hcount_exact, Hrun, app_nil_r.
    by split_and!.
Qed.

(** C6. The two passes end, and what they log is what they observe in the
    document: the selected occurrences, other than the word being typed, at
    the hits of the exact search and then of the fuzzy search, in their
    order, up to where a pass stopped at the limit.  Every candidate has the
    text of an observed occurrence, and for every observed text there is
    exactly one candidate with that text; its distance is the least of
    [|occurrence_start - pos|] over the observed occurrences of the text (and
    is the distance of one of them); and its match type is the pass that
    observed the text first, so a text first seen by the exact pass stays an
    exact match. *)
Theorem find_candidates_collect_nearest (casefold_char : gunichar → gstring)
    (sci : ScintillaObject) (plugin_config : PluginConfig)
    (prefix word : gstring) (pos : Z) :
  sci_wf sci → 0 ≤ pos ≤ G_MAXINT →
  ∃ cands log,
    find_candidates_collect casefold_char sci plugin_config prefix word pos []
      = Some (cands, log) ∧
    passes_observed casefold_char sci plugin_config prefix word pos cands log ∧
    (∀ c, c ∈ cands → text c ∈ occ_text <$> log) ∧
    ∀ t, t ∈ occ_text <$> log →
      ∃ c, filter (λ c, text c = t) cands = [c] ∧
        (∃ o, o ∈ log ∧ occ_text o = t ∧ dist c = Z.abs (occ_start o - pos)) ∧
        (∀ o, o ∈ log → occ_text o = t → dist c ≤ Z.abs (occ_start o - pos)) ∧
        (∃ o, head (filter (λ o, occ_text o = t) log) = Some o ∧
              match_type c = occ_pass o) ∧
        ((∃ o, o ∈ log ∧ occ_text o = t ∧ occ_pass o = MATCH_EXACT) →
         match_type c = MATCH_EXACT).
Proof.
  intros Hwf Hpos.
  destruct (find_candidates_collect_observed casefold_char sci plugin_config
              prefix word pos Hwf)
    as (cands & log & Hcollect & Hobserved & Huniq & Hwin & Hnear & Hfirst).
  specialize (Hnear Hpos). exists cands, log.
  destruct Huniq as [Hnd Hword Hlog Hpass].
  destruct Hnear as [Hatt Hleast].
  split_and!; [done..| |].
  { intros c Hc. apply Hlog. by apply list_elem_of_fmap_2. }
  intros t Ht.
  apply Hlog in Ht as (c & -> & Hc)%list_elem_of_fmap.
  exists c. split_and!.
  - apply list_elem_of_split in Hc as (l1 & l2 & ->).
    rewrite fmap_app, fmap_cons in Hnd.
    apply NoDup_app in Hnd as (_ & Hl1 & [Hl2 _]%NoDup_cons).
    rewrite filter_app, filter_cons_True by done.
    rewrite !filter_none; [done|..]; apply Forall_forall; intros d Hd Heq.
    + apply Hl2. rewrite <-Heq. by apply list_elem_of_fmap_2.
    + apply (Hl1 (text d)); [by apply list_elem_of_fmap_2|]. rewrite Heq. by left.
  - by apply Hatt.
  - intros o Ho Heq. by apply Hleast.
  - by apply Hpass.
  - intros (o & Ho & Heq & Hexact).
    destruct (Hpass c Hc) as (o0 & Hhead & ->).
    destruct Hfirst as (exact & fuzzy & -> & Hex & Hfz).
    rewrite filter_app, head_app in Hhead.
    destruct (head (filter _ exact)) as [o1|] eqn:Hhead1.
    + injection Hhead as <-. apply head_Some_elem_of in Hhead1.
      apply list_elem_of_filter in Hhead1 as [_ Ho1].
      by eapply Forall_forall in Hex.
    + apply head_None in Hhead1.
      apply elem_of_app in Ho as [Ho|Ho].
      * assert (o ∈ filter (λ o, occ_text o = text c) exact) as Hin
          by (by apply list_elem_of_filter).
        rewrite Hhead1 in Hin. by apply elem_of_nil in Hin.
      * eapply Forall_forall in Hfz; [|exact Ho]. congruence.
Qed.

(** C8 (as amended). With [distance_limit = 0] the search range is the whole
    document; with [distance_limit = limit > 0] and [pos + limit * 1024] a
    [gint] it is [pos - limit * 1024 .. pos + limit * 1024] cut to the
    document.  Every hit of either search starts inside the range, hence, for
    [limit > 0], no further than [limit * 1024] from the cursor; the two
    passes end and log what they observe at these hits; and every candidate
    they leave is the word at an observed occurrence inside the range, with
    the distance of that occurrence, so no candidate comes from further than
    [limit * 1024]. *)
Theorem find_words_window_spec (casefold_char : gunichar → gstring)
    (sci : ScintillaObject) (plugin_config : PluginConfig)
    (prefix word : gstring) (pos : Z) :
  sci_wf sci →
  0 ≤ pos ≤ sci_get_length sci →
  (0 < distance_limit plugin_config →
   distance_limit plugin_config * 1024 + pos ≤ G_MAXINT) →
  let limit := distance_limit plugin_config in
  let window := find_words_window sci plugin_config pos in
  (limit = 0 → window = (0, sci_get_length sci)) ∧
  (0 < limit → window = ((pos - limit * 1024) `max` 0,
                         (pos + limit * 1024) `min` sci_get_length sci)) ∧
  (∀ select_func h,
     h ∈ pass_hits sci plugin_config prefix pos select_func →
     window.1 ≤ h < window.2 ∧
     (0 < limit → Z.abs (h - pos) ≤ limit * 1024)) ∧
  ∃ cands log,
    find_candidates_collect casefold_char sci plugin_config prefix word pos []
      = Some (cands, log) ∧
    passes_observed casefold_char sci plugin_config prefix word pos cands log ∧
    (∀ o, o ∈ log →
       window.1 ≤ occ_start o < window.2 ∧
       (0 < limit → Z.abs (occ_start o - pos) ≤ limit * 1024)) ∧
    (∀ c, c ∈ cands →
       ∃ o, o ∈ log ∧ occ_text o = text c ∧
            dist c = Z.abs (occ_start o - pos) ∧
            (0 < limit → dist c ≤ limit * 1024)).
Proof.
  intros Hwf Hpos Hfit limit window.
  pose proof (sci_length_range sci Hwf) as Hlen.
  assert (Hzero : limit = 0 → window = (0, sci_get_length sci)).
  { intros HN. subst window limit. unfold find_words_window. by rewrite HN. }
  assert (Hlimit : 0 < limit →
    window = ((pos - limit * 1024) `max` 0,
              (pos + limit * 1024) `min` sci_get_length sci)).
  { intros HN. subst window. unfold find_words_window. fold limit.
    destruct (Z.gtb_spec limit 0); [|lia].
    specialize (Hfit HN). fold limit in Hfit. unfold G_MAXINT in Hfit.
    unfold gint_mul, gint_sub, gint_add.
    rewrite (gint_wrap_id (limit * 1024)) by (unfold is_gint, G_MAXINT; lia).
    rewrite !gint_wrap_id by (unfold is_gint, G_MAXINT; lia).
    by rewrite MAX_max, MIN_min. }
  assert (Hnear : ∀ h, window.1 ≤ h < window.2 →
            0 < limit → Z.abs (h - pos) ≤ limit * 1024).
  { intros h Hh HN. rewrite (Hlimit HN) in Hh. simpl in Hh. lia. }
  split_and!; [done..| |].
  { intros select_func h Hh%pass_hits_window. fold window in Hh. split; [done|].
    by apply Hnear. }
  destruct (find_candidates_collect_observed casefold_char sci plugin_config
              prefix word pos Hwf)
    as (cands & log & Hcollect & Hobserved & _ & Hwin & Hnearest & _).
  destruct Hnearest as [Hatt _]; [unfold G_MAXINT in *; lia|].
  fold window in Hwin.
  assert (Hlog : ∀ o, o ∈ log → window.1 ≤ occ_start o < window.2).
  { intros o Ho. by eapply Forall_forall in Hwin. }
  exists cands, log. split_and!; [done..| |].
  - intros o Ho. split; [by apply Hlog|]. apply Hnear. by apply Hlog.
  - intros c Hc. destruct (Hatt c Hc) as (o & Ho & Htext & Hdist).
    exists o. split_and!; [done..|].
    intros HN. rewrite Hdist. unfold occurrence_distance.
    apply Hnear; [by apply Hlog|done].
Qed.

(** ** The passes on concrete documents *)

(** On [reached_doc] the exact search hits the four words that begin with
    "foo" and the fuzzy search the five that begin with "f"; the word being
    typed, at 20, is observed by neither pass. *)
Example observed_reached :
  pass_hits reached_sci reached_config (utf8 "foo") 23 None = [0; 4; 9; 20] ∧
  pass_hits reached_sci reached_config (utf8 "foo") 23
    (Some (match_fuzzy_forward ascii_casefold_char)) = [0; 4; 9; 14; 20] ∧
  observed reached_sci (utf8 "foo") (utf8 "foox") None [0; 4; 9; 20] =
    [ mkOccurrence (utf8 "foo") 0 MATCH_EXACT;
      mkOccurrence (utf8 "fooa") 4 MATCH_EXACT;
      mkOccurrence (utf8 "foob") 9 MATCH_EXACT ] ∧
  observed reached_sci (utf8 "foo") (utf8 "foox")
    (Some (match_fuzzy_forward ascii_casefold_char)) [0; 4; 9; 14; 20] =
    [ mkOccurrence (utf8 "foo") 0 MATCH_FUZZY_FORWARD;
      mkOccurrence (utf8 "fooa") 4 MATCH_FUZZY_FORWARD;
      mkOccurrence (utf8 "foob") 9 MATCH_FUZZY_FORWARD;
      mkOccurrence (utf8 "fxoxo") 14 MATCH_FUZZY_FORWARD ].
Proof. split_and!; vm_compute; reflexivity. Qed.

(** On [far_doc] a limit of one unit leaves "foobar", 1074 characters in front
    of the cursor, outside the search range; without a limit it is found. *)
Example find_candidates_far :
  find_words_window far_sci limited_config 1074 = (50, 1074) ∧
  pass_hits far_sci limited_config (utf8 "foo") 1074 None = [1066; 1071] ∧
  find_candidates_collect ascii_casefold_char far_sci limited_config
    (utf8 "foo") (utf8 "foo") 1074 [] =
    Some ([ mkCandidate 8 (utf8 "food") MATCH_EXACT ],
          [ mkOccurrence (utf8 "food") 1066 MATCH_EXACT ]) ∧
  pass_hits far_sci nearest_config (utf8 "foo") 1074 None = [0; 1066; 1071] ∧
  find_candidates_collect ascii_casefold_char far_sci nearest_config
    (utf8 "foo") (utf8 "foo") 1074 [] =
    Some ([ mkCandidate 8 (utf8 "food") MATCH_EXACT;
            mkCandidate 1074 (utf8 "foobar") MATCH_EXACT ],
          [ mkOccurrence (utf8 "foobar") 0 MATCH_EXACT;
            mkOccurrence (utf8 "food") 1066 MATCH_EXACT ]).
Proof. split_and!; vm_compute; reflexivity. Qed.

Lemma find_candidates_collect_nearest_witness :
  sci_wf reached_sci ∧ 0 ≤ 23 ≤ G_MAXINT ∧
  ∃ cands log,
    find_candidates_collect ascii_casefold_char reached_sci reached_config
      (utf8 "foo") (utf8 "foox") 23 [] = Some (cands, log) ∧
    passes_observed ascii_casefold_char reached_sci reached_config
      (utf8 "foo") (utf8 "foox") 23 cands log ∧
    (∀ c, c ∈ cands → text c ∈ occ_text <$> log) ∧
    ∀ t, t ∈ occ_text <$> log →
      ∃ c, filter (λ c, text c = t) cands = [c] ∧
        (∃ o, o ∈ log ∧ occ_text o = t ∧ dist c = Z.abs (occ_start o - 23)) ∧
        (∀ o, o ∈ log → occ_text o = t → dist c ≤ Z.abs (occ_start o - 23)) ∧
        (∃ o, head (filter (λ o, occ_text o = t) log) = Some o ∧
              match_type c = occ_pass o) ∧
        ((∃ o, o ∈ log ∧ occ_text o = t ∧ occ_pass o = MATCH_EXACT) →
         match_type c = MATCH_EXACT).
Proof.
  assert (Hwf : sci_wf reached_sci).
  { apply buffer_sci_wf. vm_compute. discriminate. }
  assert (Hpos : 0 ≤ 23 ≤ G_MAXINT) by (unfold G_MAXINT; lia).
  split; [exact Hwf|]. split; [exact Hpos|].
  exact (find_candidates_collect_nearest ascii_casefold_char reached_sci
           reached_config (utf8 "foo") (utf8 "foox") 23 Hwf Hpos).
Defined.

Lemma find_words_window_spec_witness :
  sci_wf far_sci ∧
  0 ≤ 1074 ≤ sci_get_length far_sci ∧
  (0 < distance_limit limited_config →
   distance_limit limited_config * 1024 + 1074 ≤ G_MAXINT) ∧
  find_words_window far_sci limited_config 1074 = (50, 1074) ∧
  (∀ select_func h,
     h ∈ pass_hits far_sci limited_config (utf8 "foo") 1074 select_func →
     Z.abs (h - 1074) ≤ 1024) ∧
  ∃ cands log,
    find_candidates_collect ascii_casefold_char far_sci limited_config
      (utf8 "foo") (utf8 "foo") 1074 [] = Some (cands, log) ∧
    passes_observed ascii_casefold_char far_sci limited_config
      (utf8 "foo") (utf8 "foo") 1074 cands log ∧
    (∀ o, o ∈ log → Z.abs (occ_start o - 1074) ≤ 1024) ∧
    (∀ c, c ∈ cands → dist c ≤ 1024).
Proof.
  assert (Hwf : sci_wf far_sci).
  { apply buffer_sci_wf. vm_compute. discriminate. }
  assert (Hpos : 0 ≤ 1074 ≤ sci_get_length far_sci)
    by (vm_compute; split; discriminate).
  assert (Hfit : 0 < distance_limit limited_config →
                 distance_limit limited_config * 1024 + 1074 ≤ G_MAXINT)
    by (intros _; vm_compute; discriminate).
  assert (Hlimited : 0 < distance_limit limited_config) by (vm_compute; reflexivity).
  split; [exact Hwf|]. split; [exact Hpos|]. split; [exact Hfit|].
  destruct (find_words_window_spec ascii_casefold_char far_sci limited_config
              (utf8 "foo") (utf8 "foo") 1074 Hwf Hpos Hfit)
    as (_ & Hwindow & Hhits & cands & log & Hcollect & Hobserved & Hlog & Hcands).
  split; [|split].
  - rewrite Hwindow by exact Hlimited. vm_compute. reflexivity.
  - intros select_func h Hh. destruct (Hhits select_func h Hh) as [_ Hnear].
    exact (Hnear Hlimited).
  - exists cands, log. split; [exact Hcollect|]. split; [exact Hobserved|]. split.
    + intros o Ho. destruct (Hlog o Ho) as [_ Hnear]. exact (Hnear Hlimited).
    + intros c Hc. destruct (Hcands c Hc) as (o & _ & _ & _ & Hnear).
      exact (Hnear Hlimited).
Defined.

(** C8 (as stated) fails where the radius leaves the [gint] range.  With the
    distance limit 2097152, which [plugin_init] reads from a configuration
    file as any other, [distance_limit * 1024] wraps around to [-2147483648]:
    for the document of the worked example and the cursor at 26 the search
    range ends at [26 - 2147483648] instead of being the whole document
    [0 .. 26], and the passes find nothing, although "foobaz" starts at 16 and
    is found without a limit. *)
Lemma find_words_window_counterexample :
  plugin_init overflow_file = overflow_config ∧
  0 < distance_limit overflow_config ∧
  ((26 - distance_limit overflow_config * 1024) `max` 0,
   (26 + distance_limit overflow_config * 1024) `min` sci_get_length nearest_sci)
    = (0, 26) ∧
  find_words_window nearest_sci overflow_config 26 = (0, -2147483622) ∧
  find_words_window nearest_sci overflow_config 26
    ≠ ((26 - distance_limit overflow_config * 1024) `max` 0,
       (26 + distance_limit overflow_config * 1024) `min` sci_get_length nearest_sci) ∧
  find_candidates_collect ascii_casefold_char nearest_sci overflow_config
    (utf8 "foo") (utf8 "foo") 26 [] = Some ([], []) ∧
  occurrence_at nearest_sci MATCH_EXACT 16
    = mkOccurrence (utf8 "foobaz") 16 MATCH_EXACT ∧
  mkCandidate 10 (utf8 "foobaz") MATCH_EXACT ∈ nearest_list ∧
  find_candidates ascii_casefold_char nearest_sci nearest_config
    (utf8 "foo") (utf8 "foo") 26 [] = Some nearest_list.
Proof.
  split_and!; try (vm_compute; reflexivity).
  - vm_compute. discriminate.
  - unfold nearest_list. rewrite elem_of_cons. by left.
Qed.
